(** * Word Ladder II visualizer: the layered BFS engine of [src/App.tsx]

    A shallow embedding of the algorithmic core of the React component
    [WordLadderVisualizer]: the [words] memo, the wildcard-pattern index
    ([patternBuckets], [getNeighbors]), the level-synchronous search that
    records one [BFSFrame] per level ([frames]), and the backtracking
    reconstruction of all shortest ladders ([finalParents], [allPaths]).

    Modelling conventions.
    - A JavaScript string is a [string]: a sequence of 8-bit code units.
    - A [Set<string>] is the list of its elements in insertion order, without
      repetition; [Array.from(set)] and [for ... of set] read that list.
    - An object used as a dictionary ([Record<string, ...>]) is a [gmap] of
      its own properties.  Reading a property goes through the prototype
      chain: [parents] and [finalParents] are plain objects, so a name that
      they do not own may still be found on [Object.prototype] ([getProp]).
      The keys of [patternBuckets] hold the wildcard marker, which no name of
      [Object.prototype] does, so its reads are reads of own properties.
    - A computation returns, throws a [TypeError], or runs out of the fuel
      that the model gives to the two unbounded constructs, the [while] loop
      of [frames] and the recursion of [dfs] ([outcome]); the fuel that the
      top-level functions pass is proved sufficient.
    - [useMemo] cells are functions of their dependency lists; a cell whose
      dependency has thrown is not computed.

    Besides the engine the file embeds what the component derives from its
    result for the panel: [solved] and [visiblePaths], the layout memos
    [columns], [positions] and [edges], the size of the canvas of [Graph], and
    the handlers of the playback controls.  There the numbers are integers
    ([Z]), [Object.entries] hands over the entries of an object as an array
    given from outside, and [Object.values] matters only up to order. *)

From stdpp Require Import gmap strings list fin_maps sorting pretty.
From Stdlib Require Import Ascii.

Local Open Scope nat_scope.
Set Warnings "-clear-no-such-hyp,-level-tolerance,-notation-for-abbreviation".

(** ** Strings *)

(** [c.toLowerCase()] on one code unit: A-Z, and the Latin-1 capitals. *)
Definition lower_ascii (c : ascii) : ascii :=
  let n := nat_of_ascii c in
  if ((65 <=? n) && (n <=? 90)) || ((192 <=? n) && (n <=? 222) && negb (n =? 215))
  then ascii_of_nat (n + 32)
  else c.

Fixpoint toLowerCase (s : string) : string :=
  match s with
  | EmptyString => EmptyString
  | String c s' => String (lower_ascii c) (toLowerCase s')
  end.

(** White space as [String.prototype.trim] sees it among 8-bit code units. *)
Definition is_ws (c : ascii) : bool :=
  let n := nat_of_ascii c in
  ((9 <=? n) && (n <=? 13)) || (n =? 32) || (n =? 160).

Fixpoint trimStart (s : string) : string :=
  match s with
  | EmptyString => EmptyString
  | String c s' => if is_ws c then trimStart s' else s
  end.

Definition trim (s : string) : string :=
  String.rev (trimStart (String.rev (trimStart s))).

(** [s.slice(0, i)]: the first [i] code units, all of [s] when it is shorter. *)
Fixpoint sliceTo (i : nat) (s : string) : string :=
  match i, s with
  | S i', String c s' => String c (sliceTo i' s')
  | _, _ => EmptyString
  end.

(** [s.slice(i)]: what follows the first [i] code units, empty when [s] is
    shorter. *)
Fixpoint sliceFrom (i : nat) (s : string) : string :=
  match i, s with
  | S i', String _ s' => sliceFrom i' s'
  | _, _ => s
  end.

(** [w.slice(0, i) + "*" + w.slice(i + 1)] *)
Definition patternKey (w : string) (i : nat) : string :=
  sliceTo i w +:+ "*" +:+ sliceFrom (i + 1) w.

(** ** Sets in insertion order *)

Definition set_has (s : list string) (x : string) : bool := bool_decide (x ∈ s).

Definition set_add (s : list string) (x : string) : list string :=
  if set_has s x then s else s ++ [x].

Definition set_delete (s : list string) (x : string) : list string :=
  filter (λ y, y ≠ x) s.

(** ** The [words] memo

    [tokens] is the array that [wordListText.split(/\r?\n|,|\s+/)] returns. *)
Definition words (tokens : list string) (endWord : string) : list string :=
  let set :=
    foldl set_add []
      (filter (λ w, w ≠ EmptyString) ((λ w, toLowerCase (trim w)) <$> tokens)) in
  if negb (set_has set (toLowerCase endWord))
  then set_add set (toLowerCase endWord)
  else set.

Definition wordLen (beginWord : string) : nat := String.length beginWord.

(** ** The neighbor index *)

(** [(buckets[key] ||= []).push(w)] *)
Definition bucketPush (buckets : gmap string (list string)) (key w : string)
  : gmap string (list string) :=
  <[key := default [] (buckets !! key) ++ [w]]> buckets.

(** [for (let i = 0; i < wordLen; i++) (buckets[key_i] ||= []).push(w)] *)
Definition bucketWord (len : nat) (buckets : gmap string (list string)) (w : string)
  : gmap string (list string) :=
  foldl (λ b i, bucketPush b (patternKey w i) w) buckets (seq 0 len).

Definition patternBuckets (words : list string) (beginWord : string)
  : gmap string (list string) :=
  let len := wordLen beginWord in
  let buckets :=
    foldl (λ b w, if decide (String.length w ≠ len) then b else bucketWord len b w)
          ∅ words in
  if decide (String.length beginWord = len)
  then bucketWord len buckets (toLowerCase beginWord)
  else buckets.

Definition getNeighbors (words : list string) (beginWord : string) (w : string)
  : list string :=
  foldl (λ res i,
           let arr := default [] (patternBuckets words beginWord !! patternKey w i) in
           foldl (λ res v,
                    if decide (v ≠ w ∧ String.length v = String.length w)
                    then set_add res v else res)
                 res arr)
        [] (seq 0 (wordLen beginWord)).

(** ** Outcomes of a computation *)

Inductive outcome (A : Type) : Type :=
| Returned (a : A)
| Thrown
| OutOfFuel.
Global Arguments Returned {A} a.
Global Arguments Thrown {A}.
Global Arguments OutOfFuel {A}.

Global Instance outcome_bind : MBind outcome := λ A B f m,
  match m with
  | Returned a => f a
  | Thrown => Thrown
  | OutOfFuel => OutOfFuel
  end.

Global Instance outcome_fmap : FMap outcome := λ A B f m,
  match m with
  | Returned a => Returned (f a)
  | Thrown => Thrown
  | OutOfFuel => OutOfFuel
  end.

(** [for (const x of l) body], on the state [st]; what [body] throws ends
    the loop. *)
Fixpoint forEach {A S : Type} (body : S → A → outcome S) (st : S) (l : list A)
  : outcome S :=
  match l with
  | [] => Returned st
  | x :: l' => st' ← body st x; forEach body st' l'
  end.

(** ** Plain objects as dictionaries *)

(** The property names of [Object.prototype]. *)
Definition inheritedNames : list string :=
  ["constructor"; "__proto__"; "hasOwnProperty"; "isPrototypeOf";
   "propertyIsEnumerable"; "toLocaleString"; "toString"; "valueOf";
   "__defineGetter__"; "__defineSetter__"; "__lookupGetter__"; "__lookupSetter__"].

Definition inheritedName (k : string) : bool := bool_decide (k ∈ inheritedNames).

(** What [o[k]] is, for a plain object [o] whose own properties are sets:
    the set of the own property [k]; else what [Object.prototype] has under
    that name, a function or an object, which is truthy, has no method [add]
    and is not iterable; else [undefined]. *)
Inductive property : Type :=
| OwnSet (s : list string)
| Inherited
| Undefined.

Definition getProp (o : gmap string (list string)) (k : string) : property :=
  match o !! k with
  | Some s => OwnSet s
  | None => if inheritedName k then Inherited else Undefined
  end.

(** ** The layered search *)

Record BFSFrame := mkFrame {
  level : nat;
  frontier : list string;
  nextFrontier : list string;
  visitedSnapshot : list string;
  parentsSnapshot : gmap string (list string);
  found : bool
}.

(** The body of the two nested [for] loops, for one neighbor [nei] of [node]:
    the state is the pair of [parents] and the set [next].  If [parents[nei]]
    is falsy it is set to a new set; then [parents[nei].add(node)] is called,
    which throws if what is read is not a set. *)
Definition discover (visited : list string) (node : string)
    (st : gmap string (list string) * list string) (nei : string)
  : outcome (gmap string (list string) * list string) :=
  if negb (set_has visited nei)
  then
    match getProp st.1 nei with
    | OwnSet ps => Returned (<[nei := set_add ps node]> st.1, set_add st.2 nei)
    | Undefined => Returned (<[nei := set_add [] node]> st.1, set_add st.2 nei)
    | Inherited => Thrown
    end
  else Returned st.

Definition expandLevel (neighbors : string → list string) (visited : list string)
    (parents : gmap string (list string)) (frontier : list string)
  : outcome (gmap string (list string) * list string) :=
  forEach (λ st node, forEach (discover visited node) st (neighbors node))
          (parents, []) frontier.

(** The [while (frontier.length && !found)] loop.  [found] is set only together
    with [break], so the loop is left either there or on an empty frontier.
    The result lists the frames pushed onto [out] from this iteration on. *)
Fixpoint bfsLoop (fuel : nat) (neighbors : string → list string) (tgt : string)
    (visited : list string) (parents : gmap string (list string))
    (frontier : list string) (lvl : nat) : outcome (list BFSFrame) :=
  match frontier with
  | [] => Returned []
  | _ :: _ =>
    match fuel with
    | 0 => OutOfFuel
    | S fuel' =>
      st ← expandLevel neighbors visited parents frontier;
      let nextArr := st.2 in
      let visited' := foldl set_add visited nextArr in
      let frame :=
        {| level := lvl;
           frontier := frontier;
           nextFrontier := nextArr;
           visitedSnapshot := visited';
           parentsSnapshot := st.1;
           found := bool_decide (tgt ∈ nextArr) |} in
      if bool_decide (tgt ∈ nextArr)
      then Returned [frame]
      else (frame ::.) <$> bfsLoop fuel' neighbors tgt visited' st.1 nextArr (lvl + 1)
    end
  end.

Definition framesFuel (fuel : nat) (beginWord endWord : string) (words : list string)
  : outcome (list BFSFrame) :=
  let src := toLowerCase beginWord in
  let tgt := toLowerCase endWord in
  if decide (String.length src ≠ String.length tgt) then Returned []
  else bfsLoop fuel (getNeighbors words beginWord) tgt [src] ∅ [src] 0.

(** Every iteration but the last marks a word of the list as visited, so one
    more iteration than there are words is enough. *)
Definition frames (beginWord endWord : string) (words : list string)
  : outcome (list BFSFrame) :=
  framesFuel (S (length words)) beginWord endWord words.

(** ** Reconstruction of the ladders *)

Definition finalParents (frames : list BFSFrame) : gmap string (list string) :=
  match last frames with
  | None => ∅
  | Some f => parentsSnapshot f
  end.

(** The mutable state that [dfs] works on: the array [path], the set
    [visiting] and the result array [res]. *)
Record DfsState := mkDfs {
  path : list string;
  visiting : list string;
  res : list (list string)
}.

(** One turn of [for (const p of ps)]; [dfs] is the recursive call. *)
Definition tryParent (dfs : string → DfsState → outcome DfsState)
    (st : DfsState) (p : string) : outcome DfsState :=
  if set_has (visiting st) p then Returned st
  else
    st' ← dfs p (mkDfs (path st ++ [p]) (set_add (visiting st) p) (res st));
    Returned (mkDfs (removelast (path st')) (set_delete (visiting st') p) (res st')).

(** [if (!ps) return] lets everything truthy through, and [for ... of]
    throws on what is not iterable. *)
Fixpoint dfs (fuel : nat) (finalParents : gmap string (list string)) (src : string)
    (w : string) (st : DfsState) : outcome DfsState :=
  match fuel with
  | 0 => OutOfFuel
  | S fuel' =>
    if decide (w = src)
    then Returned (mkDfs (path st) (visiting st) (res st ++ [reverse (path st)]))
    else
      match getProp finalParents w with
      | Undefined => Returned st
      | OwnSet ps => forEach (tryParent (dfs fuel' finalParents src)) st ps
      | Inherited => Thrown
      end
  end.

(** [a.join("->")] *)
Definition join (a : list string) : string := String.concat "->" a.

(** [a.localeCompare(b)] compares by the collation of the host's locale.
    It is modelled by the order of the code units.  That is how a collation
    which takes the letters one by one in the order of the alphabet, as that
    of English does, orders two joined paths of the same shape whose words
    are written in the letters a to z ([lowerLetters]); on other strings the
    two may differ, and what is stated of the order of the path list is
    stated for such words. *)
Definition localeCompare (a b : string) : comparison := String.compare a b.

Definition pathCompare (a b : list string) : comparison :=
  localeCompare (join a) (join b).

(** [Array.prototype.sort] is stable: a straight insertion, each element going
    behind the ones that do not compare greater. *)
Fixpoint sortInsert {A} (cmp : A → A → comparison) (x : A) (l : list A) : list A :=
  match l with
  | [] => [x]
  | y :: l' =>
    match cmp x y with
    | Lt => x :: y :: l'
    | _ => y :: sortInsert cmp x l'
    end
  end.

Definition sort {A} (cmp : A → A → comparison) (l : list A) : list A :=
  foldl (λ acc x, sortInsert cmp x acc) [] l.

(** The parents that the map records, with repetitions: no word enters
    [visiting] that is not among them. *)
Definition parentWords (finalParents : gmap string (list string)) : list string :=
  (map_to_list finalParents) ≫= snd.

Definition allPathsFuel (fuel : nat) (finalParents : gmap string (list string))
    (beginWord endWord : string) : outcome (list (list string)) :=
  let src := toLowerCase beginWord in
  let tgt := toLowerCase endWord in
  match getProp finalParents tgt with
  | Undefined => Returned []
  | _ =>
    st ← dfs fuel finalParents src tgt (mkDfs [tgt] (set_add [] tgt) []);
    Returned (sort pathCompare (res st))
  end.

Definition allPaths (finalParents : gmap string (list string))
    (beginWord endWord : string) : outcome (list (list string)) :=
  allPathsFuel (S (length (parentWords finalParents))) finalParents beginWord endWord.

(** The path list for a given word array, and for the text of the panel. *)
Definition pathList (beginWord endWord : string) (words : list string)
  : outcome (list (list string)) :=
  fs ← frames beginWord endWord words;
  allPaths (finalParents fs) beginWord endWord.

Definition ladders (beginWord endWord : string) (tokens : list string)
  : outcome (list (list string)) :=
  pathList beginWord endWord (words tokens endWord).

(** ** What the specification calls a transformation sequence *)

(** The number of positions at which two words differ (over the shorter one). *)
Fixpoint hamming (a b : string) : nat :=
  match a, b with
  | String c a', String d b' => (if decide (c = d) then 0 else 1) + hamming a' b'
  | _, _ => 0
  end.

(** One step of a ladder changes exactly one letter. *)
Definition oneLetterApart (a b : string) : Prop :=
  String.length a = String.length b ∧ hamming a b = 1.

Global Instance oneLetterApart_dec a b : Decision (oneLetterApart a b).
Proof. unfold oneLetterApart. apply _. Defined.

(** The wildcard marker does not occur in the word. *)
Fixpoint starFree (s : string) : bool :=
  match s with
  | EmptyString => true
  | String c s' => negb (bool_decide (c = "*"%char)) && starFree s'
  end.



(** Consecutive words of [p] are related by [R]. *)
Fixpoint chained (R : string → string → Prop) (p : list string) : Prop :=
  match p with
  | x :: (y :: _) as p' => R x y ∧ chained R p'
  | _ => True
  end.

(** How often [x] occurs in the array [l]. *)
Definition occ (x : string) (l : list string) : nat :=
  length (filter (λ y, y = x) l).

(** The positions below [len] whose pattern of [w] is [key]. *)
Definition keyHits (w : string) (len : nat) (key : string) : list nat :=
  filter (λ i, patternKey w i = key) (seq 0 len).

(** The words that the index holds: those of the list that have the length
    of the begin word, and the begin word. *)
Definition inPool (ws : list string) (beginWord v : string) : Prop :=
  (v ∈ ws ∧ String.length v = wordLen beginWord) ∨ v = toLowerCase beginWord.

(** ** The graph that the search explores

    [neighbors u] lists the words one step away from [u]; [reach k v] says
    that [k] steps lead from [src] to [v], [lev k v] that no fewer do. *)
Section graph.
Context (neighbors : string → list string) (src : string).

Fixpoint reach (k : nat) (v : string) : Prop :=
  match k with
  | 0 => v = src
  | S k' => ∃ u, reach k' u ∧ v ∈ neighbors u
  end.

Definition lev (k : nat) (v : string) : Prop :=
  reach k v ∧ ∀ j, j < k → ¬ reach j v.
End graph.

(** Every recorded parent set is duplicate-free. *)
Definition parentSets (parents : gmap string (list string)) : Prop :=
  ∀ v ps, parents !! v = Some ps → NoDup ps.

(** What the loops over a frontier do to the pair of [parents] and [next]:
    [st'] is [st] with the edges [E] added that lead to unvisited words. *)
Definition extended (visited : list string) (E : string → string → Prop)
    (st st' : gmap string (list string) * list string) : Prop :=
  (∀ v, v ∈ st'.2 ↔ v ∈ st.2 ∨ (v ∉ visited ∧ (∃ p, E p v)))
  ∧ (∀ v p, p ∈ default [] (st'.1 !! v)
            ↔ p ∈ default [] (st.1 !! v) ∨ (v ∉ visited ∧ E p v))
  ∧ (∀ v, is_Some (st'.1 !! v) ↔ is_Some (st.1 !! v) ∨ (v ∉ visited ∧ (∃ p, E p v)))
  ∧ (NoDup st.2 → NoDup st'.2)
  ∧ (parentSets st.1 → parentSets st'.1).

(** No own property of the map goes by a name of [Object.prototype]. *)
Definition cleanKeys (par : gmap string (list string)) : Prop :=
  ∀ k, is_Some (par !! k) → ¬ inheritedName k.

(** Every recorded parent is the begin word or has an entry of its own. *)
Definition closedParents (par : gmap string (list string)) (src : string) : Prop :=
  ∀ w ps p, par !! w = Some ps → p ∈ ps → p = src ∨ is_Some (par !! p).

(** ** The invariant of the search

    At the start of the iteration for level [k]: the visited words are those
    within [k] steps, the frontier holds the words exactly [k] steps away, and
    [parents] records, for every word of a level from 1 to [k], its
    predecessors on the level before. *)
Section invariant.
Context (neighbors : string → list string) (src : string).

Definition visitedOk (k : nat) (vis : list string) : Prop :=
  (∀ v, v ∈ vis ↔ ∃ j, j ≤ k ∧ reach neighbors src j v) ∧ NoDup vis.

Definition frontierOk (k : nat) (fr : list string) : Prop :=
  (∀ v, v ∈ fr ↔ lev neighbors src k v) ∧ NoDup fr.

Definition parentsOk (k : nat) (par : gmap string (list string)) : Prop :=
  (∀ v p, p ∈ default [] (par !! v)
          ↔ ∃ j, j < k ∧ lev neighbors src j p ∧ lev neighbors src (S j) v
                 ∧ v ∈ neighbors p)
  ∧ (∀ v, is_Some (par !! v) ↔ ∃ j, 1 ≤ j ≤ k ∧ lev neighbors src j v)
  ∧ parentSets par.

(** No word of a level from 1 to [k] goes by a name of [Object.prototype]. *)
Definition cleanLevels (k : nat) : Prop :=
  ∀ j v, 1 ≤ j ≤ k → lev neighbors src j v → ¬ inheritedName v.

(** The search returns with frame number [k] as its last: up to the level
    that this frame discovers no word has an inherited name, that level
    holds the end word or nothing, and the levels before it hold some word
    but not the end word. *)
Definition stopsAt (tgt : string) (k : nat) : Prop :=
  cleanLevels (S k)
  ∧ (lev neighbors src (S k) tgt ∨ ∀ v, ¬ lev neighbors src (S k) v)
  ∧ ∀ j, j < k → ¬ lev neighbors src (S j) tgt ∧ ∃ v, lev neighbors src (S j) v.

(** The search throws while it makes frame number [k]: the level that
    this frame would discover holds a word with an inherited name, and the
    levels before it hold some word but not the end word. *)
Definition throwsAt (tgt : string) (k : nat) : Prop :=
  (∃ v, lev neighbors src (S k) v ∧ inheritedName v)
  ∧ ∀ j, j < k → ¬ lev neighbors src (S j) tgt ∧ ∃ v, lev neighbors src (S j) v.

(** What frame number [i] holds. *)
Definition frameOk (tgt : string) (i : nat) (f : BFSFrame) : Prop :=
  level f = i
  ∧ frontierOk i (frontier f)
  ∧ frontierOk (S i) (nextFrontier f)
  ∧ visitedOk (S i) (visitedSnapshot f)
  ∧ parentsOk (S i) (parentsSnapshot f)
  ∧ found f = bool_decide (tgt ∈ nextFrontier f).
End invariant.

(** How consecutive frames hang together: each level expands what the level
    before discovered, and marks its own discoveries as visited only once it
    is through. *)
Fixpoint linked (vis fr : list string) (fs : list BFSFrame) : Prop :=
  match fs with
  | [] => True
  | f :: fs' =>
    frontier f = fr
    ∧ visitedSnapshot f = vis ++ nextFrontier f
    ∧ linked (visitedSnapshot f) (nextFrontier f) fs'
  end.

(** ** Backtracking

    [chain par src vis w c]: from [w], the words [c] lead back to [src], each
    a recorded parent of the one before and none of them in [vis] or met
    earlier on the way. *)
Inductive chain (par : gmap string (list string)) (src : string)
  : list string → string → list string → Prop :=
| chain_done vis : chain par src vis src []
| chain_step vis w ps p c :
    w ≠ src → par !! w = Some ps → p ∈ ps → p ∉ vis →
    chain par src (vis ++ [p]) p c →
    chain par src vis w (p :: c).

(** [descent j w c]: the words [c] lead from [w], on level [j], down the
    levels to the begin word, one level a step. *)
Fixpoint descent (neighbors : string → list string) (src : string)
    (j : nat) (w : string) (c : list string) : Prop :=
  match j, c with
  | 0, [] => w = src
  | S j', p :: c' =>
    lev neighbors src j' p ∧ lev neighbors src j w ∧ w ∈ neighbors p
    ∧ descent neighbors src j' p c'
  | _, _ => False
  end.

(** The order that a comparison function stands for. *)
Definition cmpLe {A} (cmp : A → A → comparison) (a b : A) : Prop := cmp a b ≠ Gt.


(** ** Transformation sequences

    A sequence of words from [b] to [e], each step changing exactly one
    letter, every intermediate word taken from the dictionary. *)
Definition interior (p : list string) : list string := removelast (tail p).

Definition transformation (dict : list string) (b e : string) (p : list string) : Prop :=
  head p = Some b ∧ last p = Some e
  ∧ chained oneLetterApart p
  ∧ Forall (λ w, w ∈ dict) (interior p).

Definition shortestTransformation (dict : list string) (b e : string)
    (p : list string) : Prop :=
  transformation dict b e p
  ∧ ∀ p', transformation dict b e p' → length p ≤ length p'.

(** The visited set at the start of the iteration that makes frame [i]. *)
Definition visitedBefore (src : string) (fs : list BFSFrame) (i : nat) : list string :=
  match i with
  | 0 => [src]
  | S i' => from_option visitedSnapshot [] (fs !! i')
  end.


(** Closed, decidable goals are settled by evaluation. *)
Ltac by_evaluation :=
  match goal with |- ?P => apply (bool_decide_unpack P); vm_compute; exact I end.


(** ** What the panel shows of the result *)

(** [frames.length > 0 && frames[frames.length - 1].found] *)
Definition solved (frames : list BFSFrame) : bool :=
  match last frames with
  | None => false
  | Some f => found f
  end.

(** ** The graph of the panel: columns

    [step] is the index of the frame on show, a number.  The numbers of the
    layout are integers well inside the range in which floating-point
    arithmetic is exact; they are modelled as [Z]. *)

(** [frames[step]], [undefined] outside the array. *)
Definition current (frames : list BFSFrame) (step : Z) : option BFSFrame :=
  if (step <? 0)%Z then None else frames !! Z.to_nat step.

(** One turn of [for (let i = 0; i <= step; i++)]: beyond the last frame
    [frames[i]] is [undefined], and reading [f.nextFrontier] throws. *)
Definition columnsTurn (frames : list BFSFrame) (len : nat)
    (cols : list (list string)) (i : nat) : outcome (list (list string)) :=
  match frames !! i with
  | None => Thrown
  | Some f =>
    let next := filter (λ w, String.length w = len) (nextFrontier f) in
    Returned (if decide (next = []) then cols else cols ++ [next])
  end.

Definition columns (frames : list BFSFrame) (step : Z) (beginWord : string)
  : outcome (list (list string)) :=
  match frames with
  | [] => Returned []
  | _ :: _ =>
    forEach (columnsTurn frames (String.length beginWord))
            [[toLowerCase beginWord]] (seq 0 (Z.to_nat (step + 1)))
  end.

(** ** Playback

    The state that the controls work on, the condition under which each
    control is live (the [disabled] attribute of a button, the guard of the
    effect that arms the timer), and what its handler does.  [n] is
    [frames.length]. *)
Record Playback := mkPlayback { step : Z; isPlaying : bool }.

Inductive Control := PlayPause | StepBack | StepForward | ResetClick | TimerFired.

Definition live (n : nat) (st : Playback) (c : Control) : bool :=
  match c with
  | PlayPause | ResetClick => negb (n =? 0)
  | StepBack => negb ((n =? 0) || (step st =? 0)%Z)
  | StepForward => negb ((n =? 0) || (Z.of_nat n - 1 <=? step st)%Z)
  | TimerFired => isPlaying st && negb (Z.of_nat n - 1 <=? step st)%Z
  end.

Definition handler (n : nat) (st : Playback) (c : Control) : Playback :=
  match c with
  | PlayPause => mkPlayback (step st) (negb (isPlaying st))
  | StepBack => mkPlayback (Z.max 0 (step st - 1)) (isPlaying st)
  | StepForward => mkPlayback (Z.min (Z.of_nat n - 1) (step st + 1)) (isPlaying st)
  | ResetClick => mkPlayback 0 false
  | TimerFired => mkPlayback (Z.min (step st + 1) (Z.of_nat n - 1)) (isPlaying st)
  end.

(** The effect on [isPlaying] and [step]: playing stops on the last frame. *)
Definition settle (n : nat) (st : Playback) : Playback :=
  if isPlaying st && (Z.of_nat n - 1 <=? step st)%Z
  then mkPlayback (step st) false
  else st.

Definition control (n : nat) (st : Playback) (c : Control) : Playback :=
  settle n (if live n st c then handler n st c else st).

(** ** The graph of the panel: positions *)

Module Layout.

Record Point := mkPoint { x : Z; y : Z }.

(** [{ key: fromKey, ...from }] *)
Record Endpoint := mkEndpoint { key : string; point : Point }.

Record Edge := mkEdge { from : Endpoint; to : Endpoint }.

Definition spacingX : Z := 200.
Definition spacingY : Z := 56.
Definition startX : Z := 120.
Definition startY : Z := 100.

End Layout.

(** The template literal [`${w}@${ci}`]. *)
Definition nodeKey (w : string) (ci : nat) : string := w +:+ "@" +:+ pretty ci.

(** The inner [col.forEach((w, ri) => ...)]. *)
Definition placeColumn (ci : nat) (col : list string)
    (pos : gmap string Layout.Point) : gmap string Layout.Point :=
  let height := ((Z.of_nat (length col) - 1) * Layout.spacingY)%Z in
  let baseY := (Layout.startY - height / 2)%Z in
  foldl (λ pos '(ri, w),
           <[nodeKey w ci :=
               Layout.mkPoint (Layout.startX + Z.of_nat ci * Layout.spacingX)
                              (baseY + Z.of_nat ri * Layout.spacingY)]> pos)
        pos (imap pair col).

(** [positions.pos]: its keys hold the sign [@], which no name of
    [Object.prototype] does, so reading it is reading an own property. *)
Definition positions (columns : list (list string)) : gmap string Layout.Point :=
  foldl (λ pos '(ci, col), placeColumn ci col pos) ∅ (imap pair columns).

(** The size of the canvas of [Graph], from [Object.values(positions)];
    maxima do not depend on the order of the values.  ([minY] is computed and
    not used.) *)
Definition canvasOf (values : list Layout.Point) : Z * Z :=
  let '(maxX, maxY) :=
    foldl (λ '(maxX, maxY) p, (Z.max maxX (Layout.x p), Z.max maxY (Layout.y p)))
          (0%Z, 0%Z) values in
  let bottomPadding := 80%Z in
  ((maxX + 160)%Z, Z.max 300 (maxY + bottomPadding)).

Definition canvas (positions : gmap string Layout.Point) : Z * Z :=
  canvasOf (map_to_list positions).*2.

(** ** The graph of the panel: edges *)

(** What [o[k]] is, for a plain object [o] with own properties of any one
    kind: as [getProp]. *)
Inductive slot (A : Type) : Type :=
| OwnValue (a : A)
| InheritedValue
| NoValue.
Global Arguments OwnValue {A} a.
Global Arguments InheritedValue {A}.
Global Arguments NoValue {A}.

Definition getSlot {A} (o : gmap string A) (k : string) : slot A :=
  match o !! k with
  | Some a => OwnValue a
  | None => if inheritedName k then InheritedValue else NoValue
  end.

(** [(wordCols[w] ||= []).push(ci)]: what [Object.prototype] has under the
    name [w] is truthy and has no method [push]. *)
Definition wordColsPush (ci : nat) (wordCols : gmap string (list nat)) (w : string)
  : outcome (gmap string (list nat)) :=
  match getSlot wordCols w with
  | OwnValue cs => Returned (<[w := cs ++ [ci]]> wordCols)
  | NoValue => Returned (<[w := [ci]]> wordCols)
  | InheritedValue => Thrown
  end.

(** The map from a word to the indices of the columns that hold it. *)
Definition wordColsOf (columns : list (list string)) : outcome (gmap string (list nat)) :=
  forEach (λ wordCols '(ci, col), forEach (wordColsPush ci) wordCols col)
          ∅ (imap pair columns).

(** [(wordCols[parent] || []).filter((x) => x < ci).pop()]; what is
    inherited has no method [filter]. *)
Definition parentColumn (wordCols : gmap string (list nat)) (parent : string) (ci : nat)
  : outcome (option nat) :=
  match getSlot wordCols parent with
  | OwnValue cs => Returned (last (filter (λ x, x < ci) cs))
  | NoValue => Returned None
  | InheritedValue => Thrown
  end.

(** The body of [for (const parent of parentsSet)]; [edgeList] is the array
    [list]. *)
Definition edgeTurn (positions : gmap string Layout.Point)
    (wordCols : gmap string (list nat)) (child : string) (ci : nat)
    (edgeList : list Layout.Edge) (parent : string) : outcome (list Layout.Edge) :=
  pi ← parentColumn wordCols parent ci;
  match pi with
  | None => Returned edgeList
  | Some pi =>
    let fromKey := nodeKey parent pi in
    let toKey := nodeKey child ci in
    match positions !! fromKey, positions !! toKey with
    | Some from, Some to =>
      Returned (edgeList ++ [Layout.mkEdge (Layout.mkEndpoint fromKey from)
                                           (Layout.mkEndpoint toKey to)])
    | _, _ => Returned edgeList
    end
  end.

(** The body of [for (const [child, parentsSet] of Object.entries(ps))];
    what is inherited is truthy and not iterable. *)
Definition edgesOfChild (positions : gmap string Layout.Point)
    (wordCols : gmap string (list nat)) (edgeList : list Layout.Edge)
    (entry : string * list string) : outcome (list Layout.Edge) :=
  let '(child, parentsSet) := entry in
  match getSlot wordCols child with
  | NoValue => Returned edgeList
  | InheritedValue => Thrown
  | OwnValue childCols =>
    forEach (λ edgeList ci,
               forEach (edgeTurn positions wordCols child ci) edgeList parentsSet)
            edgeList childCols
  end.

(** The [edges] memo; [entries] is the array that
    [Object.entries(current?.parentsSnapshot || {})] returns. *)
Definition edges (columns : list (list string)) (positions : gmap string Layout.Point)
    (entries : list (string * list string)) : outcome (list Layout.Edge) :=
  match columns with
  | [] => Returned []
  | _ :: _ =>
    wordCols ← wordColsOf columns;
    forEach (edgesOfChild positions wordCols) [] entries
  end.

(** The entries of the parents snapshot on show, in some order. *)
Definition shownEntries (frames : list BFSFrame) (step : Z)
    (entries : list (string * list string)) : Prop :=
  entries ≡ₚ map_to_list (from_option parentsSnapshot ∅ (current frames step)).

(** The edge from [parent] in column [j] to [child] in the next column. *)
Definition drawn (positions : gmap string Layout.Point) (parent child : string) (j : nat)
  : Layout.Edge :=
  let origin := Layout.mkPoint 0 0 in
  Layout.mkEdge
    (Layout.mkEndpoint (nodeKey parent j) (default origin (positions !! nodeKey parent j)))
    (Layout.mkEndpoint (nodeKey child (S j))
       (default origin (positions !! nodeKey child (S j)))).

(** ** What the panel shows of the paths

    [solved ? allPaths : []].  The component computes it at the end of a
    render, behind the memos [frames], [allPaths], [columns], [positions] and
    [edges], in this order; the [allPaths] memo is computed whether the panel
    shows it or not, and what any of the memos throws ends the render.
    [step] is the state of that name and [entries] the array that
    [Object.entries] hands to [edges]. *)
Definition visiblePaths (beginWord endWord : string) (words : list string)
    (step : Z) (entries : list (string * list string))
  : outcome (list (list string)) :=
  fs ← frames beginWord endWord words;
  allPaths ← allPaths (finalParents fs) beginWord endWord;
  columns ← columns fs step beginWord;
  _ ← edges columns (positions columns) entries;
  Returned (if solved fs then allPaths else []).
(** ** Strings: lemmas *)

Section strings.
Implicit Types (a b s w v : string) (c d : ascii) (i j : nat).

Lemma length_toLowerCase s : String.length (toLowerCase s) = String.length s.
Proof. induction s; simpl; congruence. Qed.

Lemma patternKey_nil i : patternKey "" i = "*".
Proof. by destruct i. Qed.

Lemma patternKey_0 c s : patternKey (String c s) 0 = String "*" s.
Proof. unfold patternKey. simpl. by destruct s. Qed.

Lemma patternKey_S c s i : patternKey (String c s) (S i) = String c (patternKey s i).
Proof. done. Qed.

Lemma hamming_refl a : hamming a a = 0.
Proof. induction a; simpl; [done|]. by rewrite decide_True. Qed.

Lemma hamming_0 a b : String.length a = String.length b → hamming a b = 0 → a = b.
Proof.
  revert b. induction a as [|c a IH]; intros [|d b]; simpl; try done.
  intros [=Hlen] H. case_decide; [|lia]. f_equal; auto.
Qed.

(** Two words of one length that share the pattern of one position differ
    there or nowhere. *)
Lemma patternKey_same_pos a b i :
  String.length a = String.length b → i < String.length a →
  patternKey a i = patternKey b i → a ≠ b → hamming a b = 1.
Proof.
  revert b i. induction a as [|c a IH]; intros [|d b] i; simpl; try done; try lia.
  intros [=Hlen] Hi. destruct i as [|i].
  - rewrite !patternKey_0. intros [= ->] Hne.
    rewrite hamming_refl. case_decide; [congruence|done].
  - rewrite !patternKey_S. intros [= -> Hk] Hne.
    rewrite decide_True by done. simpl. apply (IH b i); [done|lia|done|congruence].
Qed.

Lemma hamming_1_patternKey a b :
  String.length a = String.length b → hamming a b = 1 →
  ∃ i, i < String.length a ∧ patternKey a i = patternKey b i.
Proof.
  revert b. induction a as [|c a IH]; intros [|d b]; simpl; try done.
  intros [=Hlen] H. case_decide as Hc.
  - subst d. destruct (IH b Hlen H) as (i & Hi & Hk).
    exists (S i). split; [lia|]. by rewrite !patternKey_S, Hk.
  - exists 0. split; [lia|]. rewrite !patternKey_0.
    f_equal. apply hamming_0; [done|lia].
Qed.

Lemma hamming_1_ne a b : hamming a b = 1 → a ≠ b.
Proof. intros H ->. rewrite hamming_refl in H. done. Qed.

(** A pattern of a star-free word has its only star at the position it
    was made for. *)
Lemma patternKey_starFree a b i j :
  starFree a → starFree b →
  i < String.length a → j < String.length b →
  patternKey a i = patternKey b j → i = j.
Proof.
  revert b i j. induction a as [|c a IH]; intros [|d b] i j; simpl; try lia.
  intros [Hc Ha]%andb_prop_elim [Hd Hb]%andb_prop_elim Hi Hj.
  apply negb_prop_elim in Hc, Hd. rewrite bool_decide_spec in Hc, Hd.
  destruct i as [|i], j as [|j]; rewrite ?patternKey_0, ?patternKey_S; try done.
  - intros [= <- _]. done.
  - intros [= -> _]. done.
  - intros [= _ Hk]. f_equal. apply (IH b); auto with lia.
Qed.
End strings.

(** ** Insertion-ordered sets: lemmas *)

(** A predicate that holds of fewer elements leaves a shorter list. *)
Lemma length_filter_lt_strict {A} (P Q : A → Prop)
    `{!∀ a, Decision (P a)} `{!∀ a, Decision (Q a)} (l : list A) (x : A) :
  (∀ y, Q y → P y) → x ∈ l → P x → ¬ Q x →
  length (filter Q l) < length (filter P l).
Proof.
  intros HQP Hx HPx HQx.
  assert (∀ l, length (filter Q l) ≤ length (filter P l)) as Hle.
  { clear -HQP. induction l as [|y l IH]; [done|]. rewrite !filter_cons.
    repeat case_decide; simpl; try lia. naive_solver. }
  induction l as [|y l IH]; [by apply elem_of_nil in Hx|].
  rewrite !filter_cons. apply elem_of_cons in Hx as [<-|Hx].
  - rewrite decide_False, decide_True by done. simpl. specialize (Hle l). lia.
  - specialize (IH Hx). repeat case_decide; simpl; try lia. naive_solver.
Qed.

(** A duplicate-free list with one possible member has one element. *)
Lemma NoDup_one {A} (l : list A) (a : A) :
  NoDup l → (∀ x, x ∈ l ↔ x = a) → l = [a].
Proof.
  intros Hnd Hl. destruct l as [|x [|y l]].
  - pose proof (proj2 (Hl a) eq_refl) as Ha. by apply elem_of_nil in Ha.
  - f_equal. apply Hl. left.
  - assert (x = a) as -> by (apply Hl; left).
    assert (y = a) as -> by (apply Hl; right; left).
    apply NoDup_cons in Hnd as [Hnd _]. destruct Hnd. left.
Qed.

Section sets.
Implicit Types (s l : list string) (x y : string).

Lemma set_has_true s x : set_has s x = true ↔ x ∈ s.
Proof. unfold set_has. by rewrite bool_decide_eq_true. Qed.

Lemma set_has_false s x : set_has s x = false ↔ x ∉ s.
Proof. unfold set_has. by rewrite bool_decide_eq_false. Qed.

Lemma set_add_old s x : x ∈ s → set_add s x = s.
Proof. intros H. unfold set_add. by rewrite (proj2 (set_has_true s x) H). Qed.

Lemma set_add_new s x : x ∉ s → set_add s x = s ++ [x].
Proof. intros H. unfold set_add. by rewrite (proj2 (set_has_false s x) H). Qed.

Lemma elem_of_set_add s x y : y ∈ set_add s x ↔ y ∈ s ∨ y = x.
Proof.
  destruct (decide (x ∈ s)) as [Hx|Hx].
  - rewrite set_add_old by done. naive_solver.
  - rewrite set_add_new by done. rewrite elem_of_app, list_elem_of_singleton. done.
Qed.

Lemma NoDup_set_add s x : NoDup s → NoDup (set_add s x).
Proof.
  intros Hs. destruct (decide (x ∈ s)) as [Hx|Hx].
  - by rewrite set_add_old.
  - rewrite set_add_new by done. apply NoDup_app. split_and!; [done| |apply NoDup_singleton].
    intros y Hy ->%list_elem_of_singleton. done.
Qed.

Lemma elem_of_foldl_set_add l s y : y ∈ foldl set_add s l ↔ y ∈ s ∨ y ∈ l.
Proof.
  revert s. induction l as [|x l IH]; intros s; simpl.
  - rewrite elem_of_nil. naive_solver.
  - rewrite IH, elem_of_set_add, elem_of_cons. naive_solver.
Qed.

Lemma NoDup_foldl_set_add l s : NoDup s → NoDup (foldl set_add s l).
Proof. revert s. induction l; simpl; auto using NoDup_set_add. Qed.

(** Adding fresh, pairwise different elements appends them. *)
Lemma foldl_set_add_fresh l s :
  NoDup l → (∀ x, x ∈ l → x ∉ s) → foldl set_add s l = s ++ l.
Proof.
  revert s. induction l as [|x l IH]; intros s Hl Hs; simpl.
  - by rewrite app_nil_r.
  - apply NoDup_cons in Hl as [Hx Hl].
    rewrite set_add_new by (apply Hs; left).
    rewrite IH; [by rewrite <-app_assoc|done|].
    intros y Hy [?| ->%list_elem_of_singleton]%elem_of_app; [|done].
    apply (Hs y); [by right|done].
Qed.

Lemma set_delete_add s x : x ∉ s → set_delete (set_add s x) x = s.
Proof.
  intros Hx. rewrite set_add_new by done. unfold set_delete.
  rewrite filter_app, filter_singleton_False by naive_solver.
  rewrite app_nil_r. induction s as [|y s IH]; [done|].
  apply not_elem_of_cons in Hx as [??].
  rewrite filter_cons_True by done. f_equal. auto.
Qed.

(** Adding, under a condition, the elements of an array to a set. *)
Lemma elem_of_foldl_cond_add (P : string → Prop) `{!∀ v, Decision (P v)} arr s y :
  y ∈ foldl (λ res v, if decide (P v) then set_add res v else res) s arr
  ↔ y ∈ s ∨ (y ∈ arr ∧ P y).
Proof.
  revert s. induction arr as [|x arr IH]; intros s; simpl.
  - rewrite elem_of_nil. naive_solver.
  - rewrite IH, elem_of_cons. case_decide; rewrite ?elem_of_set_add; naive_solver.
Qed.

Lemma NoDup_foldl_cond_add (P : string → Prop) `{!∀ v, Decision (P v)} arr s :
  NoDup s →
  NoDup (foldl (λ res v, if decide (P v) then set_add res v else res) s arr).
Proof.
  revert s. induction arr as [|x arr IH]; intros s Hs; simpl; [done|].
  apply IH. case_decide; auto using NoDup_set_add.
Qed.

Lemma occ_nil x : occ x [] = 0.
Proof. done. Qed.

Lemma occ_app x l1 l2 : occ x (l1 ++ l2) = occ x l1 + occ x l2.
Proof. unfold occ. by rewrite filter_app, length_app. Qed.

Lemma occ_cons x y l : occ x (y :: l) = (if decide (y = x) then 1 else 0) + occ x l.
Proof. unfold occ. rewrite filter_cons. by case_decide. Qed.

Lemma occ_pos x l : 0 < occ x l ↔ x ∈ l.
Proof.
  induction l as [|y l IH]; [rewrite occ_nil, elem_of_nil; lia|].
  rewrite occ_cons, elem_of_cons. case_decide; [naive_solver lia|].
  rewrite <-IH. naive_solver lia.
Qed.

Lemma occ_NoDup x l : NoDup l → x ∈ l → occ x l = 1.
Proof.
  induction 1 as [|y l Hy Hl IH]; [by intros ?%elem_of_nil|].
  rewrite occ_cons. intros [->|Hx]%elem_of_cons.
  - rewrite decide_True by done. destruct (occ_pos y l) as [H _].
    destruct (occ y l); [done|]. destruct Hy. apply H. lia.
  - rewrite decide_False by (intros ->; done). by rewrite IH.
Qed.

End sets.

(** ** Chained lists *)

Section chained.
Context (R : string → string → Prop).
Implicit Types (l : list string) (x y : string).

Lemma chained_snoc l x y : chained R (l ++ [x]) → R x y → chained R ((l ++ [x]) ++ [y]).
Proof.
  induction l as [|a [|b l] IH]; simpl in *; [naive_solver..|].
  intros [? ?] ?. split; [done|]. by apply IH.
Qed.

Lemma chained_reverse l : chained (λ a b, R b a) l → chained R (reverse l).
Proof.
  induction l as [|a [|b l] IH]; [done..|].
  intros [Hab Hl]. rewrite reverse_cons. specialize (IH Hl).
  rewrite reverse_cons in IH |- *. by apply chained_snoc.
Qed.

Lemma chained_tail x l : chained R (x :: l) → chained R l.
Proof. destruct l; simpl; naive_solver. Qed.
End chained.

Lemma chained_impl (R1 R2 : string → string → Prop) (l : list string) :
  (∀ x y, R1 x y → R2 x y) → chained R1 l → chained R2 l.
Proof.
  intros HR. induction l as [|a [|b l] IH]; simpl in *; [done..|]. naive_solver.
Qed.

(** ** The neighbor index: lemmas *)

Section index.
Implicit Types (b : gmap string (list string)) (w v k key : string).

Lemma length_filter_pos {A} (P : A → Prop) `{!∀ x, Decision (P x)} (l : list A) :
  0 < length (filter P l) ↔ ∃ x, x ∈ l ∧ P x.
Proof.
  induction l as [|y l IH]; simpl.
  - setoid_rewrite elem_of_nil. naive_solver lia.
  - rewrite filter_cons. setoid_rewrite elem_of_cons. case_decide; simpl.
    + naive_solver lia.
    + rewrite IH. naive_solver.
Qed.

Lemma bucketPush_occ b key w k v :
  occ v (default [] (bucketPush b key w !! k))
  = occ v (default [] (b !! k)) + (if decide (key = k ∧ w = v) then 1 else 0).
Proof.
  unfold bucketPush. destruct (decide (key = k)) as [->|Hk].
  - rewrite lookup_insert_eq. simpl. rewrite occ_app, occ_cons, occ_nil.
    repeat case_decide; naive_solver lia.
  - rewrite lookup_insert_ne by done. rewrite decide_False by naive_solver. lia.
Qed.

Lemma bucketPush_fold_occ (idx : list nat) b w k v :
  occ v (default [] (foldl (λ b i, bucketPush b (patternKey w i) w) b idx !! k))
  = occ v (default [] (b !! k))
    + (if decide (w = v) then length (filter (λ i, patternKey w i = k) idx) else 0).
Proof.
  revert b. induction idx as [|i idx IH]; intros b; simpl.
  - case_decide; simpl; lia.
  - rewrite IH, bucketPush_occ, filter_cons.
    repeat case_decide; simpl; naive_solver lia.
Qed.

Lemma bucketWord_occ len b w k v :
  occ v (default [] (bucketWord len b w !! k))
  = occ v (default [] (b !! k))
    + (if decide (w = v) then length (keyHits v len k) else 0).
Proof.
  unfold bucketWord, keyHits. rewrite bucketPush_fold_occ.
  case_decide; [by subst|done].
Qed.

Lemma bucketWords_occ len (ws : list string) b k v :
  occ v (default []
           (foldl (λ b w, if decide (String.length w ≠ len) then b
                          else bucketWord len b w) b ws !! k))
  = occ v (default [] (b !! k))
    + occ v (filter (λ w, String.length w = len) ws) * length (keyHits v len k).
Proof.
  revert b. induction ws as [|w ws IH]; intros b; simpl.
  - lia.
  - rewrite IH, filter_cons. destruct (decide (String.length w = len)) as [Hw|Hw].
    + rewrite decide_False by naive_solver.
      rewrite bucketWord_occ, occ_cons. case_decide; lia.
    + rewrite decide_True by done. lia.
Qed.

(** How often a word sits in a bucket: once for each time the word list
    offers it, once more if it is the begin word, and all that for each
    position whose pattern is the key of the bucket. *)
Lemma patternBuckets_occ (ws : list string) beginWord k v :
  occ v (default [] (patternBuckets ws beginWord !! k))
  = (occ v (filter (λ w, String.length w = wordLen beginWord) ws)
     + (if decide (toLowerCase beginWord = v) then 1 else 0))
    * length (keyHits v (wordLen beginWord) k).
Proof.
  unfold patternBuckets. rewrite decide_True by done.
  rewrite bucketWord_occ, bucketWords_occ, lookup_empty. simpl.
  change (occ v []) with 0. case_decide; lia.
Qed.

Lemma elem_of_patternBuckets (ws : list string) beginWord k v :
  v ∈ default [] (patternBuckets ws beginWord !! k)
  ↔ inPool ws beginWord v ∧ ∃ i, i < wordLen beginWord ∧ patternKey v i = k.
Proof.
  rewrite <-occ_pos, patternBuckets_occ. unfold inPool, keyHits.
  set (n := occ v _). set (hits := filter _ _).
  assert (0 < n ↔ v ∈ ws ∧ String.length v = wordLen beginWord) as Hn.
  { unfold n. rewrite occ_pos, list_elem_of_filter. naive_solver. }
  assert (0 < length hits ↔ ∃ i, i < wordLen beginWord ∧ patternKey v i = k) as Hh.
  { unfold hits. rewrite length_filter_pos. setoid_rewrite elem_of_seq.
    split; intros (i & ? & ?); exists i; split; (done || lia). }
  rewrite <-Hn, <-Hh. clearbody n. generalize (length hits). intros m.
  case_decide as Hv.
  - split; [intros ?; split; [|nia]|intros [_ ?]; nia].
    destruct (decide (0 < n)); [by left|right; done].
  - split; [intros ?; split; [left|]; nia|intros [[?|?] ?]; [nia|done]].
Qed.

(** ** [getNeighbors] *)

Lemma elem_of_getNeighbors (ws : list string) beginWord w v :
  v ∈ getNeighbors ws beginWord w
  ↔ v ≠ w ∧ String.length v = String.length w ∧ inPool ws beginWord v
    ∧ ∃ i j, i < wordLen beginWord ∧ j < wordLen beginWord
             ∧ patternKey w i = patternKey v j.
Proof.
  unfold getNeighbors.
  assert (∀ (idx : list nat) (s : list string),
    v ∈ foldl (λ res i,
                 let arr := default [] (patternBuckets ws beginWord !! patternKey w i) in
                 foldl (λ res v, if decide (v ≠ w ∧ String.length v = String.length w)
                                 then set_add res v else res) res arr) s idx
    ↔ v ∈ s ∨ ∃ i, i ∈ idx
                 ∧ v ∈ default [] (patternBuckets ws beginWord !! patternKey w i)
                 ∧ v ≠ w ∧ String.length v = String.length w) as Hfold.
  { induction idx as [|i idx IH]; intros s; simpl.
    - setoid_rewrite elem_of_nil. naive_solver.
    - rewrite IH, elem_of_foldl_cond_add. setoid_rewrite elem_of_cons. naive_solver. }
  rewrite Hfold, elem_of_nil. setoid_rewrite elem_of_patternBuckets.
  setoid_rewrite elem_of_seq. split.
  - intros [[]|(i & Hi & (Hp & j & Hj & Hk) & Hne & Hlen)].
    split_and!; [done..|]. exists i, j. split_and!; [lia|done|done].
  - intros (Hne & Hlen & Hp & i & j & Hi & Hj & Hk). right.
    exists i. split_and!; [lia..|done| |done|done]. eauto.
Qed.

Lemma NoDup_getNeighbors (ws : list string) beginWord w :
  NoDup (getNeighbors ws beginWord w).
Proof.
  unfold getNeighbors.
  assert (∀ (idx : list nat) (s : list string), NoDup s →
    NoDup (foldl (λ res i,
                 let arr := default [] (patternBuckets ws beginWord !! patternKey w i) in
                 foldl (λ res v, if decide (v ≠ w ∧ String.length v = String.length w)
                                 then set_add res v else res) res arr) s idx)) as Hfold.
  { induction idx as [|i idx IH]; intros s Hs; simpl; [done|].
    apply IH. by apply NoDup_foldl_cond_add. }
  apply Hfold. constructor.
Qed.
End index.

(** ** Outcomes and property reads: lemmas *)

Lemma fmap_Returned {A B} (f : A → B) (m : outcome A) b :
  f <$> m = Returned b ↔ ∃ a, m = Returned a ∧ b = f a.
Proof. destruct m; simpl; split; try naive_solver. Qed.

Lemma fmap_Thrown {A B} (f : A → B) (m : outcome A) : f <$> m = Thrown ↔ m = Thrown.
Proof. destruct m; simpl; naive_solver. Qed.

Lemma fmap_OutOfFuel {A B} (f : A → B) (m : outcome A) :
  f <$> m = OutOfFuel ↔ m = OutOfFuel.
Proof. destruct m; simpl; naive_solver. Qed.

Lemma getProp_Some (o : gmap string (list string)) k s :
  o !! k = Some s → getProp o k = OwnSet s.
Proof. unfold getProp. by intros ->. Qed.

Lemma getProp_OwnSet (o : gmap string (list string)) k s :
  getProp o k = OwnSet s ↔ o !! k = Some s.
Proof. unfold getProp. destruct (o !! k), (inheritedName k); naive_solver. Qed.

Lemma getProp_Inherited (o : gmap string (list string)) k :
  getProp o k = Inherited ↔ o !! k = None ∧ inheritedName k.
Proof.
  unfold getProp. destruct (o !! k), (inheritedName k); simpl; naive_solver.
Qed.

Lemma getProp_Undefined (o : gmap string (list string)) k :
  getProp o k = Undefined ↔ o !! k = None ∧ ¬ inheritedName k.
Proof.
  unfold getProp. destruct (o !! k), (inheritedName k); simpl; naive_solver.
Qed.

(** A pattern holds the wildcard marker and no name of [Object.prototype]
    does: the object [patternBuckets] is read at own properties only. *)
Lemma starFree_patternKey (w : string) (i : nat) : ¬ starFree (patternKey w i).
Proof.
  revert i. induction w as [|c w IH]; intros i.
  - rewrite patternKey_nil. simpl. tauto.
  - destruct i as [|i]; [rewrite patternKey_0|rewrite patternKey_S]; simpl.
    + tauto.
    + intros [_ ?]%andb_prop_elim. by eapply IH.
Qed.

Lemma patternKey_not_inherited (w : string) (i : nat) : ¬ inheritedName (patternKey w i).
Proof.
  intros H. apply (starFree_patternKey w i).
  unfold inheritedName in H. apply bool_decide_unpack in H.
  unfold inheritedNames in H.
  repeat (apply elem_of_cons in H as [->|H]; [done|]). by apply elem_of_nil in H.
Qed.

(** ** One level of the search: lemmas *)

Section expand.
Implicit Types (visited frontier : list string) (node nei : string).
Implicit Types (st : gmap string (list string) * list string).
Implicit Types (E : string → string → Prop).

Lemma extended_refl visited st : extended visited (λ _ _, False) st st.
Proof. unfold extended. naive_solver. Qed.

Lemma extended_trans visited E1 E2 st1 st2 st3 :
  extended visited E1 st1 st2 → extended visited E2 st2 st3 →
  extended visited (λ p v, E1 p v ∨ E2 p v) st1 st3.
Proof.
  intros (Ha1 & Ha2 & Ha3 & Ha4 & Ha5) (Hb1 & Hb2 & Hb3 & Hb4 & Hb5).
  split_and!; [| | |by auto|by auto].
  - intros v. rewrite Hb1, Ha1. naive_solver.
  - intros v p. rewrite Hb2, Ha2. naive_solver.
  - intros v. rewrite Hb3, Ha3. naive_solver.
Qed.

Lemma extended_iff visited E1 E2 st st' :
  (∀ p v, E1 p v ↔ E2 p v) → extended visited E1 st st' → extended visited E2 st st'.
Proof.
  intros HE (H1 & H2 & H3 & H4 & H5). split_and!; [| | |done|done].
  - intros v. rewrite H1. naive_solver.
  - intros v p. rewrite H2, HE. done.
  - intros v. rewrite H3. naive_solver.
Qed.

(** Recording [node] as a parent of the unvisited [nei]. *)
Lemma record_extended visited node st nei :
  nei ∉ visited →
  extended visited (λ p v, p = node ∧ v = nei) st
    (<[nei := set_add (default [] (st.1 !! nei)) node]> st.1, set_add st.2 nei).
Proof.
  intros Hv. destruct st as [parents next]. simpl. split_and!; simpl.
  - intros v. rewrite elem_of_set_add. naive_solver.
  - intros v p. destruct (decide (nei = v)) as [->|Hne].
    + rewrite lookup_insert_eq. simpl. rewrite elem_of_set_add. naive_solver.
    + rewrite lookup_insert_ne by done. naive_solver.
  - intros v. destruct (decide (nei = v)) as [->|Hne].
    + rewrite lookup_insert_eq. split; [|by eauto]. intros _. right. eauto.
    + rewrite lookup_insert_ne by done. naive_solver.
  - apply NoDup_set_add.
  - intros Hp v ps. destruct (decide (nei = v)) as [->|Hne].
    + rewrite lookup_insert_eq. intros [= <-]. apply NoDup_set_add.
      destruct (parents !! v) as [qs|] eqn:Hq; simpl; [by eapply Hp|constructor].
    + rewrite lookup_insert_ne by done. apply Hp.
Qed.

(** One neighbor: the step throws exactly on an unvisited word that goes
    by an inherited name and has no entry. *)
Lemma discover_spec visited node st nei :
  match discover visited node st nei with
  | Returned st' =>
      extended visited (λ p v, p = node ∧ v = nei) st st'
      ∧ (cleanKeys st.1 → cleanKeys st'.1 ∧ (nei ∉ visited → ¬ inheritedName nei))
  | Thrown => nei ∉ visited ∧ inheritedName nei
  | OutOfFuel => False
  end.
Proof.
  unfold discover, set_has. case_bool_decide as Hv; simpl.
  { split; [unfold extended; naive_solver|]. naive_solver. }
  pose proof (record_extended visited node st nei Hv) as Hext.
  unfold getProp. destruct (st.1 !! nei) as [ps|] eqn:Hps; simpl in *.
  - split; [done|]. intros Hclean. split.
    + intros k. destruct (decide (nei = k)) as [->|Hne].
      * intros _. apply Hclean. by rewrite Hps.
      * simpl. rewrite lookup_insert_ne by done. apply Hclean.
    + intros _. apply Hclean. by rewrite Hps.
  - destruct (inheritedName nei) eqn:Hin; [split; [done|exact I]|].
    split; [done|]. intros Hclean. split; [|by intros _ []].
    intros k. destruct (decide (nei = k)) as [->|Hne].
    + intros _ Hk. by rewrite Hin in Hk.
    + simpl. rewrite lookup_insert_ne by done. apply Hclean.
Qed.

Lemma discover_fold_spec visited node (ns : list string) st :
  match forEach (discover visited node) st ns with
  | Returned st' =>
      extended visited (λ p v, p = node ∧ v ∈ ns) st st'
      ∧ (cleanKeys st.1 →
         cleanKeys st'.1 ∧ ∀ v, v ∈ ns → v ∉ visited → ¬ inheritedName v)
  | Thrown => ∃ v, v ∈ ns ∧ v ∉ visited ∧ inheritedName v
  | OutOfFuel => False
  end.
Proof.
  revert st. induction ns as [|nei ns IH]; intros st; simpl.
  - split.
    + eapply extended_iff, extended_refl. intros p v. rewrite elem_of_nil. naive_solver.
    + intros ?. split; [done|]. by intros v ?%elem_of_nil.
  - pose proof (discover_spec visited node st nei) as Hd.
    destruct (discover visited node st nei) as [st1| |]; simpl; [| |done].
    2:{ destruct Hd as [? ?]. exists nei. split_and!; [left|done..]. }
    destruct Hd as [Hext Hclean]. specialize (IH st1).
    destruct (forEach _ st1 ns) as [st2| |]; [| |done].
    + destruct IH as [Hext' Hclean']. split.
      * eapply extended_iff; [|eapply extended_trans; [apply Hext|apply Hext']].
        intros p v. simpl. rewrite elem_of_cons. naive_solver.
      * intros Hc. destruct (Hclean Hc) as [Hc1 Hn]. destruct (Hclean' Hc1) as [Hc2 Hns].
        split; [done|]. intros v [->|?]%elem_of_cons; auto.
    + destruct IH as (v & ? & ? & ?). exists v. split; [by right|done].
Qed.

Lemma expand_fold_spec (neighbors : string → list string) visited frontier st :
  match forEach (λ st node, forEach (discover visited node) st (neighbors node))
                st frontier with
  | Returned st' =>
      extended visited (λ p v, p ∈ frontier ∧ v ∈ neighbors p) st st'
      ∧ (cleanKeys st.1 →
         cleanKeys st'.1
         ∧ ∀ u v, u ∈ frontier → v ∈ neighbors u → v ∉ visited → ¬ inheritedName v)
  | Thrown => ∃ u v, u ∈ frontier ∧ v ∈ neighbors u ∧ v ∉ visited ∧ inheritedName v
  | OutOfFuel => False
  end.
Proof.
  revert st. induction frontier as [|node frontier IH]; intros st; simpl.
  - split.
    + eapply extended_iff, extended_refl. intros p v. rewrite elem_of_nil. naive_solver.
    + intros ?. split; [done|]. by intros u v ?%elem_of_nil.
  - pose proof (discover_fold_spec visited node (neighbors node) st) as Hd.
    destruct (forEach (discover visited node) st (neighbors node)) as [st1| |];
      simpl; [| |done].
    2:{ destruct Hd as (v & ? & ? & ?). exists node, v. split_and!; [left|done..]. }
    destruct Hd as [Hext Hclean]. specialize (IH st1).
    destruct (forEach _ st1 frontier) as [st2| |]; [| |done].
    + destruct IH as [Hext' Hclean']. split.
      * eapply extended_iff; [|eapply extended_trans; [apply Hext|apply Hext']].
        intros p v. simpl. rewrite elem_of_cons. naive_solver.
      * intros Hc. destruct (Hclean Hc) as [Hc1 Hn]. destruct (Hclean' Hc1) as [Hc2 Hns].
        split; [done|]. intros u v [->|?]%elem_of_cons; eauto.
    + destruct IH as (u & v & ? & ? & ? & ?). exists u, v. split_and!; [by right|done..].
Qed.

(** A level throws exactly when the frontier has an unvisited neighbor
    that goes by an inherited name, the map being clean. *)
Lemma expandLevel_spec (neighbors : string → list string) visited parents frontier :
  match expandLevel neighbors visited parents frontier with
  | Returned st' =>
      extended visited (λ p v, p ∈ frontier ∧ v ∈ neighbors p) (parents, []) st'
      ∧ (cleanKeys parents →
         cleanKeys st'.1
         ∧ ∀ u v, u ∈ frontier → v ∈ neighbors u → v ∉ visited → ¬ inheritedName v)
  | Thrown => ∃ u v, u ∈ frontier ∧ v ∈ neighbors u ∧ v ∉ visited ∧ inheritedName v
  | OutOfFuel => False
  end.
Proof. apply (expand_fold_spec neighbors visited frontier (parents, [])). Qed.
End expand.

(** ** The layered search: lemmas *)

Section bfs.
Context (neighbors : string → list string) (src tgt : string).
Implicit Types (vis fr : list string) (par : gmap string (list string)).
Implicit Types (k i j : nat) (v u p : string).

Notation reach := (reach neighbors src).
Notation lev := (lev neighbors src).

Lemma lev_0 v : lev 0 v ↔ v = src.
Proof. unfold lev. simpl. naive_solver lia. Qed.

Lemma lev_unique j k v : lev j v → lev k v → j = k.
Proof.
  intros [Hj Hj'] [Hk Hk']. destruct (lt_eq_lt_dec j k) as [[?|?]|?]; [|done|].
  - destruct (Hk' j); done.
  - destruct (Hj' k); done.
Qed.

Lemma lev_src k : lev k src → k = 0.
Proof. intros H. symmetry. eapply lev_unique; [|done]. by apply lev_0. Qed.

(** The predecessor of a word of level [k + 1] on a walk of [k + 1] steps
    is of level [k]. *)
Lemma lev_pred k u v : reach k u → v ∈ neighbors u → lev (S k) v → lev k u.
Proof.
  intros Hu Hv [_ Hmin]. split; [done|]. intros j Hj Hr.
  apply (Hmin (S j)); [lia|]. simpl. eauto.
Qed.

Lemma lev_S k v :
  lev (S k) v ↔ (∃ u, lev k u ∧ v ∈ neighbors u) ∧ ∀ j, j ≤ k → ¬ reach j v.
Proof.
  split.
  - intros Hv. pose proof Hv as [(u & Hu & Huv) Hmin]. split.
    + exists u. split; [|done]. by eapply lev_pred.
    + intros j Hj. apply Hmin. lia.
  - intros [(u & [Hu _] & Huv) Hmin]. split; [simpl; eauto|].
    intros j Hj. apply Hmin. lia.
Qed.

Lemma visitedOk_init : visitedOk neighbors src 0 [src].
Proof.
  split; [|apply NoDup_singleton]. intros v. rewrite list_elem_of_singleton. split.
  - intros ->. exists 0. done.
  - intros (j & Hj & Hr). assert (j = 0) as -> by lia. done.
Qed.

Lemma frontierOk_init : frontierOk neighbors src 0 [src].
Proof.
  split; [|apply NoDup_singleton]. intros v.
  by rewrite list_elem_of_singleton, lev_0.
Qed.

Lemma parentsOk_init : parentsOk neighbors src 0 ∅.
Proof.
  split_and!.
  - intros v p. rewrite lookup_empty. simpl. rewrite elem_of_nil. naive_solver lia.
  - intros v. rewrite lookup_empty. split; [by intros [? ?]|naive_solver lia].
  - intros v ps. by rewrite lookup_empty.
Qed.

(** One iteration takes the invariant from level [k] to level [k + 1]. *)
Lemma extended_ok k vis par fr st :
  visitedOk neighbors src k vis → parentsOk neighbors src k par →
  frontierOk neighbors src k fr →
  extended vis (λ p v, p ∈ fr ∧ v ∈ neighbors p) (par, []) st →
  frontierOk neighbors src (S k) st.2
  ∧ parentsOk neighbors src (S k) st.1
  ∧ visitedOk neighbors src (S k) (foldl set_add vis st.2)
  ∧ foldl set_add vis st.2 = vis ++ st.2.
Proof.
  intros [HV HVd] (HP1 & HP2 & HP3) [HF HFd] (E1 & E2 & E3 & E4 & E5).
  simpl in *.
  assert (∀ v, v ∉ vis ↔ ∀ j, j ≤ k → ¬ reach j v) as HnV.
  { intros v. rewrite HV. naive_solver. }
  assert (∀ v, v ∈ st.2 ↔ lev (S k) v) as Hnext.
  { intros v. rewrite E1, lev_S, elem_of_nil, HnV.
    setoid_rewrite HF. naive_solver. }
  assert (NoDup st.2) as Hnd by (apply E4; constructor).
  assert (∀ v, v ∈ st.2 → v ∉ vis) as Hfresh.
  { intros v. rewrite E1, elem_of_nil. naive_solver. }
  split_and!.
  - done.
  - split_and!.
    + intros v p. rewrite E2, HP1. split.
      * intros [(j & ? & ? & ? & ?)|(Hv & Hp & Hpv)]; [exists j; split_and!; auto with lia|].
        exists k. split_and!; [lia|by apply HF| |done].
        apply Hnext, E1. right. eauto.
      * intros (j & Hj & Hp & Hv & Hpv).
        destruct (decide (j = k)) as [->|]; [|left; exists j; split_and!; auto with lia].
        right. split_and!; [|by apply HF|done]. by apply Hfresh, Hnext.
    + intros v. rewrite E3, HP2. split.
      * intros [(j & ? & ?)|Hv]; [exists j; split; [lia|done]|].
        exists (S k). split; [lia|]. apply Hnext, E1. by right.
      * intros (j & Hj & Hv).
        destruct (decide (j = S k)) as [->|]; [|left; exists j; split; [lia|done]].
        right. apply Hnext, E1 in Hv as [[]%elem_of_nil|?]. done.
    + by apply E5.
  - split; [|by apply NoDup_foldl_set_add].
    intros v. rewrite elem_of_foldl_set_add, HV, Hnext. split.
    + intros [(j & ? & ?)|[Hr _]]; [exists j; split; [lia|done]|].
      exists (S k). done.
    + intros (j & Hj & Hr). destruct (decide (v ∈ vis)) as [Hv|Hv].
      * left. by apply HV.
      * right. assert (j = S k) as ->.
        { destruct (decide (j = S k)); [done|]. destruct Hv. apply HV.
          exists j. split; [lia|done]. }
        split; [done|]. intros j' Hj'. apply (proj1 (HnV v) Hv j'). lia.
  - by apply foldl_set_add_fresh.
Qed.

Lemma parentsOk_cleanKeys k par :
  parentsOk neighbors src k par → cleanLevels neighbors src k → cleanKeys par.
Proof. intros (_ & HP & _) Hc v (j & Hj & Hl)%HP. by eapply Hc. Qed.

(** The unvisited neighbors of the frontier of level [k] are the words of
    level [k + 1]. *)
Lemma unvisited_neighbor k vis fr v :
  visitedOk neighbors src k vis → frontierOk neighbors src k fr →
  (v ∉ vis ∧ ∃ u, u ∈ fr ∧ v ∈ neighbors u) ↔ lev (S k) v.
Proof.
  intros [HV _] [HF _]. rewrite lev_S, HV. setoid_rewrite HF. naive_solver.
Qed.

Lemma bfsLoop_nil fuel vis par k : bfsLoop fuel neighbors tgt vis par [] k = Returned [].
Proof. by destruct fuel. Qed.

(** What the loop has done when it returns, having started level [k] from
    a state that satisfies the invariant. *)
Lemma bfsLoop_Returned fuel k vis par fr fs :
  visitedOk neighbors src k vis → parentsOk neighbors src k par →
  frontierOk neighbors src k fr → cleanLevels neighbors src k →
  bfsLoop fuel neighbors tgt vis par fr k = Returned fs →
  linked vis fr fs
  ∧ (fr ≠ [] → fs ≠ [])
  ∧ cleanLevels neighbors src (k + length fs)
  ∧ ∀ i f, fs !! i = Some f →
      frameOk neighbors src tgt (k + i) f
      ∧ (S i < length fs → found f = false ∧ nextFrontier f ≠ [])
      ∧ (S i = length fs → found f = true ∨ nextFrontier f = []).
Proof.
  revert k vis par fr fs.
  induction fuel as [|fuel IH]; intros k vis par fr fs HV HP HF HC.
  { destruct fr; simpl; [|done]. intros [= <-]. rewrite Nat.add_0_r.
    split_and!; [done..|]. intros i f. by rewrite lookup_nil. }
  destruct fr as [|x fr']; simpl.
  { intros [= <-]. rewrite Nat.add_0_r. split_and!; [done..|].
    intros i f. by rewrite lookup_nil. }
  set (fr := x :: fr') in *.
  pose proof (expandLevel_spec neighbors vis par fr) as Hexp.
  destruct (expandLevel neighbors vis par fr) as [st| |]; simpl; [|done..].
  destruct Hexp as [Hext Hclean].
  destruct (extended_ok k vis par fr st HV HP HF Hext) as (HF' & HP' & HV' & Hvis).
  destruct (Hclean (parentsOk_cleanKeys k par HP HC)) as [_ Hnew].
  assert (cleanLevels neighbors src (S k)) as HC'.
  { intros j v Hj Hl. destruct (decide (j = S k)) as [->|]; [|apply (HC j v); [lia|done]].
    apply (unvisited_neighbor k vis fr v HV HF) in Hl as (Hv & u & Hu & Huv). eauto. }
  set (frame := mkFrame k fr st.2 (foldl set_add vis st.2) st.1
                        (bool_decide (tgt ∈ st.2))).
  assert (frameOk neighbors src tgt k frame) as Hframe.
  { unfold frameOk, frame. simpl. by rewrite Hvis in HV' |- *. }
  case_bool_decide as Ht.
  - intros [= <-]. simpl. rewrite Nat.add_1_r. split_and!; [done..|].
    intros [|i] f; simpl; [|by rewrite lookup_nil]. intros [= <-].
    rewrite Nat.add_0_r. split_and!; [done|lia|]. intros _. by left.
  - intros (fs' & Hloop & ->)%fmap_Returned.
    destruct (IH (k + 1) _ _ _ _ ltac:(by rewrite Nat.add_1_r)
                 ltac:(by rewrite Nat.add_1_r) ltac:(by rewrite Nat.add_1_r)
                 ltac:(by rewrite Nat.add_1_r) Hloop)
      as (Hlink & Hne & Hcl & Hfs).
    split_and!; [by simpl|done| |].
    { simpl. by replace (k + S (length fs')) with (k + 1 + length fs') by lia. }
    intros [|i] f; simpl.
    + intros [= <-]. rewrite Nat.add_0_r. split_and!; [done| |].
      * intros Hlen. split; [done|].
        intros Hnil. simpl in Hnil. rewrite Hnil, bfsLoop_nil in Hloop.
        injection Hloop as <-. simpl in Hlen. lia.
      * intros Hlen. right. simpl.
        destruct st.2 eqn:E; [done|]. destruct fs'; [|simpl in Hlen; lia].
        by destruct Hne.
    + intros Hf. destruct (Hfs i f Hf) as (Hok & Hmid & Hlast).
      replace (k + S i) with (k + 1 + i) by lia.
      split_and!; [done|intros; apply Hmid; lia|intros; apply Hlast; lia].
Qed.

(** When the loop throws: on some level a word with an inherited name is
    discovered, no level before has discovered the end word, and none has
    come out empty. *)
Lemma bfsLoop_Thrown fuel k vis par fr :
  visitedOk neighbors src k vis → parentsOk neighbors src k par →
  frontierOk neighbors src k fr → cleanLevels neighbors src k →
  bfsLoop fuel neighbors tgt vis par fr k = Thrown →
  ∃ k', k ≤ k'
        ∧ (∃ v, lev (S k') v ∧ inheritedName v)
        ∧ ∀ j, k ≤ j < k' → ¬ lev (S j) tgt ∧ ∃ v, lev (S j) v.
Proof.
  revert k vis par fr.
  induction fuel as [|fuel IH]; intros k vis par fr HV HP HF HC.
  { by destruct fr. }
  destruct fr as [|x fr']; simpl; [done|].
  set (fr := x :: fr') in *.
  pose proof (expandLevel_spec neighbors vis par fr) as Hexp.
  destruct (expandLevel neighbors vis par fr) as [st| |]; simpl; [| |done].
  2:{ intros _. destruct Hexp as (u & v & Hu & Huv & Hv & Hin).
      exists k. split_and!; [done| |intros; lia].
      exists v. split; [|done]. apply (unvisited_neighbor k vis fr v HV HF). eauto. }
  destruct Hexp as [Hext Hclean].
  destruct (extended_ok k vis par fr st HV HP HF Hext) as (HF' & HP' & HV' & Hvis).
  destruct (Hclean (parentsOk_cleanKeys k par HP HC)) as [_ Hnew].
  assert (cleanLevels neighbors src (S k)) as HC'.
  { intros j v Hj Hl. destruct (decide (j = S k)) as [->|]; [|apply (HC j v); [lia|done]].
    apply (unvisited_neighbor k vis fr v HV HF) in Hl as (Hv & u & Hu & Huv). eauto. }
  case_bool_decide as Ht; [done|].
  intros Hloop%fmap_Thrown.
  destruct (IH (k + 1) _ _ _ ltac:(by rewrite Nat.add_1_r)
               ltac:(by rewrite Nat.add_1_r) ltac:(by rewrite Nat.add_1_r)
               ltac:(by rewrite Nat.add_1_r) Hloop)
    as (k' & Hk' & Hthrow & Hbefore).
  exists k'. split_and!; [lia|done|]. intros j Hj.
  destruct (decide (j = k)) as [->|]; [|apply Hbefore; lia].
  destruct HF' as [HF' _]. split; [by rewrite <-HF'|].
  destruct st.2 as [|y next] eqn:E; [by rewrite bfsLoop_nil in Hloop|].
  exists y. apply HF'. left.
Qed.

(** More fuel changes nothing. *)
Lemma bfsLoop_fuel fuel fuel' k vis par fr :
  bfsLoop fuel neighbors tgt vis par fr k ≠ OutOfFuel → fuel ≤ fuel' →
  bfsLoop fuel' neighbors tgt vis par fr k = bfsLoop fuel neighbors tgt vis par fr k.
Proof.
  revert fuel' k vis par fr.
  induction fuel as [|fuel IH]; intros fuel' k vis par fr.
  { destruct fr; simpl; [|done]. intros _ _. apply bfsLoop_nil. }
  destruct fr as [|x fr']; simpl; [intros _ _; apply bfsLoop_nil|].
  intros H Hle. destruct fuel' as [|fuel']; [lia|]. simpl.
  destruct (expandLevel _ _ _ _) as [st| |]; simpl in *; [|done..].
  case_bool_decide; [done|]. rewrite IH; [done| |lia].
  intros Hn. by rewrite Hn in H.
Qed.

(** The loop ends: an iteration that does not end it marks a word of [ws]
    as visited that was not. *)
Lemma bfsLoop_total (ws : list string) fuel k vis par fr :
  (∀ u v, v ∈ neighbors u → v ∈ ws ∨ v = src) → src ∈ vis →
  length (filter (λ w, w ∉ vis) ws) < fuel →
  bfsLoop fuel neighbors tgt vis par fr k ≠ OutOfFuel.
Proof.
  intros Hpool. revert k vis par fr.
  induction fuel as [|fuel IH]; intros k vis par fr Hsrc Hfuel; [lia|].
  destruct fr as [|x fr']; simpl; [done|].
  set (fr := x :: fr') in *.
  pose proof (expandLevel_spec neighbors vis par fr) as Hexp.
  destruct (expandLevel neighbors vis par fr) as [[par' next]| |]; simpl; [|done..].
  destruct Hexp as [(E1 & _) _]. simpl in *.
  case_bool_decide; [done|]. rewrite fmap_OutOfFuel.
  destruct next as [|y next']; [by rewrite bfsLoop_nil|].
  set (next := y :: next') in *.
  assert (y ∈ next) as Hy by left.
  apply E1 in Hy as [[]%elem_of_nil|(Hyv & p & _ & Hpy)].
  apply IH.
  - apply elem_of_foldl_set_add. by left.
  - enough (length (filter (λ w, w ∉ foldl set_add vis next) ws)
            < length (filter (λ w, w ∉ vis) ws)) by lia.
    apply length_filter_lt_strict with (x := y); [| |done|].
    + intros w Hw Hin. apply Hw, elem_of_foldl_set_add. by left.
    + destruct (Hpool _ _ Hpy) as [?| ->]; done.
    + intros Hn. apply Hn, elem_of_foldl_set_add. right. left.
Qed.

Lemma bfsLoop_length fuel vis par fr k fs :
  bfsLoop fuel neighbors tgt vis par fr k = Returned fs → length fs ≤ fuel.
Proof.
  revert vis par fr k fs. induction fuel as [|fuel IH]; intros vis par fr k fs.
  { destruct fr; simpl; [|done]. by intros [= <-]. }
  destruct fr as [|x fr]; simpl; [intros [= <-]; simpl; lia|].
  destruct (expandLevel _ _ _ _) as [st| |]; simpl; [|done..].
  case_bool_decide; [intros [= <-]; simpl; lia|].
  intros (fs' & Hfs & ->)%fmap_Returned. apply IH in Hfs. simpl. lia.
Qed.
End bfs.

(** ** Backtracking: lemmas *)

Section dfs.
Context (par : gmap string (list string)) (src : string).
Implicit Types (w p : string) (st : DfsState) (c q : list string).

Lemma tryParent_old (rec : string → DfsState → outcome DfsState) st p :
  p ∈ visiting st → tryParent rec st p = Returned st.
Proof. intros H. unfold tryParent. by rewrite (proj2 (set_has_true _ _) H). Qed.

Lemma tryParent_new (rec : string → DfsState → outcome DfsState) st p :
  p ∉ visiting st →
  tryParent rec st p
  = st' ← rec p (mkDfs (path st ++ [p]) (set_add (visiting st) p) (res st));
    Returned (mkDfs (removelast (path st')) (set_delete (visiting st') p) (res st')).
Proof. intros H. unfold tryParent. by rewrite (proj2 (set_has_false _ _) H). Qed.

Lemma chain_src_inv vis c : chain par src vis src c → c = [].
Proof. by inversion 1. Qed.

(** What a call of [dfs] that returns has done: [path] and [visiting] are
    as before, and [res] has gained the chains that lead from [w] back to
    the begin word, each turned around behind the path so far. *)
Lemma dfs_spec fuel w st st' :
  dfs fuel par src w st = Returned st' →
  ∃ new,
    st' = mkDfs (path st) (visiting st) (res st ++ new)
    ∧ (∀ q, q ∈ new ↔ ∃ c, chain par src (visiting st) w c ∧ q = reverse (path st ++ c))
    ∧ (parentSets par → NoDup new).
Proof.
  revert w st st'. induction fuel as [|fuel IH]; intros w st st'; simpl; [done|].
  case_decide as Hw.
  { subst w. intros [= <-]. exists [reverse (path st)]. split_and!; [done| |].
    - intros q. rewrite list_elem_of_singleton. split.
      + intros ->. exists []. split; [constructor|by rewrite app_nil_r].
      + intros (c & ->%chain_src_inv & ->). by rewrite app_nil_r.
    - intros _. apply NoDup_singleton. }
  destruct (getProp par w) as [ps| |] eqn:Hg; [|done|].
  2:{ apply getProp_Undefined in Hg as [Hps _].
      intros [= <-]. exists []. split_and!; [by rewrite app_nil_r; destruct st| |].
      - intros q. rewrite elem_of_nil. split; [done|].
        intros (c & Hc & _). inversion Hc; congruence.
      - intros _. constructor. }
  apply getProp_OwnSet in Hg as Hps.
  assert (∀ (ps' : list string) st0 st1,
    (∀ p, p ∈ ps' → p ∈ ps) →
    forEach (tryParent (dfs fuel par src)) st0 ps' = Returned st1 →
    ∃ new,
      st1 = mkDfs (path st0) (visiting st0) (res st0 ++ new)
      ∧ (∀ q, q ∈ new ↔ ∃ p c, p ∈ ps' ∧ p ∉ visiting st0
                ∧ chain par src (visiting st0 ++ [p]) p c
                ∧ q = reverse (path st0 ++ p :: c))
      ∧ (NoDup ps' → parentSets par → NoDup new)) as Hfold.
  { induction ps' as [|p ps' IHps]; intros st0 st1 Hsub; simpl.
    - intros [= <-]. exists []. split_and!; [by rewrite app_nil_r; destruct st0| |].
      + intros q. rewrite elem_of_nil. setoid_rewrite elem_of_nil. naive_solver.
      + intros _ _. constructor.
    - destruct (decide (p ∈ visiting st0)) as [Hp|Hp];
        [rewrite tryParent_old by done|rewrite tryParent_new by done]; simpl.
      + intros (new & -> & Hnew & Hnd)%IHps; [|by intros; apply Hsub; right].
        exists new. split_and!; [done| |].
        * intros q. rewrite Hnew. setoid_rewrite elem_of_cons. naive_solver.
        * intros [_ ?]%NoDup_cons. auto.
      + destruct (dfs fuel par src p _) as [st2| |] eqn:Hrec; simpl; [|done..].
        apply IH in Hrec as (new1 & -> & Hnew1 & Hnd1). simpl.
        rewrite removelast_last, set_delete_add by done.
        intros (new2 & -> & Hnew2 & Hnd2)%IHps; [|by intros; apply Hsub; right].
        simpl in *. rewrite set_add_new in Hnew1 by done.
        exists (new1 ++ new2). split_and!; [by rewrite app_assoc| |].
        * intros q. rewrite elem_of_app, Hnew1, Hnew2.
          setoid_rewrite elem_of_cons. split.
          -- intros [(c & Hc & ->)|(p' & c & ? & ? & ? & ->)].
             ++ exists p, c. split_and!; [by left|done|done|by rewrite <-app_assoc].
             ++ exists p', c. split_and!; [by right|done..].
          -- intros (p' & c & [->|Hp'] & ? & ? & ->).
             ++ left. exists c. split; [done|by rewrite <-app_assoc].
             ++ right. exists p', c. done.
        * intros [Hp' Hps']%NoDup_cons Hpar. apply NoDup_app. split_and!; [auto| |auto].
          intros q (c & _ & ->)%Hnew1 (p' & c' & Hin & _ & _ & Heq)%Hnew2.
          apply (inj reverse) in Heq. rewrite <-app_assoc in Heq.
          apply app_inv_head in Heq. simpl in Heq. congruence. }
  intros (new & -> & Hnew & Hnd)%Hfold; [|done].
  exists new. split_and!; [done| |].
  - intros q. rewrite Hnew. split.
    + intros (p & c & ? & ? & ? & ->). exists (p :: c). split; [|done].
      by eapply chain_step.
    + intros (c & Hc & ->). inversion Hc; simplify_eq. eauto 10.
  - intros Hpar. apply Hnd; [|done]. by eapply Hpar.
Qed.

(** More fuel changes nothing. *)
Lemma dfs_fuel fuel fuel' w st :
  dfs fuel par src w st ≠ OutOfFuel → fuel ≤ fuel' →
  dfs fuel' par src w st = dfs fuel par src w st.
Proof.
  revert fuel' w st. induction fuel as [|fuel IH]; intros fuel' w st; [done|].
  intros H Hle. destruct fuel' as [|fuel']; [lia|]. simpl in *.
  case_decide; [done|]. destruct (getProp par w) as [ps| |]; [|done..].
  revert st H. induction ps as [|p ps IHps]; intros st; simpl; [done|].
  destruct (decide (p ∈ visiting st)) as [Hp|Hp];
    [rewrite !tryParent_old by done; simpl; apply IHps|].
  rewrite !tryParent_new by done.
  destruct (dfs fuel par src p _) as [st2| |] eqn:Hrec; simpl; [| |done].
  - rewrite (IH fuel' p) by (rewrite ?Hrec; done || lia).
    rewrite Hrec. simpl. apply IHps.
  - rewrite (IH fuel' p) by (rewrite ?Hrec; done || lia). by rewrite Hrec.
Qed.

Lemma elem_of_parentWords w ps p : par !! w = Some ps → p ∈ ps → p ∈ parentWords par.
Proof.
  intros Hw Hp. unfold parentWords. apply list_elem_of_bind.
  exists (w, ps). split; [done|]. by apply elem_of_map_to_list.
Qed.

(** [dfs] ends: every nested call has one more of the recorded parents in
    [visiting]. *)
Lemma dfs_total fuel w st :
  length (filter (λ p, p ∉ visiting st) (parentWords par)) < fuel →
  dfs fuel par src w st ≠ OutOfFuel.
Proof.
  revert w st. induction fuel as [|fuel IH]; intros w st Hfuel; [lia|]. simpl.
  case_decide; [done|]. destruct (getProp par w) as [ps| |] eqn:Hg; [|done..].
  apply getProp_OwnSet in Hg as Hps.
  assert (∀ (ps' : list string) st0,
    (∀ p, p ∈ ps' → p ∈ ps) → visiting st0 = visiting st →
    forEach (tryParent (dfs fuel par src)) st0 ps' ≠ OutOfFuel) as Hfold.
  { induction ps' as [|p ps' IHps]; intros st0 Hsub Hvis; simpl; [done|].
    destruct (decide (p ∈ visiting st0)) as [Hp|Hp];
      [rewrite tryParent_old by done|rewrite tryParent_new by done]; simpl.
    { apply IHps; [by intros; apply Hsub; right|done]. }
    pose proof (IH p (mkDfs (path st0 ++ [p]) (set_add (visiting st0) p) (res st0)))
      as Hrec.
    destruct (dfs fuel par src p _) as [st2| |] eqn:Hd; simpl; [|done|].
    - apply dfs_spec in Hd as (new & -> & _). simpl.
      rewrite set_delete_add by done.
      apply IHps; [by intros; apply Hsub; right|done].
    - destruct Hrec; [|done]. simpl.
      enough (length (filter (λ y, y ∉ set_add (visiting st0) p) (parentWords par))
              < length (filter (λ y, y ∉ visiting st) (parentWords par))) by lia.
      apply length_filter_lt_strict with (x := p).
      + intros y Hy Hin. apply Hy, elem_of_set_add. left. by rewrite Hvis.
      + eapply elem_of_parentWords; [done|]. apply Hsub. left.
      + by rewrite <-Hvis.
      + intros Hn. apply Hn, elem_of_set_add. by right. }
  by apply Hfold.
Qed.

(** On a map whose parents all have entries, [dfs] does not throw. *)
Lemma dfs_no_throw fuel w st :
  closedParents par src → w = src ∨ is_Some (par !! w) →
  dfs fuel par src w st ≠ Thrown.
Proof.
  intros Hclosed. revert w st. induction fuel as [|fuel IH]; intros w st Hw; [done|].
  simpl. case_decide as Hsrc; [done|].
  destruct Hw as [?|[ps Hps]]; [done|]. rewrite (getProp_Some _ _ _ Hps).
  assert (∀ (ps' : list string) st0,
    (∀ p, p ∈ ps' → p ∈ ps) →
    forEach (tryParent (dfs fuel par src)) st0 ps' ≠ Thrown) as Hfold.
  { induction ps' as [|p ps' IHps]; intros st0 Hsub; simpl; [done|].
    destruct (decide (p ∈ visiting st0)) as [Hp|Hp];
      [rewrite tryParent_old by done|rewrite tryParent_new by done]; simpl.
    { apply IHps. by intros; apply Hsub; right. }
    pose proof (IH p (mkDfs (path st0 ++ [p]) (set_add (visiting st0) p) (res st0)))
      as Hrec.
    destruct (dfs fuel par src p _) as [st2| |]; simpl; [| |done].
    - apply IHps. by intros; apply Hsub; right.
    - destruct Hrec; [|done]. eapply Hclosed; [done|]. apply Hsub. left. }
  by apply Hfold.
Qed.
End dfs.

(** ** Sorting: lemmas *)

Section sort.
Context {A : Type} (cmp : A → A → comparison).
Hypothesis cmp_antisym : ∀ a b, cmp a b = CompOpp (cmp b a).

Lemma sortInsert_Permutation (x : A) (l : list A) : sortInsert cmp x l ≡ₚ x :: l.
Proof.
  induction l as [|y l IH]; simpl; [done|].
  destruct (cmp x y); [|done|]; by rewrite IH, Permutation_swap.
Qed.

Lemma sort_Permutation (l : list A) : sort cmp l ≡ₚ l.
Proof.
  unfold sort. change l with ([] ++ l) at 2. generalize (@nil A).
  induction l as [|x l IH]; intros acc; simpl; [by rewrite app_nil_r|].
  rewrite IH, sortInsert_Permutation. simpl. apply Permutation_middle.
Qed.

Lemma sortInsert_Sorted (x : A) (l : list A) :
  Sorted (cmpLe cmp) l → Sorted (cmpLe cmp) (sortInsert cmp x l).
Proof.
  induction 1 as [|y l Hl IH Hy]; simpl; [by repeat constructor|].
  destruct (cmp x y) eqn:Hxy.
  - constructor; [done|]. destruct Hy; simpl in *.
    + constructor. unfold cmpLe. rewrite cmp_antisym, Hxy. done.
    + destruct (cmp x b); constructor; try done;
        unfold cmpLe; rewrite cmp_antisym, Hxy; done.
  - repeat constructor; [done|done|]. unfold cmpLe. by rewrite Hxy.
  - constructor; [done|]. destruct Hy; simpl in *.
    + constructor. unfold cmpLe. rewrite cmp_antisym, Hxy. done.
    + destruct (cmp x b); constructor; try done;
        unfold cmpLe; rewrite cmp_antisym, Hxy; done.
Qed.

Lemma sort_Sorted (l : list A) : Sorted (cmpLe cmp) (sort cmp l).
Proof.
  unfold sort. assert (Sorted (cmpLe cmp) []) as H by constructor.
  revert H. generalize (@nil A). induction l as [|x l IH]; intros acc Hacc; simpl.
  - done.
  - apply IH. by apply sortInsert_Sorted.
Qed.
End sort.

Section paths.
Implicit Types (a b : list string) (x y s t : string).

Lemma pathCompare_antisym a b : pathCompare a b = CompOpp (pathCompare b a).
Proof. apply String.compare_antisym. Qed.







End paths.

(** ** Chains of parents and descents through the levels *)

Section descent.
Context (neighbors : string → list string) (src : string).
Implicit Types (par : gmap string (list string)) (vis c : list string) (w p : string).

Notation reach := (reach neighbors src).
Notation lev := (lev neighbors src).
Notation descent := (descent neighbors src).

Lemma descent_length j w c : descent j w c → length c = j.
Proof.
  revert j w. induction c as [|p c IH]; intros [|j] w; simpl; try done.
  intros (_ & _ & _ & Hd). f_equal. by eapply IH.
Qed.

Lemma descent_lev j w c : descent j w c → lev j w.
Proof.
  destruct j, c; simpl; try done; [|naive_solver].
  intros ->. by apply lev_0.
Qed.

Lemma descent_lookup j w c i x : descent j w c → c !! i = Some x → lev (j - S i) x.
Proof.
  revert j w i. induction c as [|p c IH]; intros [|j] w i; simpl; try done.
  intros (Hp & _ & _ & Hd). destruct i as [|i]; simpl.
  - intros [= <-]. by rewrite Nat.sub_0_r.
  - intros Hx. by apply (IH j p i).
Qed.

Lemma descent_last j w c : descent j w c → last (w :: c) = Some src.
Proof.
  revert j w. induction c as [|p c IH]; intros [|j] w; simpl; try done.
  - by intros ->.
  - intros (_ & _ & _ & Hd). rewrite ?last_cons_cons. by eapply IH.
Qed.

Lemma descent_chained j w c :
  descent j w c → chained (λ a b, a ∈ neighbors b) (w :: c).
Proof.
  revert j w. induction c as [|p c IH]; intros [|j] w; simpl; try done.
  intros (_ & _ & Hw & Hd). split; [done|]. by eapply IH.
Qed.

(** Under the invariant, the chains that [dfs] follows are the descents. *)
Lemma chain_descent k par vis w c j :
  parentsOk neighbors src k par → j ≤ k → lev j w →
  (∀ x, x ∈ vis → ∃ i, j ≤ i ∧ lev i x) →
  chain par src vis w c ↔ descent j w c.
Proof.
  intros (HP1 & HP2 & _) Hj Hw Hvis. split.
  - intros Hc. revert j Hj Hw Hvis.
    induction Hc as [vis|vis w ps p c Hne Hps Hp Hpv Hc IH]; intros j Hj Hw Hvis.
    + apply lev_src in Hw as ->. done.
    + assert (p ∈ default [] (par !! w)) as Hin by (by rewrite Hps).
      apply HP1 in Hin as (j' & Hj' & Hlp & Hlw & Hpw).
      assert (j = S j') as -> by (by eapply lev_unique).
      simpl. split_and!; [done..|]. apply IH; [lia|done|].
      intros x [Hx| ->%list_elem_of_singleton]%elem_of_app; [|by eauto].
      destruct (Hvis x Hx) as (i & ? & ?). exists i. split; [lia|done].
  - revert vis w j Hj Hw Hvis.
    induction c as [|p c IH]; intros vis w [|j] Hj Hw Hvis; simpl; try done.
    + intros ->. constructor.
    + intros (Hlp & _ & Hpw & Hd).
      assert (p ∈ default [] (par !! w)) as Hin.
      { apply HP1. exists j. split_and!; [lia|done..]. }
      destruct (par !! w) as [ps|] eqn:Hps; simpl in Hin; [|by apply elem_of_nil in Hin].
      eapply chain_step; [|done|done| |].
      * intros ->. by apply lev_src in Hw.
      * intros (i & Hi & Hli)%Hvis.
        assert (i = j) by (by eapply lev_unique). lia.
      * apply (IH _ _ j); [lia|done| |done].
        intros x [Hx| ->%list_elem_of_singleton]%elem_of_app; [|by eauto].
        destruct (Hvis x Hx) as (i & ? & ?). exists i. split; [lia|done].
Qed.

Lemma walk_reach w c :
  last (w :: c) = Some src → chained (λ a b, a ∈ neighbors b) (w :: c) →
  reach (length c) w.
Proof.
  revert w. induction c as [|p c IH]; intros w; simpl.
  - by intros [= ->].
  - rewrite ?last_cons_cons. intros Hlast [Hw Hch]. exists p. split; [|done].
    by apply IH.
Qed.

(** A walk of [j] steps from the begin word to a word of level [j], read
    backwards, is a descent. *)
Lemma walk_descent w c :
  last (w :: c) = Some src → chained (λ a b, a ∈ neighbors b) (w :: c) →
  lev (length c) w → descent (length c) w c.
Proof.
  revert w. induction c as [|p c IH]; intros w; simpl.
  - by intros [= ->].
  - rewrite ?last_cons_cons. intros Hlast [Hw Hch] Hlw.
    assert (lev (length c) p) as Hlp.
    { eapply lev_pred; [|done..]. by apply walk_reach. }
    split_and!; [done..|]. by apply IH.
Qed.

(** Beyond an empty level there are no levels. *)
Lemma lev_empty k j v : (∀ u, ¬ lev k u) → k ≤ j → ¬ lev j v.
Proof.
  intros Hk Hle. revert v. induction Hle as [|j Hle IH]; intros v; [done|].
  intros [(u & Hu & _) _]%lev_S. by eapply IH.
Qed.
End descent.




(** ** The engine on a word list *)

Lemma stopsAt_throwsAt (neighbors : string → list string) src tgt k k' :
  stopsAt neighbors src tgt k → throwsAt neighbors src tgt k' → False.
Proof.
  intros (Hclean & Hlast & Hbefore) ((v & Hv & Hin) & Hbefore').
  destruct (decide (k' ≤ k)) as [Hle|Hgt].
  - apply (Hclean (S k') v); [lia|done|done].
  - destruct (Hbefore' k) as [Hnt [u Hu]]; [lia|].
    destruct Hlast as [?|Hnone]; [done|]. by apply (Hnone u).
Qed.

Section engine.
Context (beginWord endWord : string) (ws : list string).
Implicit Types (u v w : string) (q c : list string) (f : BFSFrame).
Implicit Types (fs : list BFSFrame).

Notation src := (toLowerCase beginWord).
Notation tgt := (toLowerCase endWord).
Notation nbrs := (getNeighbors ws beginWord).

Lemma getNeighbors_pool u v : v ∈ nbrs u → v ∈ ws ∨ v = src.
Proof. intros (_ & _ & [[? _]|?] & _)%elem_of_getNeighbors; auto. Qed.

Lemma getNeighbors_length u v : v ∈ nbrs u → String.length v = String.length u.
Proof. by intros (_ & ? & _)%elem_of_getNeighbors. Qed.

Lemma reach_length k v : reach nbrs src k v → String.length v = String.length src.
Proof.
  revert v. induction k as [|k IH]; intros v; simpl; [by intros ->|].
  intros (u & Hu & Hv). rewrite <-(IH u Hu). by eapply getNeighbors_length.
Qed.

Lemma reach_pool k v : reach nbrs src k v → v = src ∨ v ∈ ws.
Proof.
  destruct k; simpl; [by left|]. intros (u & _ & [?|?]%getNeighbors_pool); auto.
Qed.

Lemma cleanLevels_0 : cleanLevels nbrs src 0.
Proof. intros j v Hj. lia. Qed.

(** The loop of [frames] ends within the fuel it is given, and any larger
    fuel yields the same outcome. *)
Lemma framesFuel_frames fuel :
  length ws < fuel →
  framesFuel fuel beginWord endWord ws = frames beginWord endWord ws
  ∧ frames beginWord endWord ws ≠ OutOfFuel.
Proof.
  intros Hfuel. unfold frames, framesFuel. case_decide; [done|].
  assert (bfsLoop (S (length ws)) nbrs tgt [src] ∅ [src] 0 ≠ OutOfFuel) as Hne.
  { apply (bfsLoop_total nbrs src tgt ws).
    - apply getNeighbors_pool.
    - left.
    - apply Nat.lt_succ_r, length_filter. }
  split; [|done]. apply bfsLoop_fuel; [done|lia].
Qed.

Lemma frames_mismatch :
  String.length src ≠ String.length tgt → frames beginWord endWord ws = Returned [].
Proof. intros H. unfold frames, framesFuel. by rewrite decide_True. Qed.

Lemma frames_Returned fs :
  String.length src = String.length tgt →
  frames beginWord endWord ws = Returned fs →
  linked [src] [src] fs
  ∧ fs ≠ []
  ∧ cleanLevels nbrs src (length fs)
  ∧ ∀ i f, fs !! i = Some f →
      frameOk nbrs src tgt i f
      ∧ (S i < length fs → found f = false ∧ nextFrontier f ≠ [])
      ∧ (S i = length fs → found f = true ∨ nextFrontier f = []).
Proof.
  intros Hlen H. unfold frames, framesFuel in H.
  rewrite decide_False in H by naive_solver.
  destruct (bfsLoop_Returned nbrs src tgt _ 0 [src] ∅ [src] fs
              (visitedOk_init _ _) (parentsOk_init _ _) (frontierOk_init _ _)
              cleanLevels_0 H)
    as (? & ? & ? & ?).
  split_and!; [done|auto|done|done].
Qed.

Lemma frames_Thrown :
  frames beginWord endWord ws = Thrown →
  String.length src = String.length tgt ∧ ∃ k, throwsAt nbrs src tgt k.
Proof.
  intros H. unfold frames, framesFuel in H. case_decide as Hlen; [done|].
  split; [by destruct (decide (String.length src = String.length tgt))|].
  destruct (bfsLoop_Thrown nbrs src tgt _ 0 [src] ∅ [src]
              (visitedOk_init _ _) (parentsOk_init _ _) (frontierOk_init _ _)
              cleanLevels_0 H)
    as (k & _ & Hthrow & Hbefore).
  exists k. split; [done|]. intros j Hj. apply Hbefore. lia.
Qed.

(** The last frame, and the frames before it. *)
Lemma frames_last fs :
  String.length src = String.length tgt →
  frames beginWord endWord ws = Returned fs →
  ∃ k f, length fs = S k ∧ fs !! k = Some f ∧ last fs = Some f
         ∧ frameOk nbrs src tgt k f
         ∧ (found f = true ∨ nextFrontier f = [])
         ∧ (∀ i f', i < k → fs !! i = Some f' →
              found f' = false ∧ nextFrontier f' ≠ [])
         ∧ cleanLevels nbrs src (S k).
Proof.
  intros Hlen (_ & Hne & Hclean & Hfs)%frames_Returned; [|done].
  destruct (last fs) as [f|] eqn:Hlast; [|by apply last_None in Hlast].
  pose proof Hlast as Hk. rewrite last_lookup in Hk.
  destruct (length fs) as [|k] eqn:Hl; [by destruct fs|]. simpl in Hk.
  exists k, f. destruct (Hfs k f Hk) as (Hok & _ & Hend).
  split_and!; [done..|by apply Hend| |done].
  intros i f' Hi Hf'. destruct (Hfs i f' Hf') as (_ & Hmid & _). apply Hmid. lia.
Qed.

Lemma frames_stopsAt fs :
  String.length src = String.length tgt →
  frames beginWord endWord ws = Returned fs →
  stopsAt nbrs src tgt (pred (length fs)).
Proof.
  intros Hlen Hfs.
  destruct (frames_last fs Hlen Hfs) as (k & f & -> & Hf & _ & Hok & Hend & Hmid & Hc).
  simpl. destruct Hok as (_ & _ & [HN _] & _ & _ & Hfound).
  split_and!; [done| |].
  - destruct Hend as [Hend|Hend].
    + left. rewrite Hfound in Hend. apply bool_decide_eq_true in Hend. by apply HN.
    + right. intros v Hv%HN. rewrite Hend in Hv. by apply elem_of_nil in Hv.
  - intros j Hj. destruct (lookup_lt_is_Some_2 fs j) as [f' Hf'].
    { apply lookup_lt_Some in Hf. lia. }
    destruct (Hmid j f' Hj Hf') as [Hnf Hne].
    destruct (frames_Returned fs Hlen Hfs) as (_ & _ & _ & Hall).
    destruct (Hall j f' Hf') as ((_ & _ & [HN' _] & _ & _ & Hfound') & _).
    split.
    + intros Ht%HN'. rewrite Hfound' in Hnf. by apply bool_decide_eq_false in Hnf.
    + destruct (nextFrontier f') as [|y l] eqn:E; [done|]. exists y. apply HN'.
      left.
Qed.

(** The end word is discovered on no level but the one of the last frame,
    and there only if that frame has [found]. *)
Lemma tgt_level fs k f j :
  String.length src = String.length tgt →
  frames beginWord endWord ws = Returned fs →
  length fs = S k → fs !! k = Some f →
  lev nbrs src (S j) tgt → j = k ∧ found f = true.
Proof.
  intros Hlen Hret Hk Hf Hlev.
  destruct (frames_Returned fs Hlen Hret) as (_ & _ & _ & Hfs).
  assert (∀ i f', fs !! i = Some f' → lev nbrs src (S i) tgt → found f' = true) as Hfound.
  { intros i f' Hf' Hl. destruct (Hfs i f' Hf') as ((_ & _ & [Hn _] & _ & _ & ->) & _).
    apply bool_decide_eq_true, Hn, Hl. }
  destruct (lt_eq_lt_dec j k) as [[Hlt| ->]|Hgt].
  - destruct (lookup_lt_is_Some_2 fs j) as [f' Hf']; [lia|].
    destruct (Hfs j f' Hf') as (_ & Hmid & _). destruct Hmid as [Hmid _]; [lia|].
    rewrite (Hfound j f' Hf' Hlev) in Hmid. done.
  - eauto.
  - destruct (Hfs k f Hf) as ((_ & _ & [Hn _] & _) & _ & Hend).
    destruct Hend as [Hend|Hend]; [lia| |].
    + pose proof (Hfs k f Hf) as ((_ & _ & _ & _ & _ & Hfd) & _).
      rewrite Hfd in Hend. apply bool_decide_eq_true, Hn in Hend.
      assert (S j = S k) by (by eapply lev_unique). lia.
    + destruct (lev_empty nbrs src (S k) (S j) tgt); [|lia|done].
      intros u Hu%Hn. rewrite Hend in Hu. by apply elem_of_nil in Hu.
Qed.

(** The parent map that the reconstruction reads. *)
Lemma finalParents_ok fs :
  frames beginWord endWord ws = Returned fs →
  parentSets (finalParents fs) ∧ closedParents (finalParents fs) src
  ∧ cleanKeys (finalParents fs).
Proof.
  intros Hret. unfold finalParents. destruct (last fs) as [f|] eqn:Hlast.
  2:{ split_and!; intros ?; intros; by rewrite lookup_empty in *. }
  destruct (decide (String.length src = String.length tgt)) as [Hlen|Hlen].
  2:{ rewrite frames_mismatch in Hret by done. by injection Hret as <-. }
  destruct (frames_last fs Hlen Hret) as (k & f' & _ & _ & Hl & Hok & _ & _ & Hc).
  rewrite Hlast in Hl. injection Hl as <-.
  destruct Hok as (_ & _ & _ & _ & HP & _). pose proof HP as (HP1 & HP2 & HP3).
  split_and!; [done| |by eapply parentsOk_cleanKeys].
  intros w ps p Hw Hp.
  assert (p ∈ default [] (parentsSnapshot f !! w)) as Hin by (by rewrite Hw).
  apply HP1 in Hin as (j & Hj & Hlp & _). destruct j as [|j].
  - left. by apply lev_0 in Hlp.
  - right. apply HP2. exists (S j). split; [lia|done].
Qed.
End engine.

(** ** The reconstruction on any parent map *)

Lemma sort_singleton {A} (cmp : A → A → comparison) (x : A) : sort cmp [x] = [x].
Proof. done. Qed.

Section reconstruct.
Context (par : gmap string (list string)) (beginWord endWord : string).
Implicit Types (q c : list string).

Notation src := (toLowerCase beginWord).
Notation tgt := (toLowerCase endWord).

(** [dfs] ends within the fuel that [allPaths] passes, and more fuel
    changes nothing. *)
Lemma allPathsFuel_allPaths fuel :
  length (parentWords par) < fuel →
  allPathsFuel fuel par beginWord endWord = allPaths par beginWord endWord
  ∧ allPaths par beginWord endWord ≠ OutOfFuel.
Proof.
  intros Hfuel. unfold allPaths, allPathsFuel.
  assert (dfs (S (length (parentWords par))) par src tgt
            (mkDfs [tgt] (set_add [] tgt) []) ≠ OutOfFuel) as Hne.
  { apply dfs_total. simpl. apply Nat.lt_succ_r, length_filter. }
  rewrite (dfs_fuel par src _ fuel _ _ Hne) by lia.
  destruct (getProp par tgt); [|split; [done|]..|done];
    destruct (dfs _ _ _ _ _); done.
Qed.

(** The paths returned: the chains from the end word, turned around. *)
Lemma allPaths_Returned l :
  allPaths par beginWord endWord = Returned l →
  Sorted (cmpLe pathCompare) l
  ∧ (parentSets par → NoDup l)
  ∧ ∀ q, q ∈ l ↔ getProp par tgt ≠ Undefined
                  ∧ ∃ c, chain par src [tgt] tgt c ∧ q = reverse (tgt :: c).
Proof.
  unfold allPaths, allPathsFuel.
  assert (∀ st, dfs (S (length (parentWords par))) par src tgt
                  (mkDfs [tgt] (set_add [] tgt) []) = Returned st →
                getProp par tgt ≠ Undefined →
                Sorted (cmpLe pathCompare) (sort pathCompare (res st))
                ∧ (parentSets par → NoDup (sort pathCompare (res st)))
                ∧ ∀ q, q ∈ sort pathCompare (res st)
                   ↔ getProp par tgt ≠ Undefined
                     ∧ ∃ c, chain par src [tgt] tgt c ∧ q = reverse (tgt :: c)) as H.
  { intros st (new & -> & Hnew & Hnd)%dfs_spec Hg. simpl in *. split_and!.
    - apply sort_Sorted, pathCompare_antisym.
    - intros Hp. rewrite sort_Permutation. auto.
    - intros q. rewrite sort_Permutation, Hnew. naive_solver. }
  destruct (getProp par tgt) as [ps| |] eqn:Hg.
  - destruct (dfs _ _ _ _ _) as [st| |] eqn:Hd; simpl; [|done..].
    intros [= <-]. by apply H.
  - destruct (dfs _ _ _ _ _) as [st| |] eqn:Hd; simpl; [|done..].
    intros [= <-]. by apply H.
  - intros [= <-]. split_and!; [constructor|by constructor|].
    intros q. rewrite elem_of_nil. naive_solver.
Qed.

(** On the parent map of a search, the reconstruction throws only for an
    end word that has no entry, goes by an inherited name and is not the
    begin word. *)
Lemma allPaths_Thrown :
  closedParents par src →
  allPaths par beginWord endWord = Thrown →
  par !! tgt = None ∧ inheritedName tgt ∧ tgt ≠ src.
Proof.
  intros Hclosed. unfold allPaths, allPathsFuel.
  destruct (getProp par tgt) as [ps| |] eqn:Hg; [| |done].
  - apply getProp_OwnSet in Hg.
    pose proof (dfs_no_throw par src (S (length (parentWords par))) tgt
                  (mkDfs [tgt] (set_add [] tgt) []) Hclosed ltac:(eauto)) as Hn.
    destruct (dfs _ _ _ _ _); done.
  - apply getProp_Inherited in Hg as [Hnone Hin]. intros H.
    split_and!; [done..|]. intros Heq. simpl in H.
    rewrite decide_True in H by done. done.
Qed.

Lemma allPaths_Undefined :
  getProp par tgt = Undefined → allPaths par beginWord endWord = Returned [].
Proof. intros Hg. unfold allPaths, allPathsFuel. by rewrite Hg. Qed.

Lemma allPaths_Inherited :
  getProp par tgt = Inherited →
  allPaths par beginWord endWord
  = if decide (tgt = src) then Returned [[tgt]] else Thrown.
Proof.
  intros Hg. unfold allPaths, allPathsFuel. rewrite Hg. simpl.
  case_decide; [done|]. by rewrite Hg.
Qed.
End reconstruct.

(** ** The path list *)

Section pathList.
Context (beginWord endWord : string) (ws : list string).
Implicit Types (u v w : string) (q c : list string) (f : BFSFrame).
Implicit Types (fs : list BFSFrame) (l : list (list string)).

Notation src := (toLowerCase beginWord).
Notation tgt := (toLowerCase endWord).
Notation nbrs := (getNeighbors ws beginWord).

Lemma pathList_Returned_inv l :
  pathList beginWord endWord ws = Returned l →
  ∃ fs, frames beginWord endWord ws = Returned fs
        ∧ allPaths (finalParents fs) beginWord endWord = Returned l.
Proof.
  unfold pathList. destruct (frames beginWord endWord ws) as [fs| |]; simpl; [|done..].
  eauto.
Qed.

Lemma pathList_not_OutOfFuel : pathList beginWord endWord ws ≠ OutOfFuel.
Proof.
  unfold pathList.
  pose proof (proj2 (framesFuel_frames beginWord endWord ws _ (Nat.lt_succ_diag_r _))).
  destruct (frames beginWord endWord ws) as [fs| |]; simpl; [|done..].
  apply (allPathsFuel_allPaths _ _ _ (S (length (parentWords (finalParents fs))))). lia.
Qed.

(** The begin word has no entry in the parent map. *)
Lemma finalParents_src fs :
  frames beginWord endWord ws = Returned fs → finalParents fs !! src = None.
Proof.
  intros Hret. unfold finalParents. destruct (last fs) as [f|] eqn:Hlast; [|done].
  destruct (decide (String.length src = String.length tgt)) as [Hlen|Hlen].
  2:{ rewrite frames_mismatch in Hret by done. by injection Hret as <-. }
  destruct (frames_last _ _ _ fs Hlen Hret) as (k & f' & _ & _ & Hl & Hok & _).
  rewrite Hlast in Hl. injection Hl as <-.
  destruct Hok as (_ & _ & _ & _ & (_ & HP & _) & _).
  apply eq_None_not_Some. intros (j & Hj & Hlev%lev_src)%HP. lia.
Qed.

(** The path list holds the descents from the end word, turned around:
    the walks from the begin word to the end word that are as short as
    any, when the end word is to be found on a level behind the first.
    If the end word is the begin word and goes by an inherited name, the
    list holds the path of that one word. *)
Lemma elem_of_pathList l q :
  pathList beginWord endWord ws = Returned l →
  q ∈ l ↔ (∃ j c, descent nbrs src (S j) tgt c ∧ q = reverse (tgt :: c))
          ∨ (q = [tgt] ∧ tgt = src ∧ inheritedName tgt).
Proof.
  intros (fs & Hret & Hall)%pathList_Returned_inv.
  destruct (allPaths_Returned _ _ _ _ Hall) as (_ & _ & ->).
  pose proof (finalParents_src fs Hret) as Hsrc.
  destruct (decide (String.length src = String.length tgt)) as [Hlen|Hlen].
  2:{ rewrite frames_mismatch in Hret by done. injection Hret as <-.
      change (finalParents []) with (∅ : gmap string (list string)) in *.
      split.
      - intros [Hg (c & Hc & ->)]. exfalso.
        destruct (getProp ∅ tgt) as [ps| |] eqn:Hp; [|clear Hg|done].
        + apply getProp_OwnSet in Hp. by rewrite lookup_empty in Hp.
        + rewrite (allPaths_Inherited _ _ _ Hp) in Hall.
          case_decide as Heq; [|done]. by rewrite Heq in Hlen.
      - intros [(j & c & [Hr _]%descent_lev & _)|(_ & Heq & _)].
        + by apply reach_length in Hr.
        + by rewrite Heq in Hlen. }
  destruct (frames_last _ _ _ fs Hlen Hret) as (k & f & Hk & Hf & Hl & Hok & Hend & Hmid & _).
  pose proof Hok as (_ & _ & _ & _ & HP & _). pose proof HP as (_ & HP2 & _).
  assert (finalParents fs = parentsSnapshot f) as Hfp.
  { unfold finalParents. by rewrite Hl. }
  rewrite Hfp in *.
  split.
  - intros [Hg (c & Hc & ->)]. destruct (decide (tgt = src)) as [Heq|Hne].
    + right. rewrite Heq in Hc. apply chain_src_inv in Hc as ->.
      split_and!; [done..|].
      destruct (getProp (parentsSnapshot f) tgt) as [ps| |] eqn:Hp; [| |done].
      * apply getProp_OwnSet in Hp. rewrite Heq in Hp. congruence.
      * by apply getProp_Inherited in Hp as [_ ?].
    + left. inversion Hc as [|? ? ps p c' _ Hps]; simplify_eq.
      assert (is_Some (parentsSnapshot f !! tgt)) as (j & Hj & Hlev)%HP2 by eauto.
      destruct j as [|j]; [lia|]. exists j, (p :: c'). split; [|done].
      eapply chain_descent; [done| |done| |done]; [lia|].
      intros x ->%list_elem_of_singleton. eauto.
  - intros [(j & c & Hd & ->)|(-> & Heq & Hin)].
    + pose proof (descent_lev _ _ _ _ _ Hd) as Hlev.
      destruct (tgt_level _ _ _ fs k f j Hlen Hret Hk Hf Hlev) as [-> Hfound].
      assert (is_Some (parentsSnapshot f !! tgt)) as [ps Hps].
      { apply HP2. exists (S k). split; [lia|done]. }
      split; [by rewrite (getProp_Some _ _ _ Hps)|].
      exists c. split; [|done].
      eapply chain_descent; [done| |done| |done]; [lia|].
      intros x ->%list_elem_of_singleton. eauto.
    + split.
      * rewrite Heq. unfold getProp. rewrite Hsrc. by rewrite <-Heq, (Is_true_true_1 _ Hin).
      * exists []. split; [|done]. rewrite Heq. constructor.
Qed.

Lemma NoDup_pathList l : pathList beginWord endWord ws = Returned l → NoDup l.
Proof.
  intros (fs & Hret & Hall)%pathList_Returned_inv.
  destruct (allPaths_Returned _ _ _ _ Hall) as (_ & Hnd & _).
  apply Hnd, (finalParents_ok _ _ _ _ Hret).
Qed.




Lemma pathList_Thrown :
  pathList beginWord endWord ws = Thrown →
  (String.length src = String.length tgt ∧ ∃ k, throwsAt nbrs src tgt k)
  ∨ (inheritedName tgt ∧ tgt ≠ src).
Proof.
  unfold pathList. destruct (frames beginWord endWord ws) as [fs| |] eqn:Hret; simpl.
  - intros (_ & ? & ?)%allPaths_Thrown; [by right|].
    apply (finalParents_ok _ _ _ _ Hret).
  - intros _. left. by apply frames_Thrown.
  - done.
Qed.

(** A path of the list, unless it is the path of the one word that is the
    begin word, the end word and an inherited name: the last frame has
    [found], and the path has two words more than the number of that
    frame. *)
Lemma pathList_found l q :
  pathList beginWord endWord ws = Returned l → q ∈ l →
  (q = [tgt] ∧ tgt = src ∧ inheritedName tgt)
  ∨ ∃ fs k f,
      frames beginWord endWord ws = Returned fs
      ∧ length fs = S k ∧ fs !! k = Some f ∧ found f = true
      ∧ (∀ i f', i < k → fs !! i = Some f' → found f' = false)
      ∧ length q = k + 2
      ∧ head q = Some src ∧ last q = Some tgt
      ∧ chained (λ a b, b ∈ nbrs a) q
      ∧ ∀ i x, q !! i = Some x → lev nbrs src i x.
Proof.
  intros Hl Hq. pose proof Hl as (fs & Hret & _)%pathList_Returned_inv.
  apply (elem_of_pathList l q Hl) in Hq as [(j & c & Hd & ->)|?]; [right|by left].
  assert (String.length src = String.length tgt) as Hlen.
  { apply descent_lev in Hd as [Hr _]. by apply reach_length in Hr. }
  destruct (frames_last _ _ _ fs Hlen Hret) as (k & f & Hk & Hf & _ & Hok & Hend & Hmid & _).
  destruct (tgt_level _ _ _ fs k f j Hlen Hret Hk Hf (descent_lev _ _ _ _ _ Hd))
    as [-> Hfound].
  exists fs, k, f. split_and!; [done..| | | | | |].
  - intros i f' Hi Hf'. by destruct (Hmid i f' Hi Hf').
  - rewrite length_reverse. simpl. rewrite (descent_length _ _ _ _ _ Hd). lia.
  - rewrite <-last_reverse, reverse_involutive. by eapply descent_last.
  - rewrite <-head_reverse, reverse_involutive. done.
  - by apply chained_reverse, (descent_chained _ _ _ _ _ Hd).
  - intros i x Hx. pose proof (lookup_lt_Some _ _ _ Hx) as Hi.
    pose proof (descent_length _ _ _ _ _ Hd) as Hc.
    rewrite length_reverse in Hi. simpl in Hi.
    rewrite reverse_lookup in Hx by done. simpl in Hx. rewrite Hc in Hi, Hx.
    destruct (decide (i = S k)) as [->|Hne].
    + rewrite Nat.sub_diag in Hx. injection Hx as <-. by eapply descent_lev.
    + replace (S k - i) with (S (k - i)) in Hx by lia. simpl in Hx.
      apply (descent_lookup _ _ _ _ _ _ _ Hd) in Hx.
      by replace (S k - S (k - i)) with i in Hx by lia.
Qed.

(** The words of a returned path have the length of the begin word, and
    the paths of one list have one length. *)
Lemma pathList_shape l :
  pathList beginWord endWord ws = Returned l →
  ∃ m, ∀ q, q ∈ l →
    Forall (λ w, String.length w = String.length src) q ∧ length q = m.
Proof.
  intros Hl. pose proof Hl as (fs & Hret & _)%pathList_Returned_inv.
  exists (if decide (tgt = src) then 1 else S (length fs)). intros q Hq.
  destruct (pathList_found l q Hl Hq)
    as [(-> & Heq & _)|(fs' & k & f & Hret' & Hk & _ & _ & _ & Hlen & _ & Hlast & _ & Hlev)].
  - rewrite decide_True by done. split; [|done]. repeat constructor. by rewrite Heq.
  - rewrite Hret in Hret'. injection Hret' as <-.
    rewrite decide_False.
    + split; [|lia]. apply Forall_lookup. intros i x Hx.
      apply Hlev in Hx as [Hr _]. by eapply reach_length.
    + intros Heq. rewrite last_lookup, Hlen in Hlast.
      replace (k + 2) with (S (S k)) in Hlast by lia. simpl in Hlast.
      apply Hlev in Hlast. rewrite Heq in Hlast. by apply lev_src in Hlast.
Qed.
End pathList.

(** ** Independence of the order of the word list and of the parent sets *)

Section words.
Implicit Types (tokens : list string) (w : string).

Lemma elem_of_words tokens endWord w :
  w ∈ words tokens endWord
  ↔ (w ≠ EmptyString ∧ ∃ t, t ∈ tokens ∧ w = toLowerCase (trim t))
    ∨ w = toLowerCase endWord.
Proof.
  unfold words. set (l := filter _ _).
  assert (w ∈ l ↔ w ≠ EmptyString ∧ ∃ t, t ∈ tokens ∧ w = toLowerCase (trim t)) as Hl.
  { unfold l. rewrite list_elem_of_filter, list_elem_of_fmap. naive_solver. }
  unfold set_has. case_bool_decide as He; simpl.
  - rewrite elem_of_foldl_set_add, elem_of_nil, Hl. split; [naive_solver|].
    intros [?| ->]; [by right|].
    apply elem_of_foldl_set_add in He as [[]%elem_of_nil|He]. right. by apply Hl.
  - rewrite elem_of_set_add, elem_of_foldl_set_add, elem_of_nil, Hl. naive_solver.
Qed.

Lemma endWord_in_words tokens endWord : toLowerCase endWord ∈ words tokens endWord.
Proof. apply elem_of_words. by right. Qed.

Lemma NoDup_words tokens endWord : NoDup (words tokens endWord).
Proof.
  unfold words. destruct (negb _).
  - apply NoDup_set_add, NoDup_foldl_set_add. constructor.
  - apply NoDup_foldl_set_add. constructor.
Qed.

End words.

Section unique.
Implicit Types (l : list (list string)) (q : list string).

End unique.

Section chain_ext.
Context (par par' : gmap string (list string)) (src : string).



End chain_ext.

(** ** Walks of the search and transformation sequences *)

Section ladder.
Context (beginWord endWord : string) (ws : list string).
Implicit Types (u v w : string) (p q c : list string).

Notation src := (toLowerCase beginWord).
Notation tgt := (toLowerCase endWord).
Notation nbrs := (getNeighbors ws beginWord).

Lemma tail_interior p e w :
  last p = Some e → w ∈ tail p → w ∈ interior p ∨ w = e.
Proof.
  destruct p as [|a rest]; simpl; [by intros _ ?%elem_of_nil|].
  unfold interior. simpl. destruct rest as [|b rest]; [by intros _ ?%elem_of_nil|].
  rewrite last_cons_cons. intros (l' & ->)%last_Some.
  rewrite removelast_last, elem_of_app, list_elem_of_singleton. done.
Qed.

Lemma interior_tail p w : w ∈ interior p → w ∈ tail p.
Proof.
  unfold interior. generalize (tail p). intros l.
  induction l as [|a [|b l] IH]; simpl; [done|by intros ?%elem_of_nil|].
  simpl in IH. intros [->|?]%elem_of_cons; [left|right; auto].
Qed.

(** A step of a ladder into the index is a step of the search. *)
Lemma step_edge u v :
  String.length u = wordLen beginWord → v ∈ ws → oneLetterApart u v → v ∈ nbrs u.
Proof.
  intros Hu Hv [Hlen Hham]. apply elem_of_getNeighbors. split_and!.
  - intros ->. by apply hamming_1_ne in Hham.
  - done.
  - left. split; [done|congruence].
  - destruct (hamming_1_patternKey u v Hlen Hham) as (i & Hi & Hk).
    exists i, i. split_and!; [lia..|done].
Qed.

Lemma steps_walk p :
  (∀ w, head p = Some w → String.length w = wordLen beginWord) →
  (∀ w, w ∈ tail p → w ∈ ws) →
  chained oneLetterApart p → chained (λ a b, b ∈ nbrs a) p.
Proof.
  induction p as [|a [|b p] IH]; [done..|]. intros Hhd Htl [Hab Hch].
  split.
  - apply step_edge; [by apply Hhd|apply Htl; left|done].
  - apply IH; [|intros w Hw; apply Htl; by right|done].
    intros w [= <-]. destruct Hab as [<- _]. by apply Hhd.
Qed.

Lemma transformation_walk p :
  tgt ∈ ws → transformation ws src tgt p → chained (λ a b, b ∈ nbrs a) p.
Proof.
  intros Ht (Hhd & Hlast & Hch & Hint). apply steps_walk; [| |done].
  - rewrite Hhd. intros w [= <-]. apply length_toLowerCase.
  - intros w [Hw| ->]%(tail_interior _ tgt); [|done..].
    by eapply Forall_forall in Hint.
Qed.

(** A transformation sequence of [n + 1] words is a walk of [n] steps. *)
Lemma transformation_reach p :
  tgt ∈ ws → transformation ws src tgt p →
  ∃ n, length p = S n ∧ reach nbrs src n tgt.
Proof.
  intros Ht Htr. pose proof (transformation_walk p Ht Htr) as Hwalk.
  destruct Htr as (Hhd & Hlast & _).
  rewrite <-head_reverse in Hlast. rewrite <-last_reverse in Hhd.
  destruct (reverse p) as [|x c] eqn:Hr; [done|]. injection Hlast as ->.
  exists (length c). split.
  - by rewrite <-(length_reverse p), Hr.
  - apply walk_reach; [done|]. rewrite <-Hr.
    by apply (chained_reverse (λ a b, a ∈ nbrs b)).
Qed.

Section starFree.
Hypothesis src_starFree : starFree src.
Hypothesis ws_starFree : Forall (λ w, starFree w) ws.

(** Where no word holds the wildcard marker, a step of the search changes
    exactly one letter. *)
Lemma edge_step k u v : reach nbrs src k u → v ∈ nbrs u → oneLetterApart u v.
Proof.
  intros Hu Hv. pose proof (reach_length _ _ _ _ Hu) as Hlen.
  rewrite length_toLowerCase in Hlen.
  assert (∀ x, x = src ∨ x ∈ ws → starFree x) as Hsf.
  { intros x [->|Hx]; [done|]. by eapply Forall_forall in ws_starFree. }
  pose proof (Hsf u (reach_pool _ _ _ _ Hu)) as Hsu.
  pose proof (Hsf v (reach_pool beginWord ws (S k) v ltac:(simpl; eauto))) as Hsv.
  apply elem_of_getNeighbors in Hv as (Hne & Hl & _ & i & j & Hi & Hj & Hk).
  unfold wordLen in *.
  assert (i = j) as <-.
  { eapply (patternKey_starFree u v); [done..|lia|lia|done]. }
  split; [done|]. apply (patternKey_same_pos u v i); [done|lia|done|done].
Qed.

Lemma reach_transformation k v :
  reach nbrs src k v →
  ∃ p, head p = Some src ∧ last p = Some v ∧ chained oneLetterApart p
       ∧ (∀ w, w ∈ tail p → w ∈ ws) ∧ length p ≤ S k.
Proof.
  revert v. induction k as [|k IH]; intros v.
  { simpl. intros ->. exists [src]. split_and!; [done..| |done].
    by intros w ?%elem_of_nil. }
  intros (u & Hu & Hv). destruct (decide (v = src)) as [->|Hne].
  { exists [src]. split_and!; [done..| |simpl; lia]. by intros w ?%elem_of_nil. }
  destruct (IH u Hu) as (p & Hhd & Hlast & Hch & Htl & Hlen).
  apply last_Some in Hlast as (l & ->).
  exists ((l ++ [u]) ++ [v]). split_and!.
  - by destruct l.
  - apply last_snoc.
  - apply chained_snoc; [done|]. by eapply edge_step.
  - intros w Hw. destruct l as [|a l]; simpl in *.
    + apply list_elem_of_singleton in Hw as ->.
      by destruct (getNeighbors_pool _ _ _ _ Hv).
    + rewrite <-app_assoc in Hw. apply elem_of_app in Hw as [Hw|Hw].
      * apply Htl. apply elem_of_app. by left.
      * apply elem_of_cons in Hw as [->|Hw].
        -- apply Htl. apply elem_of_app. right. left.
        -- apply list_elem_of_singleton in Hw as ->.
           by destruct (getNeighbors_pool _ _ _ _ Hv).
  - rewrite length_app. simpl. lia.
Qed.

(** Completeness: every shortest transformation sequence is in the path
    list. *)
Lemma shortest_in_pathList p l :
  tgt ∈ ws → src ≠ tgt → shortestTransformation ws src tgt p →
  pathList beginWord endWord ws = Returned l → p ∈ l.
Proof.
  intros Ht Hne [Htr Hmin] Hl. pose proof (transformation_walk p Ht Htr) as Hwalk.
  pose proof Htr as (Hhd & Hlast & _).
  rewrite <-head_reverse in Hlast. rewrite <-last_reverse in Hhd.
  destruct (reverse p) as [|x c] eqn:Hr; [done|]. injection Hlast as ->.
  assert (chained (λ a b, a ∈ nbrs b) (tgt :: c)) as Hch.
  { rewrite <-Hr. by apply (chained_reverse (λ a b, a ∈ nbrs b)). }
  assert (length p = S (length c)) as Hlen by (by rewrite <-(length_reverse p), Hr).
  destruct c as [|y c]; [simpl in Hhd; congruence|].
  apply (elem_of_pathList _ _ _ l p Hl). left. exists (length c), (y :: c). split.
  - apply (walk_descent nbrs src tgt (y :: c)); [done..|]. split.
    + by apply walk_reach.
    + intros j Hj Hrj.
      destruct (reach_transformation j tgt Hrj) as (p' & ? & ? & ? & Htl & Hlen').
      assert (transformation ws src tgt p') as Htr'.
      { split_and!; [done..|]. apply Forall_forall. intros w Hw.
        by apply Htl, interior_tail. }
      apply Hmin in Htr'. simpl in *. lia.
  - by rewrite <-Hr, reverse_involutive.
Qed.
End starFree.

(** No transformation sequence is shorter than a path of the list. *)
Lemma pathList_shortest l q p :
  tgt ∈ ws → pathList beginWord endWord ws = Returned l → q ∈ l →
  transformation ws src tgt p → length q ≤ length p.
Proof.
  intros Ht Hl Hq Htr. destruct (transformation_reach p Ht Htr) as (n & -> & Hn).
  destruct (pathList_found _ _ _ l q Hl Hq)
    as [(-> & _)|(fs & k & f & _ & _ & _ & _ & _ & Hlen & _ & Hlast & _ & Hlev)].
  { simpl. lia. }
  rewrite last_lookup, Hlen in Hlast. replace (k + 2) with (S (S k)) in Hlast by lia.
  simpl in Hlast. apply Hlev in Hlast as [_ Hmin].
  destruct (decide (n < S k)) as [Hlt|]; [|lia]. by destruct (Hmin n Hlt).
Qed.

(** Where no word of the word array goes by an inherited name, and the end
    word is among them, the path list is returned. *)
Lemma pathList_clean :
  Forall (λ w, ¬ inheritedName w) ws → tgt ∈ ws →
  ∃ l, pathList beginWord endWord ws = Returned l.
Proof.
  intros Hclean Ht. rewrite Forall_forall in Hclean.
  destruct (pathList beginWord endWord ws) as [l| |] eqn:Hl; [by eauto| |].
  - exfalso. apply pathList_Thrown in Hl as [[_ (k & (v & Hv & Hin) & _)]|[Hin _]].
    + pose proof Hv as [[->|Hws]%reach_pool _].
      * by apply lev_src in Hv.
      * by apply (Hclean v).
    + by apply (Hclean tgt).
  - by apply pathList_not_OutOfFuel in Hl.
Qed.
End ladder.

(** ** Facts about the frames *)

Lemma linked_lookup vis fr (fs : list BFSFrame) i f :
  linked vis fr fs → fs !! i = Some f →
  visitedSnapshot f
  = match i with
    | 0 => vis
    | S i' => from_option visitedSnapshot [] (fs !! i')
    end ++ nextFrontier f
  ∧ frontier f
    = match i with
      | 0 => fr
      | S i' => from_option nextFrontier [] (fs !! i')
      end.
Proof.
  revert vis fr i. induction fs as [|f0 fs IH]; intros vis fr i; [by rewrite lookup_nil|].
  simpl. intros (Hfr & Hvis & Hlink). destruct i as [|i]; simpl.
  - by intros [= <-].
  - intros Hf. destruct (IH _ _ i Hlink Hf) as [-> ->]. by destruct i.
Qed.


Section frames.
Context (beginWord endWord : string) (ws : list string) (fs : list BFSFrame).
Hypothesis frames_fs : frames beginWord endWord ws = Returned fs.
Implicit Types (u v w : string) (q c : list string) (f : BFSFrame).

Notation src := (toLowerCase beginWord).
Notation tgt := (toLowerCase endWord).
Notation nbrs := (getNeighbors ws beginWord).

Lemma frames_frameOk i f : fs !! i = Some f → frameOk nbrs src tgt i f.
Proof.
  intros Hf. destruct (decide (String.length src = String.length tgt)) as [Hlen|Hlen].
  - destruct (frames_Returned beginWord endWord ws fs Hlen frames_fs) as (_ & _ & _ & Hfs).
    by destruct (Hfs i f Hf).
  - rewrite frames_mismatch in frames_fs by done. injection frames_fs as <-.
    by rewrite lookup_nil in Hf.
Qed.

Lemma frames_linked : linked [src] [src] fs.
Proof.
  destruct (decide (String.length src = String.length tgt)) as [Hlen|Hlen].
  - by destruct (frames_Returned beginWord endWord ws fs Hlen frames_fs) as (? & _).
  - rewrite frames_mismatch in frames_fs by done. by injection frames_fs as <-.
Qed.

Lemma visitedBefore_spec i f v :
  fs !! i = Some f →
  v ∈ visitedBefore src fs i ↔ ∃ j, j ≤ i ∧ reach nbrs src j v.
Proof.
  intros Hf. destruct i as [|i]; simpl.
  - rewrite list_elem_of_singleton. split.
    + intros ->. by exists 0.
    + intros (j & Hj & Hr). by assert (j = 0) as -> by lia.
  - destruct (lookup_lt_is_Some_2 fs i) as [f' Hf'].
    { apply lookup_lt_Some in Hf. lia. }
    rewrite Hf'. simpl.
    by destruct (frames_frameOk i f' Hf') as (_ & _ & _ & [Hv _] & _).
Qed.

Lemma frames_visited i f :
  fs !! i = Some f →
  visitedSnapshot f = visitedBefore src fs i ++ nextFrontier f.
Proof. intros Hf. by destruct (linked_lookup _ _ _ _ _ frames_linked Hf). Qed.

Lemma frames_length : length fs ≤ S (length ws).
Proof.
  pose proof frames_fs as H. unfold frames, framesFuel in H. case_decide.
  - injection H as <-. simpl. lia.
  - by apply bfsLoop_length in H.
Qed.

Lemma pathList_allPaths :
  pathList beginWord endWord ws = allPaths (finalParents fs) beginWord endWord.
Proof. unfold pathList. by rewrite frames_fs. Qed.
End frames.

(** ** The outcome does not depend on the order of the words *)




(** ** The outcome does not depend on the order within the parent sets *)




(** ** Sorting by any comparison function *)


(** * What holds away from the inherited names *)

(** Every path that is returned has as many words as the index of the first
    frame with [found], plus two, the one exception being the path of the one
    word where the begin word is the end word and goes by an inherited
    name. *)
Lemma minimality_clean beginWord endWord (ws : list string) l q :
  pathList beginWord endWord ws = Returned l → q ∈ l →
  ¬ (toLowerCase endWord = toLowerCase beginWord ∧ inheritedName (toLowerCase endWord)) →
  ∃ fs k f,
    frames beginWord endWord ws = Returned fs
    ∧ list_find (λ f, found f = true) fs = Some (k, f)
    ∧ length q = k + 2.
Proof.
  intros Hl Hq Hclean.
  destruct (pathList_found _ _ _ l q Hl Hq)
    as [(_ & Heq & Hin)|(fs & k & f & Hfs & _ & Hf & Hfound & Hbefore & Hlen & _)];
    [by destruct Hclean|].
  exists fs, k, f. split_and!; [done| |done].
  apply list_find_Some. split_and!; [done..|].
  intros j y Hy Hj. rewrite (Hbefore j y Hj Hy). done.
Qed.

(** For a begin word and an end word of different lengths the frame sequence
    is empty; the path list is empty unless the end word goes by an inherited
    name, and then the reconstruction throws. *)
Lemma length_mismatch_clean beginWord endWord (ws : list string) :
  String.length beginWord ≠ String.length endWord →
  frames beginWord endWord ws = Returned []
  ∧ pathList beginWord endWord ws
    = if inheritedName (toLowerCase endWord) then Thrown else Returned [].
Proof.
  intros Hlen.
  assert (String.length (toLowerCase beginWord) ≠ String.length (toLowerCase endWord))
    as Hlen' by (by rewrite !length_toLowerCase).
  assert (frames beginWord endWord ws = Returned []) as Hfs by (by apply frames_mismatch).
  split; [done|]. unfold pathList. rewrite Hfs. simpl.
  change (finalParents []) with (∅ : gmap string (list string)).
  destruct (inheritedName (toLowerCase endWord)) eqn:Hin.
  - rewrite allPaths_Inherited.
    + rewrite decide_False; [done|]. intros Heq. apply Hlen'. by rewrite Heq.
    + apply getProp_Inherited. split; [apply lookup_empty|]. rewrite Hin. exact I.
  - apply allPaths_Undefined, getProp_Undefined.
    split; [apply lookup_empty|]. rewrite Hin. intros [].
Qed.

(** Where the begin word is the end word, no frame that is returned has
    [found]; and a path list that is returned is empty unless the word goes
    by an inherited name. *)
Lemma begin_equals_end_clean beginWord endWord (ws : list string) :
  toLowerCase beginWord = toLowerCase endWord →
  (∀ fs f, frames beginWord endWord ws = Returned fs → f ∈ fs → found f = false)
  ∧ (¬ inheritedName (toLowerCase endWord) →
     ∀ l, pathList beginWord endWord ws = Returned l → l = []).
Proof.
  intros Heq. split.
  - intros fs f Hret [i Hf]%list_elem_of_lookup.
    pose proof (frames_frameOk _ _ _ _ Hret _ _ Hf) as (_ & _ & [HN _] & _ & _ & ->).
    apply bool_decide_eq_false. rewrite <-Heq. intros Hn%HN. by apply lev_src in Hn.
  - intros Hclean l Hl. apply elem_of_nil_inv. intros q Hq.
    apply (elem_of_pathList _ _ _ l q Hl) in Hq as [(j & c & Hd & _)|(_ & _ & Hin)]; [|done].
    apply descent_lev in Hd. rewrite <-Heq in Hd. by apply lev_src in Hd.
Qed.

(** * The claims of the specification *)

(** C1, as the specification has it, fails where the begin word is the end
    word: the sequence of that one word is as short as any, and the path list
    is empty. *)
Lemma C1_counterexample :
  ¬ (∀ beginWord endWord (tokens P : list string),
       starFree (toLowerCase beginWord) →
       Forall (λ w, starFree w) (words tokens endWord) →
       Forall (λ w, ¬ inheritedName w) (words tokens endWord) →
       shortestTransformation (words tokens endWord)
         (toLowerCase beginWord) (toLowerCase endWord) P →
       ∃ l, ladders beginWord endWord tokens = Returned l ∧ P ∈ l).
Proof.
  intros H. destruct (H "hit" "hit" ["hot"] ["hit"]) as (l & Hl & Hin).
  - by_evaluation.
  - by_evaluation.
  - by_evaluation.
  - split.
    + split_and!; [reflexivity|reflexivity| |]; by_evaluation.
    + intros p' (Hhd & _). destruct p'; [done|simpl; lia].
  - vm_compute in Hl. injection Hl as <-. by apply elem_of_nil in Hin.
Qed.

(** C1 (completeness of path enumeration), amended.  Let the begin word and
    the end word differ, and let the words be taken over an alphabet without
    the wildcard marker.  Then every shortest transformation sequence from
    the begin word to the end word, each step changing exactly one letter and
    every intermediate word in the dictionary, is in the path list, whenever
    a path list is returned; and one is returned if no word of the dictionary
    goes by a name that plain objects inherit.  For hit, cog and hot, dot,
    dog, lot, log, cog the path list is exactly the two ladders of five
    words. *)
Theorem C1_completeness :
  (∀ beginWord endWord (tokens P : list string),
     starFree (toLowerCase beginWord) →
     Forall (λ w, starFree w) (words tokens endWord) →
     toLowerCase beginWord ≠ toLowerCase endWord →
     shortestTransformation (words tokens endWord)
       (toLowerCase beginWord) (toLowerCase endWord) P →
     (∀ l, ladders beginWord endWord tokens = Returned l → P ∈ l)
     ∧ (Forall (λ w, ¬ inheritedName w) (words tokens endWord) →
        ∃ l, ladders beginWord endWord tokens = Returned l))
  ∧ ladders "hit" "cog" ["hot"; "dot"; "dog"; "lot"; "log"; "cog"]
    = Returned [["hit"; "hot"; "dot"; "dog"; "cog"];
                ["hit"; "hot"; "lot"; "log"; "cog"]].
Proof.
  split.
  - intros beginWord endWord tokens P Hsrc Hws Hne Hshort. unfold ladders. split.
    + intros l Hl.
      by apply (shortest_in_pathList beginWord endWord (words tokens endWord)
                  Hsrc Hws P l (endWord_in_words tokens endWord) Hne Hshort).
    + intros Hclean. apply pathList_clean; [done|apply endWord_in_words].
  - vm_compute. reflexivity.
Qed.

Lemma C1_completeness_witness :
  (∀ l, ladders "hit" "cog" ["hot"; "dot"; "dog"; "lot"; "log"; "cog"] = Returned l →
        ["hit"; "hot"; "lot"; "log"; "cog"] ∈ l)
  ∧ (Forall (λ w, ¬ inheritedName w)
       (words ["hot"; "dot"; "dog"; "lot"; "log"; "cog"] "cog") →
     ∃ l, ladders "hit" "cog" ["hot"; "dot"; "dog"; "lot"; "log"; "cog"] = Returned l).
Proof.
  apply (proj1 C1_completeness "hit" "cog").
  - by_evaluation.
  - by_evaluation.
  - by_evaluation.
  - split.
    + split_and!; [reflexivity|reflexivity| |]; by_evaluation.
    + intros p' Hp'.
      apply (pathList_shortest "hit" "cog"
               (words ["hot"; "dot"; "dog"; "lot"; "log"; "cog"] "cog")
               [["hit"; "hot"; "dot"; "dog"; "cog"]; ["hit"; "hot"; "lot"; "log"; "cog"]]
               ["hit"; "hot"; "lot"; "log"; "cog"] p');
        [apply endWord_in_words|vm_compute; reflexivity|by_evaluation|exact Hp'].
Defined.

(** C2 (minimality) fails on the code for an end word that is the begin
    word and goes by a name that plain objects inherit: [finalParents[tgt]]
    is then the inherited property, the guard lets it through, and [dfs]
    returns the path of that one word although no frame has [found]. *)
Theorem C2_inherited_name_path :
  ∃ fs,
    frames "constructor" "constructor" (words [] "constructor") = Returned fs
    ∧ list_find (λ f, found f = true) fs = None
    ∧ ladders "constructor" "constructor" [] = Returned [["constructor"]].
Proof. eexists. split_and!; vm_compute; reflexivity. Qed.

(** C3 (layering invariant).  In every frame that the search emits, a parent
    recorded for a word is in the frontier of the one level that discovered
    the word (the word is in the [nextFrontier] of that frame, that is on the
    level behind) and in the frontier of no other level; and a level
    discovers exactly the neighbors of its frontier that were not visited
    when the level began, the discoveries being marked as visited together,
    behind the ones before.  The check is made against the visited set as it
    stood when the level began: every word of the frontier that has a
    neighbor not visited then is recorded as a parent of that neighbor, also
    where another word of the same frontier has discovered it before, and
    stays recorded in every later frame. *)
Theorem C3_layering beginWord endWord (ws : list string) (fs : list BFSFrame) :
  frames beginWord endWord ws = Returned fs →
  (∀ j fj w ps p,
     fs !! j = Some fj → parentsSnapshot fj !! w = Some ps → p ∈ ps →
     ∃ i fi, i ≤ j ∧ fs !! i = Some fi ∧ level fi = i
             ∧ w ∈ nextFrontier fi ∧ p ∈ frontier fi
             ∧ ∀ i' f', fs !! i' = Some f' →
                 p ∈ frontier f' ∨ w ∈ nextFrontier f' → i' = i)
  ∧ (∀ i f,
       fs !! i = Some f →
       (∀ v, v ∈ nextFrontier f
             ↔ (∃ u, u ∈ frontier f ∧ v ∈ getNeighbors ws beginWord u)
               ∧ v ∉ visitedBefore (toLowerCase beginWord) fs i)
       ∧ visitedSnapshot f
         = visitedBefore (toLowerCase beginWord) fs i ++ nextFrontier f)
  ∧ (∀ i j fi fj u v,
       i ≤ j → fs !! i = Some fi → fs !! j = Some fj →
       u ∈ frontier fi → v ∈ getNeighbors ws beginWord u →
       v ∉ visitedBefore (toLowerCase beginWord) fs i →
       ∃ ps, parentsSnapshot fj !! v = Some ps ∧ u ∈ ps ∧ NoDup ps).
Proof.
  intros Hret. split_and!.
  - intros j fj w ps p Hfj Hps Hp.
    pose proof (frames_frameOk _ _ _ _ Hret _ _ Hfj) as (_ & _ & _ & _ & (HP & _) & _).
    assert (p ∈ default [] (parentsSnapshot fj !! w)) as Hin by (by rewrite Hps).
    apply HP in Hin as (i & Hi & Hlp & Hlw & _).
    destruct (lookup_lt_is_Some_2 fs i) as [fi Hfi].
    { apply lookup_lt_Some in Hfj. lia. }
    pose proof (frames_frameOk _ _ _ _ Hret _ _ Hfi) as (Hlvl & [HF _] & [HN _] & _).
    exists i, fi. split_and!; [lia|done|done|by apply HN|by apply HF|].
    intros i' f' Hf' Hor.
    pose proof (frames_frameOk _ _ _ _ Hret _ _ Hf') as (_ & [HF' _] & [HN' _] & _).
    destruct Hor as [Hp'%HF'|Hw'%HN'].
    + by eapply lev_unique.
    + assert (S i' = S i) by (by eapply lev_unique). lia.
  - intros i f Hf. split; [|by eapply frames_visited].
    pose proof (frames_frameOk _ _ _ _ Hret _ _ Hf) as (_ & [HF _] & [HN _] & _).
    intros v. rewrite HN, lev_S. setoid_rewrite HF.
    rewrite (visitedBefore_spec _ _ _ _ Hret _ _ _ Hf). naive_solver.
  - intros i j fi fj u v Hij Hfi Hfj Hu Hv Hfresh.
    pose proof (frames_frameOk _ _ _ _ Hret _ _ Hfi) as (_ & [HF _] & _).
    pose proof (frames_frameOk _ _ _ _ Hret _ _ Hfj)
      as (_ & _ & _ & _ & (HP & _ & HPd) & _).
    apply HF in Hu. rewrite (visitedBefore_spec _ _ _ _ Hret _ _ _ Hfi) in Hfresh.
    assert (lev (getNeighbors ws beginWord) (toLowerCase beginWord) (S i) v) as Hlv.
    { apply lev_S. split; [by eauto|]. intros k Hk Hr. apply Hfresh. eauto. }
    assert (u ∈ default [] (parentsSnapshot fj !! v)) as Hin.
    { apply HP. exists i. split_and!; [lia|done..]. }
    destruct (parentsSnapshot fj !! v) as [ps|] eqn:Hps; [|by apply elem_of_nil in Hin].
    exists ps. split_and!; [done|done|by eapply HPd].
Qed.

Lemma C3_layering_witness :
  ∃ fs f,
    frames "red" "hot" ["red"; "ted"; "tex"; "rex"; "hex"; "het"; "hot"; "rot"; "tot"]
    = Returned fs
    ∧ fs !! 1 = Some f
    ∧ frontier f = ["ted"; "rex"]
    ∧ ∃ ps, parentsSnapshot f !! "tex" = Some ps ∧ "rex" ∈ ps ∧ NoDup ps.
Proof.
  eexists _, _. split; [vm_compute; reflexivity|]. split; [vm_compute; reflexivity|].
  split; [vm_compute; reflexivity|].
  eapply (proj2 (proj2 (C3_layering "red" "hot"
                          ["red"; "ted"; "tex"; "rex"; "hex"; "het"; "hot"; "rot"; "tot"]
                          _ ltac:(vm_compute; reflexivity)))
            1 1 _ _ "rex" "tex");
    [lia|vm_compute; reflexivity|vm_compute; reflexivity
    |by_evaluation|by_evaluation|by_evaluation].
Defined.



(** C5, as the specification has it, fails where the begin word is itself
    in the dictionary: in the example cat, dog with cat, cot, cog, dog the
    word cat sits twice in the bucket of its first position. *)
Lemma C5_counterexample :
  ¬ (∀ beginWord endWord (tokens : list string) w i,
       w ∈ words tokens endWord → String.length w = wordLen beginWord →
       i < wordLen beginWord →
       occ w (default []
                (patternBuckets (words tokens endWord) beginWord !! patternKey w i))
       = 1).
Proof.
  intros H.
  specialize (H "cat" "dog" ["cat"; "cot"; "cog"; "dog"] "cat" 0
                ltac:(by_evaluation) eq_refl ltac:(by_evaluation)).
  vm_compute in H. discriminate H.
Qed.

(** C5 (pattern buckets), amended.  A word of the word array that has the
    length of the begin word and does not hold the wildcard marker has one
    bucket for each of its positions, different positions having different
    buckets, and is in no other bucket; it is in each of its buckets once,
    but twice if it is the begin word. *)
Theorem C5_pattern_buckets beginWord (ws : list string) w :
  NoDup ws → w ∈ ws → String.length w = wordLen beginWord → starFree w →
  (∀ i, i < wordLen beginWord →
        occ w (default [] (patternBuckets ws beginWord !! patternKey w i))
        = if decide (w = toLowerCase beginWord) then 2 else 1)
  ∧ (∀ i j, i < wordLen beginWord → j < wordLen beginWord →
            patternKey w i = patternKey w j → i = j)
  ∧ (∀ key, w ∈ default [] (patternBuckets ws beginWord !! key) →
            ∃ i, i < wordLen beginWord ∧ key = patternKey w i).
Proof.
  intros Hnd Hw Hlen Hsf.
  assert (∀ i j, i < wordLen beginWord → j < wordLen beginWord →
                 patternKey w i = patternKey w j → i = j) as Hinj.
  { intros i j Hi Hj. apply patternKey_starFree; (done || lia). }
  split_and!; [|done|].
  - intros i Hi. rewrite patternBuckets_occ.
    assert (occ w (filter (λ w0, String.length w0 = wordLen beginWord) ws) = 1) as ->.
    { apply occ_NoDup; [by apply NoDup_filter|]. by apply list_elem_of_filter. }
    assert (keyHits w (wordLen beginWord) (patternKey w i) = [i]) as ->.
    { apply NoDup_one; [apply NoDup_filter, NoDup_seq|]. intros j.
      unfold keyHits. rewrite list_elem_of_filter, elem_of_seq. split.
      - intros [Hk Hj]. apply Hinj; [lia|done|done].
      - intros ->. split; [done|lia]. }
    simpl. case_decide; [rewrite decide_True by done|rewrite decide_False by done]; lia.
  - intros key [_ (i & Hi & <-)]%elem_of_patternBuckets. eauto.
Qed.

Lemma C5_pattern_buckets_witness :
  (∀ i, i < 3 →
        occ "cot" (default [] (patternBuckets ["cat"; "cot"; "cog"; "dog"] "cat"
                                 !! patternKey "cot" i)) = 1)
  ∧ (∀ i j, i < 3 → j < 3 → patternKey "cot" i = patternKey "cot" j → i = j)
  ∧ (∀ key, "cot" ∈ default [] (patternBuckets ["cat"; "cot"; "cog"; "dog"] "cat" !! key) →
            ∃ i, i < 3 ∧ key = patternKey "cot" i).
Proof.
  apply (C5_pattern_buckets "cat" ["cat"; "cot"; "cog"; "dog"] "cot");
    [by_evaluation|by_evaluation|reflexivity|by_evaluation].
Defined.

(** C6, as the specification has it, fails in its second part: a begin word
    without neighbors still gets its frame. *)
Lemma C6_counterexample :
  ¬ (∀ beginWord endWord (tokens : list string),
       String.length beginWord = String.length endWord →
       getNeighbors (words tokens endWord) beginWord (toLowerCase beginWord) = [] →
       frames beginWord endWord (words tokens endWord) = Returned []).
Proof.
  intros H. specialize (H "abc" "xyz" [] eq_refl eq_refl).
  vm_compute in H. discriminate H.
Qed.

(** C6 (exhaustion), amended.  For a begin word and an end word of one
    length, a frame sequence that is returned has a last frame; that frame
    has [found = false] exactly when its [nextFrontier] is empty, which is
    how the loop ends when it has not found the end word, and no frame before
    it has [found].  If the begin word has no neighbors, the frame sequence
    is returned and is the single frame of level 0, with nothing
    discovered. *)
Theorem C6_exhaustion beginWord endWord (ws : list string) :
  String.length beginWord = String.length endWord →
  (∀ fs, frames beginWord endWord ws = Returned fs →
         ∃ f, last fs = Some f
              ∧ (found f = false ↔ nextFrontier f = [])
              ∧ ∀ i f', fs !! i = Some f' → S i < length fs → found f' = false)
  ∧ (getNeighbors ws beginWord (toLowerCase beginWord) = [] →
     frames beginWord endWord ws
     = Returned [ {| level := 0;
                     frontier := [toLowerCase beginWord];
                     nextFrontier := [];
                     visitedSnapshot := [toLowerCase beginWord];
                     parentsSnapshot := ∅;
                     found := false |} ]).
Proof.
  intros Hlen.
  assert (String.length (toLowerCase beginWord) = String.length (toLowerCase endWord))
    as Hlen' by (by rewrite !length_toLowerCase).
  split.
  - intros fs Hret.
    destruct (frames_last beginWord endWord ws fs Hlen' Hret)
      as (k & f & Hk & Hf & Hl & Hok & Hend & Hmid & _).
    exists f. split_and!; [done| |].
    + destruct Hok as (_ & _ & _ & _ & _ & Hfound). split.
      * intros Hf0. destruct Hend as [Hend|Hend]; [congruence|done].
      * intros Hnil. rewrite Hfound, Hnil. apply bool_decide_eq_false, not_elem_of_nil.
    + intros i f' Hf' Hi. apply (Hmid i f'); [lia|done].
  - intros Hnone. unfold frames, framesFuel. rewrite decide_False by naive_solver.
    simpl. unfold expandLevel. simpl. rewrite Hnone. simpl.
    by rewrite bfsLoop_nil.
Qed.

Lemma C6_exhaustion_witness :
  (∀ fs, frames "dog" "cat" ["dog"; "cot"; "cat"] = Returned fs →
         ∃ f, last fs = Some f
              ∧ (found f = false ↔ nextFrontier f = [])
              ∧ ∀ i f', fs !! i = Some f' → S i < length fs → found f' = false)
  ∧ (getNeighbors ["dog"; "cot"; "cat"] "dog" (toLowerCase "dog") = [] →
     frames "dog" "cat" ["dog"; "cot"; "cat"]
     = Returned [ {| level := 0;
                     frontier := [toLowerCase "dog"];
                     nextFrontier := [];
                     visitedSnapshot := [toLowerCase "dog"];
                     parentsSnapshot := ∅;
                     found := false |} ]).
Proof. apply (C6_exhaustion "dog" "cat" ["dog"; "cot"; "cat"]). reflexivity. Defined.

(** C7 (length mismatch) fails on the code for an end word that goes by a
    name that plain objects inherit: the frame sequence is empty, as the
    claim has it, but [finalParents], the empty object, yields the inherited
    property under that name, the guard of [allPaths] lets it through, and
    the loop over it in [dfs] throws. *)
Theorem C7_inherited_name_throws :
  String.length "hit" ≠ String.length "constructor"
  ∧ frames "hit" "constructor" (words ["hot"] "constructor") = Returned []
  ∧ allPaths (finalParents []) "hit" "constructor" = Thrown
  ∧ ladders "hit" "constructor" ["hot"] = Thrown.
Proof. split_and!; [by_evaluation|vm_compute; reflexivity..]. Qed.

(** C8 (begin equals end) fails on the code for a begin word that goes by a
    name that plain objects inherit: the guard of [allPaths] reads the
    inherited property, and [dfs] returns the ladder of the one word. *)
Theorem C8_inherited_name_ladder :
  toLowerCase "constructor" = toLowerCase "constructor"
  ∧ ladders "constructor" "constructor" ["hot"] = Returned [["constructor"]].
Proof. split; [reflexivity|vm_compute; reflexivity]. Qed.

(** C9 (termination).  The loop of the search ends: with more fuel than the
    word array has words the outcome is the same for every fuel, and it is
    not that the fuel has run out.  A frame sequence that is returned has at
    most one frame more than there are words; each of its iterations finds
    the end word, or discovers nothing, or makes the visited set longer; and
    the visited set is duplicate-free and holds the begin word and words of
    the word array only. *)
Theorem C9_termination beginWord endWord (ws : list string) :
  (∀ fuel, length ws < fuel →
           framesFuel fuel beginWord endWord ws = frames beginWord endWord ws)
  ∧ frames beginWord endWord ws ≠ OutOfFuel
  ∧ ∀ fs, frames beginWord endWord ws = Returned fs →
      length fs ≤ S (length ws)
      ∧ ∀ i f, fs !! i = Some f →
          (found f = true ∨ nextFrontier f = []
           ∨ length (visitedBefore (toLowerCase beginWord) fs i)
             < length (visitedSnapshot f))
          ∧ NoDup (visitedSnapshot f)
          ∧ (∀ v, v ∈ visitedSnapshot f → v = toLowerCase beginWord ∨ v ∈ ws)
          ∧ length (visitedSnapshot f) ≤ S (length ws).
Proof.
  split_and!.
  - intros fuel Hfuel. by apply framesFuel_frames.
  - apply (framesFuel_frames beginWord endWord ws (S (length ws))). lia.
  - intros fs Hret. split; [by eapply frames_length|]. intros i f Hf.
    pose proof (frames_frameOk _ _ _ _ Hret _ _ Hf) as (_ & _ & _ & [HV HVd] & _).
    assert (∀ v, v ∈ visitedSnapshot f → v = toLowerCase beginWord ∨ v ∈ ws) as Hpool.
    { intros v (j & _ & Hr)%HV. by eapply reach_pool. }
    split_and!; [|done|done|].
    + rewrite (frames_visited _ _ _ _ Hret _ _ Hf), length_app.
      destruct (nextFrontier f); simpl; [by auto|]. right. right. lia.
    + change (S (length ws)) with (length (toLowerCase beginWord :: ws)).
      apply submseteq_length, NoDup_submseteq; [done|].
      intros v [->|?]%Hpool; [left|by right].
Qed.

Lemma C9_termination_witness :
  framesFuel 100 "hit" "cog" ["hot"; "dot"; "dog"; "lot"; "log"; "cog"]
  = frames "hit" "cog" ["hot"; "dot"; "dog"; "lot"; "log"; "cog"].
Proof.
  apply (proj1 (C9_termination "hit" "cog" ["hot"; "dot"; "dog"; "lot"; "log"; "cog"])).
  by_evaluation.
Defined.

(** C10 (the begin word has no parents).  In every frame that the search
    emits the parents snapshot has no entry for the begin word; so the parent
    map that the reconstruction reads has none, and every path that it
    returns starts with the begin word and does not meet it again. *)
Theorem C10_begin_word_no_parents beginWord endWord (ws : list string) :
  (∀ fs, frames beginWord endWord ws = Returned fs →
         (∀ f, f ∈ fs → parentsSnapshot f !! toLowerCase beginWord = None)
         ∧ finalParents fs !! toLowerCase beginWord = None)
  ∧ ∀ l q, pathList beginWord endWord ws = Returned l → q ∈ l →
      head q = Some (toLowerCase beginWord) ∧ toLowerCase beginWord ∉ tail q.
Proof.
  split.
  - intros fs Hret. split; [|by eapply finalParents_src].
    intros f [i Hf]%list_elem_of_lookup.
    pose proof (frames_frameOk _ _ _ _ Hret _ _ Hf) as (_ & _ & _ & _ & (_ & HP & _) & _).
    apply eq_None_not_Some. intros (j & Hj & Hl%lev_src)%HP. lia.
  - intros l q Hl Hq.
    destruct (pathList_found _ _ _ l q Hl Hq)
      as [(-> & Heq & _)|(fs & k & f & _ & _ & _ & _ & _ & _ & Hhd & _ & _ & Hlev)].
    { simpl. rewrite Heq. split; [done|apply not_elem_of_nil]. }
    split; [done|]. intros [i Hi]%list_elem_of_lookup.
    assert (q !! S i = Some (toLowerCase beginWord)) as Hq'.
    { destruct q; [done|]. done. }
    by apply Hlev, lev_src in Hq'.
Qed.

Lemma C10_begin_word_no_parents_witness :
  head ["hit"; "hot"; "dot"; "dog"; "cog"] = Some (toLowerCase "hit")
  ∧ toLowerCase "hit" ∉ tail ["hit"; "hot"; "dot"; "dog"; "cog"].
Proof.
  apply (proj2 (C10_begin_word_no_parents "hit" "cog"
                  ["hot"; "dot"; "dog"; "lot"; "log"; "cog"])
           [["hit"; "hot"; "dot"; "dog"; "cog"]; ["hit"; "hot"; "lot"; "log"; "cog"]]).
  - vm_compute. reflexivity.
  - by_evaluation.
Defined.

(** * Further properties of the engine *)

(** ** The word array *)

(** X1.  The [words] memo holds no word twice.  It holds the end word, in lower
    case, and besides it exactly the tokens of the text, trimmed and in lower
    case, that are not empty. *)
Theorem words_normalised (tokens : list string) endWord :
  NoDup (words tokens endWord)
  ∧ toLowerCase endWord ∈ words tokens endWord
  ∧ ∀ w, w ∈ words tokens endWord
         ↔ (w ≠ EmptyString ∧ ∃ t, t ∈ tokens ∧ w = toLowerCase (trim t))
           ∨ w = toLowerCase endWord.
Proof.
  split_and!; [apply NoDup_words|apply endWord_in_words|].
  intros w. apply elem_of_words.
Qed.

(** ** The neighbor index *)

(** X2.  Between words without the wildcard marker, [getNeighbors] finds exactly
    the words of the index that differ from the query word in one letter. *)
Theorem getNeighbors_one_letter (ws : list string) beginWord w v :
  starFree w → starFree v →
  v ∈ getNeighbors ws beginWord w ↔ inPool ws beginWord v ∧ oneLetterApart w v.
Proof.
  intros Hw Hv. rewrite elem_of_getNeighbors. split.
  - intros (Hne & Hlen & Hpool & i & j & Hi & Hj & Hk). split; [done|].
    assert (String.length v = wordLen beginWord) as Hlv.
    { destruct Hpool as [[_ ?]| ->]; [done|apply length_toLowerCase]. }
    assert (i = j) as <-.
    { apply (patternKey_starFree w v); [done|done|lia|lia|done]. }
    split; [done|]. apply (patternKey_same_pos w v i); [done|lia|done|done].
  - intros (Hpool & Hlen & Hham).
    assert (String.length v = wordLen beginWord) as Hlv.
    { destruct Hpool as [[_ ?]| ->]; [done|apply length_toLowerCase]. }
    split_and!; [|done|done|].
    + intros ->. by apply hamming_1_ne in Hham.
    + destruct (hamming_1_patternKey w v Hlen Hham) as (i & Hi & Hk).
      exists i, i. split_and!; [lia..|done].
Qed.

Lemma getNeighbors_one_letter_witness :
  "hot" ∈ getNeighbors ["hot"; "dot"; "dog"] "hit" "hit"
  ↔ inPool ["hot"; "dot"; "dog"] "hit" "hot" ∧ oneLetterApart "hit" "hot".
Proof. apply getNeighbors_one_letter; by_evaluation. Defined.

(** X3.  [getNeighbors] lists no word twice and never the query word; what it
    lists has the length of the query word and is in the index.  For a query
    word that has not the length of the begin word it lists nothing.  Between
    words of the index it is symmetric. *)
Theorem getNeighbors_shape (ws : list string) beginWord w :
  NoDup (getNeighbors ws beginWord w)
  ∧ w ∉ getNeighbors ws beginWord w
  ∧ (∀ v, v ∈ getNeighbors ws beginWord w →
          String.length v = String.length w ∧ inPool ws beginWord v)
  ∧ (String.length w ≠ wordLen beginWord → getNeighbors ws beginWord w = [])
  ∧ (∀ v, v ∈ getNeighbors ws beginWord w → inPool ws beginWord w →
          w ∈ getNeighbors ws beginWord v).
Proof.
  split_and!.
  - apply NoDup_getNeighbors.
  - by intros (? & _)%elem_of_getNeighbors.
  - by intros v (_ & ? & ? & _)%elem_of_getNeighbors.
  - intros Hlen. apply elem_of_nil_inv.
    intros v (_ & Hl & Hpool & _)%elem_of_getNeighbors. apply Hlen. rewrite <-Hl.
    destruct Hpool as [[_ ?]| ->]; [done|apply length_toLowerCase].
  - intros v (Hne & Hl & _ & i & j & Hi & Hj & Hk)%elem_of_getNeighbors Hpool.
    apply elem_of_getNeighbors. split_and!; [done|done|done|].
    exists j, i. by split_and!.
Qed.

(** ** The frames of the search *)

Lemma discover_keeps visited node st nei st' (k : string) :
  discover visited node st nei = Returned st' → k ∈ visited → st'.1 !! k = st.1 !! k.
Proof.
  unfold discover. intros H Hk. destruct (set_has visited nei) eqn:Hv; simpl in H.
  { by injection H as <-. }
  apply set_has_false in Hv. assert (nei ≠ k) by (by intros ->).
  destruct (getProp st.1 nei); [| done |]; injection H as <-; simpl;
    by rewrite lookup_insert_ne.
Qed.

Lemma discover_fold_keeps visited node (ns : list string) st st' (k : string) :
  forEach (discover visited node) st ns = Returned st' → k ∈ visited →
  st'.1 !! k = st.1 !! k.
Proof.
  revert st. induction ns as [|n ns IH]; intros st; simpl.
  { by intros [= <-]. }
  destruct (discover visited node st n) as [st1| |] eqn:Hd; simpl; [|done..].
  intros H Hk. rewrite (IH _ H Hk). by eapply discover_keeps.
Qed.

(** A level does not touch what is recorded for a word that was visited when
    the level began. *)
Lemma expandLevel_keeps (neighbors : string → list string) visited parents fr st'
    (k : string) :
  expandLevel neighbors visited parents fr = Returned st' → k ∈ visited →
  st'.1 !! k = parents !! k.
Proof.
  unfold expandLevel. change parents with ((parents, @nil string).1) at 2.
  generalize (parents, @nil string). intros st. revert st.
  induction fr as [|u fr IH]; intros st; simpl.
  { by intros [= <-]. }
  destruct (forEach (discover visited u) st (neighbors u)) as [st1| |] eqn:Hd;
    simpl; [|done..].
  intros H Hk. rewrite (IH _ H Hk). by eapply discover_fold_keeps.
Qed.

Lemma foldl_set_add_prefix (l s : list string) : s `prefix_of` foldl set_add s l.
Proof.
  revert s. induction l as [|x l IH]; intros s; simpl; [done|].
  etrans; [|apply IH]. unfold set_add. destruct (set_has s x); [done|].
  by apply prefix_app_r.
Qed.

Lemma bfsLoop_grow fuel (neighbors : string → list string) tgt vis par fr lvl fs :
  bfsLoop fuel neighbors tgt vis par fr lvl = Returned fs →
  (∀ k, is_Some (par !! k) → k ∈ vis) →
  ∀ i f, fs !! i = Some f →
    par ⊆ parentsSnapshot f ∧ vis `prefix_of` visitedSnapshot f
    ∧ ∀ j fj, i ≤ j → fs !! j = Some fj →
        parentsSnapshot f ⊆ parentsSnapshot fj
        ∧ visitedSnapshot f `prefix_of` visitedSnapshot fj.
Proof.
  revert vis par fr lvl fs. induction fuel as [|fuel IH]; intros vis par fr lvl fs.
  { destruct fr; simpl; [|done]. intros [= <-] _ i f Hf. done. }
  destruct fr as [|u fr]; simpl; [by intros [= <-] _ i f Hf|].
  destruct (expandLevel neighbors vis par (u :: fr)) as [st| |] eqn:Hexp;
    simpl; [|done..].
  intros Hfs Hkeys.
  pose proof (expandLevel_spec neighbors vis par (u :: fr)) as Hspec.
  rewrite Hexp in Hspec. destruct Hspec as [(Hnext & _ & Hdom & _) _].
  assert (par ⊆ st.1) as Hsub.
  { apply map_subseteq_spec. intros k x Hk.
    rewrite (expandLevel_keeps _ _ _ _ _ k Hexp); [done|]. apply Hkeys. by eexists. }
  assert (vis `prefix_of` foldl set_add vis st.2) as Hpre
    by apply foldl_set_add_prefix.
  assert (∀ k, is_Some (st.1 !! k) → k ∈ foldl set_add vis st.2) as Hkeys'.
  { intros k [Hk|[Hk Hp]]%Hdom; apply elem_of_foldl_set_add.
    - left. by apply Hkeys.
    - right. apply Hnext. right. done. }
  case_bool_decide as Htgt.
  - injection Hfs as <-. intros i f Hf. destruct i as [|i]; [|done].
    injection Hf as <-. simpl. split_and!; [done..|].
    intros j fj Hj Hfj. destruct j as [|j]; [|done]. by injection Hfj as <-.
  - apply fmap_Returned in Hfs as (fs' & Hfs' & ->).
    specialize (IH _ _ _ _ _ Hfs' Hkeys'). intros i f Hf.
    destruct i as [|i].
    + injection Hf as <-. simpl. split_and!; [done..|].
      intros j fj Hj Hfj. destruct j as [|j]; [by injection Hfj as <-|].
      simpl in Hfj. by destruct (IH j fj Hfj) as (? & ? & _).
    + simpl in Hf. destruct (IH i f Hf) as (Hp & Hv & Hlater). split_and!.
      * by etrans.
      * by etrans.
      * intros j fj Hj Hfj. destruct j as [|j]; [lia|]. simpl in Hfj.
        apply (Hlater j fj); [lia|done].
Qed.

(** X4.  The frames hang together.  Frame number [i] has level [i]; the frontier
    of the first frame is the begin word alone, and the frontier of every
    other frame is what the frame before it discovered.  No frontier is
    empty, none holds a word twice, and no word is in the frontier of two
    frames: no word is expanded twice. *)
Theorem frames_chain beginWord endWord (ws : list string) (fs : list BFSFrame) i f :
  frames beginWord endWord ws = Returned fs → fs !! i = Some f →
  level f = i
  ∧ frontier f = match i with
                 | 0 => [toLowerCase beginWord]
                 | S i' => from_option nextFrontier [] (fs !! i')
                 end
  ∧ frontier f ≠ []
  ∧ NoDup (frontier f) ∧ NoDup (nextFrontier f)
  ∧ ∀ j fj w, fs !! j = Some fj → w ∈ frontier f → w ∈ frontier fj → j = i.
Proof.
  intros Hret Hf.
  pose proof (frames_frameOk _ _ _ _ Hret _ _ Hf) as (Hlvl & [HF HFd] & [HN HNd] & _).
  pose proof (linked_lookup _ _ _ _ _ (frames_linked _ _ _ _ Hret) Hf) as [_ Hfr].
  split_and!; [done|done| |done|done|].
  - destruct (decide (String.length (toLowerCase beginWord)
                      = String.length (toLowerCase endWord))) as [Hlen|Hlen].
    + destruct i as [|i]; [by rewrite Hfr|]. rewrite Hfr.
      destruct (lookup_lt_is_Some_2 fs i) as [f' Hf'].
      { apply lookup_lt_Some in Hf. lia. }
      rewrite Hf'. simpl.
      destruct (frames_Returned _ _ _ fs Hlen Hret) as (_ & _ & _ & Hall).
      destruct (Hall i f' Hf') as (_ & Hmid & _). apply Hmid.
      apply lookup_lt_Some in Hf. lia.
    + rewrite (frames_mismatch _ _ _ Hlen) in Hret. injection Hret as <-. done.
  - intros j fj w Hfj Hw%HF Hw'.
    pose proof (frames_frameOk _ _ _ _ Hret _ _ Hfj) as (_ & [HF' _] & _).
    apply HF' in Hw'. by eapply lev_unique.
Qed.

Lemma frames_chain_witness :
  ∃ fs f,
    frames "hit" "cog" ["hot"; "dot"; "dog"; "lot"; "log"; "cog"] = Returned fs
    ∧ fs !! 2 = Some f
    ∧ level f = 2
    ∧ frontier f = from_option nextFrontier [] (fs !! 1)
    ∧ frontier f ≠ []
    ∧ NoDup (frontier f) ∧ NoDup (nextFrontier f)
    ∧ ∀ j fj w, fs !! j = Some fj → w ∈ frontier f → w ∈ frontier fj → j = 2.
Proof.
  eexists _, _. split; [vm_compute; reflexivity|]. split; [vm_compute; reflexivity|].
  eapply (frames_chain "hit" "cog" ["hot"; "dot"; "dog"; "lot"; "log"; "cog"] _ 2);
    vm_compute; reflexivity.
Defined.

(** X5.  The snapshots only grow: what a frame holds of the visited set and of
    the parent map, every later frame holds unchanged, the visited set as a
    prefix and the parent map entry by entry. *)
Theorem snapshots_grow beginWord endWord (ws : list string) (fs : list BFSFrame)
    i j fi fj :
  frames beginWord endWord ws = Returned fs →
  i ≤ j → fs !! i = Some fi → fs !! j = Some fj →
  parentsSnapshot fi ⊆ parentsSnapshot fj
  ∧ visitedSnapshot fi `prefix_of` visitedSnapshot fj.
Proof.
  unfold frames, framesFuel. case_decide as Hlen; [by intros [= <-]|].
  intros Hret Hij Hfi Hfj.
  assert (∀ k : string,
            is_Some ((∅ : gmap string (list string)) !! k) → k ∈ [toLowerCase beginWord])
    as Hkeys.
  { intros k [x Hx]. by rewrite lookup_empty in Hx. }
  destruct (bfsLoop_grow _ _ _ _ _ _ _ _ Hret Hkeys i fi Hfi) as (_ & _ & Hlater).
  by apply (Hlater j fj).
Qed.

Lemma snapshots_grow_witness :
  ∃ fs fi fj,
    frames "hit" "cog" ["hot"; "dot"; "dog"; "lot"; "log"; "cog"] = Returned fs
    ∧ fs !! 1 = Some fi ∧ fs !! 3 = Some fj
    ∧ parentsSnapshot fi ⊆ parentsSnapshot fj
    ∧ visitedSnapshot fi `prefix_of` visitedSnapshot fj.
Proof.
  eexists _, _, _. split; [vm_compute; reflexivity|].
  split; [vm_compute; reflexivity|]. split; [vm_compute; reflexivity|].
  eapply (snapshots_grow "hit" "cog" ["hot"; "dot"; "dog"; "lot"; "log"; "cog"] _ 1 3);
    [vm_compute; reflexivity|lia|vm_compute; reflexivity..].
Defined.

(** ** Levels, parents and ladders *)

Lemma transformation_reach_any beginWord (ws : list string) v p :
  v ∈ ws → transformation ws (toLowerCase beginWord) v p →
  ∃ n, length p = S n ∧ reach (getNeighbors ws beginWord) (toLowerCase beginWord) n v.
Proof.
  intros Hv (Hhd & Hlast & Hch & Hint).
  assert (chained (λ a b, b ∈ getNeighbors ws beginWord a) p) as Hwalk.
  { apply steps_walk; [| |done].
    - rewrite Hhd. intros w [= <-]. apply length_toLowerCase.
    - intros w [Hw| ->]%(tail_interior _ v); [|done..].
      by eapply Forall_forall in Hint. }
  rewrite <-head_reverse in Hlast. rewrite <-last_reverse in Hhd.
  destruct (reverse p) as [|x c] eqn:Hr; [done|]. injection Hlast as ->.
  exists (length c). split.
  - by rewrite <-(length_reverse p), Hr.
  - apply walk_reach; [done|]. rewrite <-Hr.
    by apply (chained_reverse (λ a b, a ∈ getNeighbors ws beginWord b)).
Qed.

Lemma lev_descent (neighbors : string → list string) src j w :
  lev neighbors src j w → ∃ c, descent neighbors src j w c.
Proof.
  revert w. induction j as [|j IH]; intros w Hw.
  { exists []. simpl. by apply lev_0 in Hw. }
  pose proof Hw as [(u & Hu & Hwu) _]%lev_S.
  destruct (IH u Hu) as (c & Hc). exists (u :: c). simpl. done.
Qed.

Lemma lev_NoDup (neighbors : string → list string) src (q : list string) :
  (∀ i x, q !! i = Some x → lev neighbors src i x) → NoDup q.
Proof.
  intros Hlev. apply NoDup_alt. intros i j x Hi Hj.
  eapply lev_unique; eauto.
Qed.

Lemma chained_lookup (R R' : string → string → Prop) (q : list string) :
  (∀ i x y, q !! i = Some x → q !! S i = Some y → R x y → R' x y) →
  chained R q → chained R' q.
Proof.
  induction q as [|a [|b q] IH]; [done..|]. intros H [Hab Hch]. split.
  - by apply (H 0 a b).
  - apply IH; [|done]. intros i x y Hx Hy. by apply (H (S i)).
Qed.

(** X6.  The search measures distances.  Where no word holds the wildcard marker,
    frame number [i] discovers exactly the words of the word array whose
    shortest transformation sequences from the begin word have [i + 2]
    words. *)
Theorem frontier_distance beginWord endWord (ws : list string) fs i f w :
  starFree (toLowerCase beginWord) → Forall (λ w, starFree w) ws →
  frames beginWord endWord ws = Returned fs → fs !! i = Some f →
  w ∈ nextFrontier f
  ↔ w ∈ ws ∧ ∃ p, shortestTransformation ws (toLowerCase beginWord) w p
                  ∧ length p = i + 2.
Proof.
  intros Hsrc Hws Hret Hf.
  pose proof (frames_frameOk _ _ _ _ Hret _ _ Hf) as (_ & _ & [HN _] & _).
  rewrite HN. split.
  - intros Hlev. pose proof Hlev as [Hreach Hmin].
    assert (w ∈ ws) as Hw.
    { destruct (reach_pool _ _ _ _ Hreach) as [->|?]; [|done].
      by apply lev_src in Hlev. }
    split; [done|].
    destruct (reach_transformation beginWord ws Hsrc Hws _ _ Hreach)
      as (p & Hhd & Hlast & Hch & Htl & Hlen).
    assert (transformation ws (toLowerCase beginWord) w p) as Htr.
    { split_and!; [done..|]. apply Forall_forall. intros x Hx.
      by apply Htl, interior_tail. }
    assert (∀ p', transformation ws (toLowerCase beginWord) w p' → i + 2 ≤ length p')
      as Hlow.
    { intros p' (n & -> & Hn)%transformation_reach_any; [|done].
      destruct (decide (n < S i)) as [Hlt|]; [|lia]. by destruct (Hmin n Hlt). }
    exists p. split; [split; [done|]|].
    + intros p' Hp'. apply Hlow in Hp'. lia.
    + apply Hlow in Htr. lia.
  - intros (Hw & p & [Htr Hmin] & Hlen).
    destruct (transformation_reach_any _ _ _ _ Hw Htr) as (n & Hn & Hreach).
    assert (n = S i) as -> by lia. split; [done|].
    intros j Hj Hrj.
    destruct (reach_transformation beginWord ws Hsrc Hws _ _ Hrj)
      as (p' & Hhd & Hlast & Hch & Htl & Hlen').
    assert (transformation ws (toLowerCase beginWord) w p') as Htr'.
    { split_and!; [done..|]. apply Forall_forall. intros x Hx.
      by apply Htl, interior_tail. }
    apply Hmin in Htr'. lia.
Qed.

Lemma frontier_distance_witness :
  ∃ fs f,
    frames "hit" "cog" ["hot"; "dot"; "dog"; "lot"; "log"; "cog"] = Returned fs
    ∧ fs !! 1 = Some f
    ∧ ("dot" ∈ nextFrontier f
       ↔ "dot" ∈ ["hot"; "dot"; "dog"; "lot"; "log"; "cog"]
         ∧ ∃ p, shortestTransformation ["hot"; "dot"; "dog"; "lot"; "log"; "cog"]
                  (toLowerCase "hit") "dot" p
                ∧ length p = 1 + 2).
Proof.
  eexists _, _. split; [vm_compute; reflexivity|]. split; [vm_compute; reflexivity|].
  eapply (frontier_distance "hit" "cog" ["hot"; "dot"; "dog"; "lot"; "log"; "cog"] _ 1);
    [by_evaluation|by_evaluation|vm_compute; reflexivity..].
Defined.

(** X7.  The parent map is complete.  In frame number [i] the words that have an
    entry are the words discovered by the frames up to [i]; and the entry of
    a word that frame [j] discovered holds, once each, exactly the words of
    the frontier of frame [j] that have the word among their neighbors. *)
Theorem parents_complete beginWord endWord (ws : list string) fs i f w :
  frames beginWord endWord ws = Returned fs → fs !! i = Some f →
  (is_Some (parentsSnapshot f !! w)
   ↔ ∃ j fj, j ≤ i ∧ fs !! j = Some fj ∧ w ∈ nextFrontier fj)
  ∧ ∀ j fj, j ≤ i → fs !! j = Some fj → w ∈ nextFrontier fj →
      ∃ ps, parentsSnapshot f !! w = Some ps ∧ NoDup ps
            ∧ ∀ p, p ∈ ps ↔ p ∈ frontier fj ∧ w ∈ getNeighbors ws beginWord p.
Proof.
  intros Hret Hf.
  pose proof (frames_frameOk _ _ _ _ Hret _ _ Hf)
    as (_ & _ & _ & _ & (HP1 & HP2 & HPd) & _).
  assert (∀ j fj, fs !! j = Some fj →
            (∀ v, v ∈ nextFrontier fj
                  ↔ lev (getNeighbors ws beginWord) (toLowerCase beginWord) (S j) v)
            ∧ (∀ v, v ∈ frontier fj
                    ↔ lev (getNeighbors ws beginWord) (toLowerCase beginWord) j v))
    as Hfr.
  { intros j fj Hfj.
    by pose proof (frames_frameOk _ _ _ _ Hret _ _ Hfj) as (_ & [? _] & [? _] & _). }
  assert (∀ j fj, j ≤ i → fs !! j = Some fj → w ∈ nextFrontier fj →
            is_Some (parentsSnapshot f !! w)) as Hkey.
  { intros j fj Hj Hfj Hw. apply HP2. exists (S j). split; [lia|].
    by apply (Hfr j fj Hfj). }
  split.
  - split.
    + intros (j & [Hj1 Hj2] & Hlev)%HP2. destruct j as [|j]; [lia|].
      destruct (lookup_lt_is_Some_2 fs j) as [fj Hfj].
      { apply lookup_lt_Some in Hf. lia. }
      exists j, fj. split_and!; [lia|done|]. by apply (Hfr j fj Hfj).
    + intros (j & fj & Hj & Hfj & Hw). by eapply Hkey.
  - intros j fj Hj Hfj Hw. destruct (Hkey j fj Hj Hfj Hw) as [ps Hps].
    exists ps. split_and!; [done|by eapply HPd|].
    destruct (Hfr j fj Hfj) as [HN HF]. apply HN in Hw.
    intros p. specialize (HP1 w p). rewrite Hps in HP1. simpl in HP1.
    rewrite HP1, HF. split.
    + intros (j' & _ & Hp & Hw' & Hnb).
      assert (S j' = S j) as [= ->] by (by eapply lev_unique). done.
    + intros [Hp Hnb]. exists j. split_and!; [lia|done..].
Qed.

Lemma parents_complete_witness :
  ∃ fs f,
    frames "hit" "cog" ["hot"; "dot"; "dog"; "lot"; "log"; "cog"] = Returned fs
    ∧ fs !! 3 = Some f
    ∧ (is_Some (parentsSnapshot f !! "cog")
       ↔ ∃ j fj, j ≤ 3 ∧ fs !! j = Some fj ∧ "cog" ∈ nextFrontier fj)
    ∧ ∀ j fj, j ≤ 3 → fs !! j = Some fj → "cog" ∈ nextFrontier fj →
        ∃ ps, parentsSnapshot f !! "cog" = Some ps ∧ NoDup ps
              ∧ ∀ p, p ∈ ps
                     ↔ p ∈ frontier fj
                       ∧ "cog" ∈ getNeighbors ["hot"; "dot"; "dog"; "lot"; "log"; "cog"]
                                  "hit" p.
Proof.
  eexists _, _. split; [vm_compute; reflexivity|]. split; [vm_compute; reflexivity|].
  eapply (parents_complete "hit" "cog" ["hot"; "dot"; "dog"; "lot"; "log"; "cog"] _ 3);
    vm_compute; reflexivity.
Defined.

(** X8.  Soundness of the path list.  Where the begin word and the end word
    differ and no word holds the wildcard marker, every path of the list is
    a shortest transformation sequence from the begin word to the end word,
    and holds no word twice. *)
Theorem ladders_sound beginWord endWord (tokens : list string) l q :
  starFree (toLowerCase beginWord) →
  Forall (λ w, starFree w) (words tokens endWord) →
  toLowerCase beginWord ≠ toLowerCase endWord →
  ladders beginWord endWord tokens = Returned l → q ∈ l →
  shortestTransformation (words tokens endWord)
    (toLowerCase beginWord) (toLowerCase endWord) q
  ∧ NoDup q.
Proof.
  intros Hsrc Hws Hne Hl Hq. unfold ladders in Hl.
  destruct (pathList_found _ _ _ l q Hl Hq)
    as [(_ & Heq & _)|(fs & k & f & _ & _ & _ & _ & _ & Hlen & Hhd & Hlast & Hch & Hlev)];
    [congruence|].
  split; [|by eapply lev_NoDup]. split.
  - split_and!; [done|done| |].
    + eapply chained_lookup; [|exact Hch]. intros i x y Hx Hy Hxy. simpl in Hxy.
      apply Hlev in Hx as [Hx _].
      by apply (edge_step beginWord (words tokens endWord) Hsrc Hws i x y).
    + apply Forall_forall. intros x [i Hi]%interior_tail%list_elem_of_lookup.
      assert (q !! S i = Some x) as Hx by (by destruct q).
      apply Hlev in Hx. pose proof Hx as [[->|?]%reach_pool _]; [|done].
      by apply lev_src in Hx.
  - intros p Hp.
    by apply (pathList_shortest beginWord endWord (words tokens endWord) l q p
                (endWord_in_words tokens endWord) Hl Hq).
Qed.

Lemma ladders_sound_witness :
  shortestTransformation (words ["hot"; "dot"; "dog"; "lot"; "log"; "cog"] "cog")
    (toLowerCase "hit") (toLowerCase "cog") ["hit"; "hot"; "dot"; "dog"; "cog"]
  ∧ NoDup ["hit"; "hot"; "dot"; "dog"; "cog"].
Proof.
  eapply (ladders_sound "hit" "cog" ["hot"; "dot"; "dog"; "lot"; "log"; "cog"]);
    [by_evaluation|by_evaluation|by_evaluation|vm_compute; reflexivity|by_evaluation].
Defined.

(** X9.  The path list, whenever it is returned, holds no path twice; no path
    holds a word twice; every path ends with the end word, each of its words
    is among the neighbors of the word before it, and all paths have the same
    number of words, each of the length of the begin word. *)
Theorem pathList_well_formed beginWord endWord (ws : list string) l :
  pathList beginWord endWord ws = Returned l →
  NoDup l
  ∧ (∀ q, q ∈ l →
       NoDup q ∧ last q = Some (toLowerCase endWord)
       ∧ chained (λ a b, b ∈ getNeighbors ws beginWord a) q
       ∧ Forall (λ w, String.length w = String.length beginWord) q)
  ∧ ∀ q q', q ∈ l → q' ∈ l → length q = length q'.
Proof.
  intros Hl. destruct (pathList_shape _ _ _ l Hl) as (m & Hshape).
  split_and!; [by eapply NoDup_pathList| |].
  - intros q Hq. destruct (Hshape q Hq) as [Hlen _].
    setoid_rewrite length_toLowerCase in Hlen.
    destruct (pathList_found _ _ _ l q Hl Hq)
      as [(-> & _)|(fs & k & f & _ & _ & _ & _ & _ & _ & _ & Hlast & Hch & Hlev)].
    + split_and!; [apply NoDup_singleton|done|done|done].
    + split_and!; [by eapply lev_NoDup|done..].
  - intros q q' [_ ->]%Hshape [_ ->]%Hshape. done.
Qed.

Lemma pathList_well_formed_witness :
  NoDup [["hit"; "hot"; "dot"; "dog"; "cog"]; ["hit"; "hot"; "lot"; "log"; "cog"]]
  ∧ (∀ q, q ∈ [["hit"; "hot"; "dot"; "dog"; "cog"]; ["hit"; "hot"; "lot"; "log"; "cog"]] →
       NoDup q ∧ last q = Some (toLowerCase "cog")
       ∧ chained (λ a b, b ∈ getNeighbors ["hot"; "dot"; "dog"; "lot"; "log"; "cog"] "hit" a) q
       ∧ Forall (λ w, String.length w = String.length "hit") q)
  ∧ ∀ q q', q ∈ [["hit"; "hot"; "dot"; "dog"; "cog"]; ["hit"; "hot"; "lot"; "log"; "cog"]] →
            q' ∈ [["hit"; "hot"; "dot"; "dog"; "cog"]; ["hit"; "hot"; "lot"; "log"; "cog"]] →
            length q = length q'.
Proof.
  apply (pathList_well_formed "hit" "cog" ["hot"; "dot"; "dog"; "lot"; "log"; "cog"]).
  vm_compute. reflexivity.
Defined.

(** ** When the engine throws *)

Lemma frames_not_OutOfFuel beginWord endWord (ws : list string) :
  frames beginWord endWord ws ≠ OutOfFuel.
Proof. apply (framesFuel_frames beginWord endWord ws (S (length ws))). lia. Qed.

(** X10.  The search throws exactly when the begin word and the end word have one
    length and some level, reached before the end word is found and before a
    level comes out empty, holds a word that goes by a name that plain
    objects inherit.  Such a word is a word of the word array, of the length
    of the begin word; where the word array has none, the search returns. *)
Theorem frames_throws beginWord endWord (ws : list string) :
  (frames beginWord endWord ws = Thrown
   ↔ String.length beginWord = String.length endWord
     ∧ ∃ k, throwsAt (getNeighbors ws beginWord) (toLowerCase beginWord)
              (toLowerCase endWord) k)
  ∧ (frames beginWord endWord ws = Thrown →
     ∃ v, v ∈ ws ∧ inheritedName v ∧ String.length v = String.length beginWord)
  ∧ (Forall (λ w, ¬ inheritedName w) ws →
     ∃ fs, frames beginWord endWord ws = Returned fs).
Proof.
  assert (frames beginWord endWord ws = Thrown →
          String.length beginWord = String.length endWord
          ∧ ∃ k v, throwsAt (getNeighbors ws beginWord) (toLowerCase beginWord)
                     (toLowerCase endWord) k
                   ∧ v ∈ ws ∧ inheritedName v
                   ∧ String.length v = String.length beginWord) as Hthrown.
  { intros [Hlen (k & Hk)]%frames_Thrown. rewrite !length_toLowerCase in Hlen.
    split; [done|]. pose proof Hk as [(v & Hv & Hin) _]. exists k, v.
    split_and!; [done| |done|].
    - pose proof Hv as [[->|?]%reach_pool _]; [|done]. by apply lev_src in Hv.
    - destruct Hv as [Hv _]. apply reach_length in Hv.
      by rewrite length_toLowerCase in Hv. }
  split_and!.
  - split; [intros (? & k & v & ? & _)%Hthrown; eauto|].
    intros [Hlen (k & Hk)].
    destruct (frames beginWord endWord ws) as [fs| |] eqn:Hfs; [|done|].
    + exfalso. eapply stopsAt_throwsAt; [|exact Hk].
      apply (frames_stopsAt beginWord endWord ws fs); [|done].
      by rewrite !length_toLowerCase.
    + by apply frames_not_OutOfFuel in Hfs.
  - intros (_ & k & v & _ & ?)%Hthrown. eauto.
  - intros Hclean. rewrite Forall_forall in Hclean.
    destruct (frames beginWord endWord ws) as [fs| |] eqn:Hfs; [by eauto| |].
    + exfalso. destruct (Hthrown eq_refl) as (_ & k & v & _ & Hv & Hin & _).
      by apply (Hclean v).
    + by apply frames_not_OutOfFuel in Hfs.
Qed.

Lemma frames_throws_witness :
  ∃ v, v ∈ ["constructor"; "constructos"] ∧ inheritedName v
       ∧ String.length v = String.length "constructoz".
Proof.
  apply (proj1 (proj2 (frames_throws "constructoz" "constructos"
                         ["constructor"; "constructos"]))).
  vm_compute. reflexivity.
Defined.

(** X11.  The path list is never short of fuel.  It is not returned, but an error
    thrown, exactly when the search throws or the end word, different from
    the begin word, goes by a name that plain objects inherit. *)
Theorem pathList_throws beginWord endWord (ws : list string) :
  pathList beginWord endWord ws ≠ OutOfFuel
  ∧ (pathList beginWord endWord ws = Thrown
     ↔ frames beginWord endWord ws = Thrown
       ∨ (inheritedName (toLowerCase endWord)
          ∧ toLowerCase endWord ≠ toLowerCase beginWord)).
Proof.
  split; [apply pathList_not_OutOfFuel|]. split.
  - intros Hl. destruct (frames beginWord endWord ws) as [fs| |] eqn:Hfs.
    + right. rewrite (pathList_allPaths _ _ _ _ Hfs) in Hl.
      destruct (finalParents_ok _ _ _ _ Hfs) as (_ & Hclosed & _).
      by apply allPaths_Thrown in Hl as (_ & ? & ?).
    + by left.
    + by apply frames_not_OutOfFuel in Hfs.
  - intros [Hfs|[Hin Hne]].
    + unfold pathList. by rewrite Hfs.
    + destruct (frames beginWord endWord ws) as [fs| |] eqn:Hfs.
      * rewrite (pathList_allPaths _ _ _ _ Hfs).
        destruct (finalParents_ok _ _ _ _ Hfs) as (_ & _ & Hclean).
        rewrite allPaths_Inherited; [by rewrite decide_False|].
        apply getProp_Inherited. split; [|done].
        apply eq_None_not_Some. intros Hsome. by apply Hclean in Hsome.
      * unfold pathList. by rewrite Hfs.
      * by apply frames_not_OutOfFuel in Hfs.
Qed.

(** ** Backtracking on any parent map *)

Lemma chain_NoDup (par : gmap string (list string)) src vis w c :
  chain par src vis w c →
  NoDup c ∧ (∀ x, x ∈ c → x ∉ vis) ∧ last (w :: c) = Some src
  ∧ chained (λ a b, b ∈ default [] (par !! a)) (w :: c).
Proof.
  induction 1 as [vis|vis w ps p c Hne Hps Hp Hvis Hch IH].
  { split_and!; [constructor|by intros x ?%elem_of_nil|done|done]. }
  destruct IH as (Hnd & Hfresh & Hlast & Hchained). split_and!.
  - constructor; [|done]. intros Hin. apply (Hfresh p Hin), elem_of_app. right. left.
  - intros x [->|Hx]%elem_of_cons; [done|].
    intros Hin. apply (Hfresh x Hx), elem_of_app. by left.
  - by rewrite last_cons_cons.
  - split; [by rewrite Hps|done].
Qed.

(** X13.  The backtracking is safe on any parent map, cycles and all: it is never
    short of fuel, and a path that it returns leads from the begin word to
    the end word along recorded parents and holds no word twice. *)
Theorem allPaths_cycle_safe (par : gmap string (list string)) beginWord endWord :
  allPaths par beginWord endWord ≠ OutOfFuel
  ∧ ∀ l q, allPaths par beginWord endWord = Returned l → q ∈ l →
      NoDup q
      ∧ head q = Some (toLowerCase beginWord) ∧ last q = Some (toLowerCase endWord)
      ∧ chained (λ a b, a ∈ default [] (par !! b)) q.
Proof.
  split.
  { apply (allPathsFuel_allPaths par beginWord endWord (S (length (parentWords par)))).
    lia. }
  intros l q Hl Hq.
  destruct (allPaths_Returned _ _ _ l Hl) as (_ & _ & Hmem).
  apply Hmem in Hq as (_ & c & Hc & ->).
  destruct (chain_NoDup _ _ _ _ _ Hc) as (Hnd & Hfresh & Hlast & Hch).
  split_and!.
  - rewrite reverse_Permutation. constructor; [|done].
    intros Hin. apply (Hfresh _ Hin). left.
  - by rewrite head_reverse.
  - by rewrite last_reverse.
  - by apply (chained_reverse (λ a b, a ∈ default [] (par !! b))).
Qed.

(** ** The columns of the graph *)

Lemma forEach_cons {A S} (body : S → A → outcome S) (st : S) (a : A) (l : list A) :
  forEach body st (a :: l) = body st a ≫= λ st', forEach body st' l.
Proof. done. Qed.

Lemma bind_Returned {A B} (f : A → outcome B) (a : A) : Returned a ≫= f = f a.
Proof. done. Qed.

Lemma columnsTurn_Some (fs : list BFSFrame) len cols i f :
  fs !! i = Some f →
  columnsTurn fs len cols i
  = Returned (if decide (filter (λ w, String.length w = len) (nextFrontier f) = [])
              then cols
              else cols ++ [filter (λ w, String.length w = len) (nextFrontier f)]).
Proof. unfold columnsTurn. by intros ->. Qed.

Lemma columnsTurn_None (fs : list BFSFrame) len cols i :
  fs !! i = None → columnsTurn fs len cols i = Thrown.
Proof. unfold columnsTurn. by intros ->. Qed.

Lemma columns_fold (fs : list BFSFrame) len n a cols :
  forEach (columnsTurn fs len) cols (seq a n)
  = if decide (n = 0 ∨ a + n ≤ length fs)
    then Returned
           (cols ++ filter (λ c, c ≠ [])
                      ((λ f, filter (λ w, String.length w = len) (nextFrontier f))
                         <$> take n (drop a fs)))
    else Thrown.
Proof.
  revert a cols. induction n as [|n IH]; intros a cols.
  { simpl. by rewrite app_nil_r. }
  rewrite <-cons_seq, forEach_cons.
  destruct (fs !! a) as [f|] eqn:Hf.
  - rewrite (columnsTurn_Some _ _ _ _ _ Hf), bind_Returned, IH. pose proof (lookup_lt_Some _ _ _ Hf) as Hlt.
    rewrite (drop_S _ _ _ Hf). rewrite firstn_cons, fmap_cons, filter_cons.
    destruct (decide (n = 0 ∨ S a + n ≤ length fs)) as [Hc|Hc];
      destruct (decide (S n = 0 ∨ a + S n ≤ length fs)) as [Hc'|Hc'];
      [|exfalso; lia|exfalso; lia|done].
    f_equal.
    destruct (decide (filter (λ w, String.length w = len) (nextFrontier f) = []))
      as [Hnil|Hnil].
    + rewrite decide_False by (by intros ?). done.
    + rewrite decide_True by done. by rewrite <-app_assoc.
  - rewrite (columnsTurn_None _ _ _ _ Hf). apply lookup_ge_None in Hf.
    by rewrite decide_False by lia.
Qed.

Lemma columns_in_range (fs : list BFSFrame) (step : Z) beginWord :
  fs ≠ [] → (step < Z.of_nat (length fs))%Z →
  columns fs step beginWord
  = Returned
      ([toLowerCase beginWord]
       :: filter (λ c, c ≠ [])
            ((λ f, filter (λ w, String.length w = String.length beginWord)
                     (nextFrontier f))
               <$> take (Z.to_nat (step + 1)) fs)).
Proof.
  intros Hne Hstep. destruct fs as [|f0 fs']; [done|]. unfold columns.
  rewrite columns_fold. rewrite decide_True; [done|]. simpl length in *. lia.
Qed.

Lemma columns_beyond (fs : list BFSFrame) (step : Z) beginWord :
  fs ≠ [] → (Z.of_nat (length fs) ≤ step)%Z → columns fs step beginWord = Thrown.
Proof.
  intros Hne Hstep. destruct fs as [|f0 fs']; [done|]. unfold columns.
  rewrite columns_fold. apply decide_False. simpl length in *. lia.
Qed.

(** X14.  The [columns] memo is empty where there are no frames.  Where there are
    frames, it reads the frames up to [step]: it throws if [step] is not the
    index of a frame, and else returns the begin word as the first column,
    followed by what each of these frames discovered, of the length of the
    begin word, empty columns left out. *)
Theorem columns_outcome (fs : list BFSFrame) (step : Z) beginWord :
  (fs = [] → columns fs step beginWord = Returned [])
  ∧ (fs ≠ [] → (Z.of_nat (length fs) ≤ step)%Z → columns fs step beginWord = Thrown)
  ∧ (fs ≠ [] → (step < Z.of_nat (length fs))%Z →
     columns fs step beginWord
     = Returned
         ([toLowerCase beginWord]
          :: filter (λ c, c ≠ [])
               ((λ f, filter (λ w, String.length w = String.length beginWord)
                        (nextFrontier f))
                  <$> take (Z.to_nat (step + 1)) fs))).
Proof.
  split_and!.
  - by intros ->.
  - apply columns_beyond.
  - apply columns_in_range.
Qed.

Lemma columns_outcome_witness :
  columns [mkFrame 0 ["hit"] ["hot"] ["hit"; "hot"] ∅ false] 3 "hit" = Thrown.
Proof.
  apply (proj1 (proj2 (columns_outcome
                         [mkFrame 0 ["hit"] ["hot"] ["hit"; "hot"] ∅ false] 3 "hit")));
    [done|simpl; lia].
Defined.

Lemma filter_all {A} (P : A → Prop) `{!∀ a, Decision (P a)} (l : list A) :
  Forall P l → filter P l = l.
Proof.
  induction 1 as [|a l Ha _ IH]; [done|]. by rewrite filter_cons, decide_True, IH.
Qed.

Lemma filter_all_but_last {A} (P : A → Prop) `{!∀ a, Decision (P a)} (L : list A) :
  (∀ i a, L !! i = Some a → S i < length L → P a) →
  (∀ c a, filter P L !! c = Some a ↔ L !! c = Some a ∧ P a)
  ∧ length (filter P L)
    = match last L with
      | Some a => if decide (P a) then length L else pred (length L)
      | None => 0
      end.
Proof.
  induction L as [|b L IH]; intros Hall.
  { split; [|done]. intros c a. simpl. rewrite lookup_nil. naive_solver. }
  destruct L as [|b' L].
  { simpl. rewrite filter_cons, filter_nil. destruct (decide (P b)).
    - split; [|done]. intros [|c] a; simpl; [naive_solver|].
      rewrite lookup_nil. naive_solver.
    - split; [|done]. intros [|c] a; simpl; rewrite ?lookup_nil; naive_solver. }
  assert (P b) as Hb by (apply (Hall 0 b); [done|simpl; lia]).
  destruct IH as [IH1 IH2].
  { intros i a Hi Hlt. apply (Hall (S i) a); [done|simpl in *; lia]. }
  rewrite filter_cons, decide_True by done. split.
  - intros [|c] a; [simpl; naive_solver|]. simpl. apply IH1.
  - rewrite last_cons_cons. simpl length at 1. rewrite IH2.
    destruct (last (b' :: L)) as [a|] eqn:Hlast; [|by apply last_None in Hlast].
    destruct (decide (P a)); simpl; lia.
Qed.

Lemma columns_of_frames beginWord endWord (ws : list string) fs (step : nat) f :
  frames beginWord endWord ws = Returned fs → fs !! step = Some f →
  ∃ cols,
    columns fs (Z.of_nat step) beginWord = Returned cols
    ∧ length cols = (if decide (nextFrontier f = []) then S step else S (S step))
    ∧ ∀ c col, cols !! c = Some col →
        col ≠ [] ∧ NoDup col
        ∧ col = match c with
                | 0 => [toLowerCase beginWord]
                | S c' => from_option nextFrontier [] (fs !! c')
                end
        ∧ ∀ w, w ∈ col
               ↔ lev (getNeighbors ws beginWord) (toLowerCase beginWord) c w.
Proof.
  intros Hret Hf. pose proof (lookup_lt_Some _ _ _ Hf) as Hlt.
  assert (fs ≠ []) as Hne by (by intros ->).
  rewrite columns_in_range by (done || lia). eexists. split; [done|].
  replace (Z.to_nat (Z.of_nat step + 1)) with (S step) by lia.
  assert (String.length (toLowerCase beginWord) = String.length (toLowerCase endWord))
    as Hlen.
  { destruct (decide (String.length (toLowerCase beginWord)
                      = String.length (toLowerCase endWord))) as [|Hn]; [done|].
    rewrite (frames_mismatch _ _ _ Hn) in Hret. by injection Hret as <-. }
  destruct (frames_Returned _ _ _ fs Hlen Hret) as (_ & _ & _ & Hall).
  assert ((λ f, filter (λ w, String.length w = String.length beginWord) (nextFrontier f))
            <$> take (S step) fs
          = nextFrontier <$> take (S step) fs) as ->.
  { apply list_fmap_ext. intros i g [Hg _]%lookup_take_Some.
    destruct (Hall i g Hg) as ((_ & _ & [HN _] & _) & _).
    apply filter_all, Forall_forall. intros w [Hw _]%HN.
    apply reach_length in Hw. by rewrite length_toLowerCase in Hw. }
  destruct (filter_all_but_last (λ c : list string, c ≠ [])
              (nextFrontier <$> take (S step) fs)) as [Hlook Hcount].
  { intros i a [g [-> [Hg _]%lookup_take_Some]]%list_lookup_fmap_Some Hi.
    rewrite length_fmap, length_take in Hi.
    destruct (Hall i g Hg) as (_ & Hmid & _). apply Hmid. lia. }
  split.
  - assert (S step `min` length fs = S step) as Hmin by lia.
    cbn [length]. rewrite Hcount, last_lookup, length_fmap, length_take, Hmin.
    cbn [pred]. rewrite list_lookup_fmap, lookup_take_lt by lia. rewrite Hf.
    cbn [fmap option_fmap option_map].
    destruct (decide (nextFrontier f = [])).
    + by rewrite decide_False by (by intros ?).
    + by rewrite decide_True by done.
  - intros c col Hcol. destruct c as [|c].
    + injection Hcol as <-. split_and!; [done|apply NoDup_singleton|done|].
      intros w. rewrite list_elem_of_singleton. symmetry. apply lev_0.
    + simpl in Hcol.
      apply Hlook in Hcol
        as [[g [-> [Hg _]%lookup_take_Some]]%list_lookup_fmap_Some Hne'].
      destruct (Hall c g Hg) as ((_ & _ & [HN HNd] & _) & _).
      split_and!; [done|done|by rewrite Hg|done].
Qed.

(** X15.  On the frames of the search, for the index of a frame, the columns are
    the levels: column number [c] lists, once each, the words at distance
    [c] from the begin word; it is the begin word for [c = 0] and else what
    frame [c - 1] discovered.  No column is empty, no word is in two
    columns, and there is one column more than frames read, unless the last
    frame read discovered nothing. *)
Theorem columns_levels beginWord endWord (ws : list string) fs (step : nat) f :
  frames beginWord endWord ws = Returned fs → fs !! step = Some f →
  ∃ cols,
    columns fs (Z.of_nat step) beginWord = Returned cols
    ∧ length cols = (if decide (nextFrontier f = []) then S step else S (S step))
    ∧ (∀ c col, cols !! c = Some col →
         col ≠ [] ∧ NoDup col
         ∧ col = match c with
                 | 0 => [toLowerCase beginWord]
                 | S c' => from_option nextFrontier [] (fs !! c')
                 end
         ∧ ∀ w, w ∈ col
                ↔ lev (getNeighbors ws beginWord) (toLowerCase beginWord) c w)
    ∧ ∀ c c' col col' w,
        cols !! c = Some col → cols !! c' = Some col' → w ∈ col → w ∈ col' → c = c'.
Proof.
  intros Hret Hf.
  destruct (columns_of_frames _ _ _ _ _ _ Hret Hf) as (cols & Hcols & Hlen & Hcol).
  exists cols. split_and!; [done..|].
  intros c c' col col' w Hc Hc' Hw Hw'.
  destruct (Hcol c col Hc) as (_ & _ & _ & Hlev).
  destruct (Hcol c' col' Hc') as (_ & _ & _ & Hlev').
  apply Hlev in Hw. apply Hlev' in Hw'. by eapply lev_unique.
Qed.

Lemma columns_levels_witness :
  ∃ fs f,
    frames "hit" "cog" ["hot"; "dot"; "dog"; "lot"; "log"; "cog"] = Returned fs
    ∧ fs !! 1 = Some f
    ∧ ∃ cols,
        columns fs (Z.of_nat 1) "hit" = Returned cols
        ∧ length cols = (if decide (nextFrontier f = []) then 2 else 3)
        ∧ (∀ c col, cols !! c = Some col →
             col ≠ [] ∧ NoDup col
             ∧ col = match c with
                     | 0 => [toLowerCase "hit"]
                     | S c' => from_option nextFrontier [] (fs !! c')
                     end
             ∧ ∀ w, w ∈ col
                    ↔ lev (getNeighbors ["hot"; "dot"; "dog"; "lot"; "log"; "cog"] "hit")
                        (toLowerCase "hit") c w)
        ∧ ∀ c c' col col' w,
            cols !! c = Some col → cols !! c' = Some col' → w ∈ col → w ∈ col' → c = c'.
Proof.
  eexists _, _. split; [vm_compute; reflexivity|]. split; [vm_compute; reflexivity|].
  eapply (columns_levels "hit" "cog" ["hot"; "dot"; "dog"; "lot"; "log"; "cog"] _ 1);
    vm_compute; reflexivity.
Defined.

(** ** Playback *)

Lemma control_in_range (n : nat) (st : Playback) (c : Control) :
  (0 ≤ step st)%Z ∧ (step st ≤ Z.max 0 (Z.of_nat n - 1))%Z
  ∧ (isPlaying st = true → (step st < Z.of_nat n - 1)%Z) →
  (0 ≤ step (control n st c))%Z
  ∧ (step (control n st c) ≤ Z.max 0 (Z.of_nat n - 1))%Z
  ∧ (isPlaying (control n st c) = true → (step (control n st c) < Z.of_nat n - 1)%Z).
Proof.
  intros (H0 & H1 & H2). unfold control, settle.
  assert (∀ st' : Playback,
            (0 ≤ step st')%Z ∧ (step st' ≤ Z.max 0 (Z.of_nat n - 1))%Z →
            let st'' := if isPlaying st' && (Z.of_nat n - 1 <=? step st')%Z
                        then mkPlayback (step st') false else st' in
            (0 ≤ step st'')%Z ∧ (step st'' ≤ Z.max 0 (Z.of_nat n - 1))%Z
            ∧ (isPlaying st'' = true → (step st'' < Z.of_nat n - 1)%Z)) as Hsettle.
  { intros [s p] [Ha Hb]. simpl in *. destruct p; simpl; [|done].
    destruct (Z.leb_spec (Z.of_nat n - 1) s); simpl; [done|]. by split_and!. }
  apply Hsettle. destruct (live n st c) eqn:Hlive; [|done].
  destruct st as [s p]. simpl in *.
  destruct c; simpl in *; destruct (Nat.eqb_spec n 0); simpl in *; try done;
    try destruct (Z.eqb_spec s 0); try destruct (Z.leb_spec (Z.of_nat n - 1) s);
    simpl in *; try done; rewrite ?andb_false_r in Hlive; try done; lia.
Qed.

(** X16.  Whatever the controls do, starting from the first frame, [step] stays
    the index of a frame (or 0 where there are no frames), and playing is on
    only before the last frame; so the [columns] memo does not throw, and
    [current] is a frame wherever there are frames. *)
Theorem playback_in_range (fs : list BFSFrame) (cs : list Control) beginWord :
  let st := foldl (control (length fs)) (mkPlayback 0 false) cs in
  (0 ≤ step st)%Z
  ∧ (fs ≠ [] → (step st < Z.of_nat (length fs))%Z ∧ is_Some (current fs (step st)))
  ∧ (fs = [] → step st = 0%Z)
  ∧ (isPlaying st = true → (step st < Z.of_nat (length fs) - 1)%Z)
  ∧ columns fs (step st) beginWord ≠ Thrown.
Proof.
  intros st.
  assert ((0 ≤ step st)%Z ∧ (step st ≤ Z.max 0 (Z.of_nat (length fs) - 1))%Z
          ∧ (isPlaying st = true → (step st < Z.of_nat (length fs) - 1)%Z))
    as (H0 & H1 & H2).
  { subst st. induction cs as [|c cs IH] using rev_ind; [simpl; lia|].
    rewrite foldl_app. simpl. by apply control_in_range. }
  assert (fs ≠ [] → (step st < Z.of_nat (length fs))%Z) as Hlt.
  { intros Hne. destruct fs; [done|]. simpl length in *. lia. }
  split_and!; [done| | |done|].
  - intros Hne. split; [by apply Hlt|]. unfold current.
    destruct (Z.ltb_spec (step st) 0); [lia|].
    apply lookup_lt_is_Some. specialize (Hlt Hne). lia.
  - intros ->. simpl in *. lia.
  - destruct (decide (fs = [])) as [->|Hne]; [done|].
    by rewrite columns_in_range by auto.
Qed.

Lemma tick_run (n : nat) (k : nat) (s : Z) :
  (0 ≤ s)%Z → (s + Z.of_nat k = Z.of_nat n - 1)%Z → 0 < k →
  foldl (control n) (mkPlayback s true) (replicate k TimerFired)
  = mkPlayback (Z.of_nat n - 1) false.
Proof.
  revert s. induction k as [|k IH]; intros s Hs Hk Hpos; [lia|].
  simpl. unfold control at 2. simpl.
  destruct (Z.leb_spec (Z.of_nat n - 1) s) as [|_]; [lia|]. simpl.
  replace (Z.min (s + 1) (Z.of_nat n - 1)) with (s + 1)%Z by lia.
  unfold settle. simpl.
  destruct (Z.leb_spec (Z.of_nat n - 1) (s + 1)) as [Hle|Hgt].
  - assert (k = 0) as -> by lia. simpl. f_equal. lia.
  - apply IH; lia.
Qed.

(** X17.  Playing runs to the last frame and stops there: from frame [s], not the
    last, a click on Play followed by as many ticks of the timer as there are
    frames left ends on the last frame with playing off; on the last frame
    a click on Play is undone at once. *)
Theorem playback_runs_to_end (n : nat) (s : Z) :
  (0 ≤ s < Z.of_nat n)%Z →
  foldl (control n) (mkPlayback s false)
    (PlayPause :: replicate (Z.to_nat (Z.of_nat n - 1 - s)) TimerFired)
  = mkPlayback (Z.of_nat n - 1) false.
Proof.
  intros Hs. simpl. unfold control at 2. simpl.
  destruct (Nat.eqb_spec n 0) as [|_]; [lia|]. simpl. unfold settle. simpl.
  destruct (Z.leb_spec (Z.of_nat n - 1) s) as [Hle|Hgt].
  - replace (Z.to_nat (Z.of_nat n - 1 - s)) with 0 by lia. simpl. f_equal. lia.
  - apply tick_run; lia.
Qed.

Lemma playback_runs_to_end_witness :
  foldl (control 4) (mkPlayback 1 false)
    (PlayPause :: replicate (Z.to_nat (Z.of_nat 4 - 1 - 1)) TimerFired)
  = mkPlayback (Z.of_nat 4 - 1) false.
Proof. apply (playback_runs_to_end 4 1). lia. Defined.

(** ** The positions of the nodes *)

Lemma string_app_nil_l (s : string) : "" +:+ s = s.
Proof. done. Qed.

Lemma string_app_cons (c : ascii) (s t : string) : String c s +:+ t = String c (s +:+ t).
Proof. done. Qed.

Lemma list_ascii_of_string_app (s1 s2 : string) :
  String.list_ascii_of_string (s1 +:+ s2)
  = String.list_ascii_of_string s1 ++ String.list_ascii_of_string s2.
Proof.
  induction s1 as [|c s1 IH]; [done|]. rewrite string_app_cons. simpl. by rewrite IH.
Qed.

Lemma pretty_N_go_no_at (x : N) (s : string) :
  Forall (λ c, c ≠ "@"%char) (String.list_ascii_of_string s) →
  Forall (λ c, c ≠ "@"%char) (String.list_ascii_of_string (pretty_N_go x s)).
Proof.
  revert s. induction (N.lt_wf_0 x) as [x _ IH]; intros s Hs.
  assert (x = 0 ∨ 0 < x)%N as [->|Hx] by lia.
  { by rewrite pretty_N_go_0. }
  rewrite pretty_N_go_step by done. apply IH; [by apply N.div_lt|].
  simpl. constructor; [|done]. unfold pretty_N_char. by repeat case_match.
Qed.

Lemma pretty_nat_no_at (n : nat) :
  Forall (λ c, c ≠ "@"%char) (String.list_ascii_of_string (pretty n)).
Proof.
  unfold pretty, pretty_nat, pretty, pretty_N. case_decide.
  - simpl. by repeat constructor.
  - apply pretty_N_go_no_at. constructor.
Qed.

Lemma at_split_inj (w1 w2 d1 d2 : string) :
  Forall (λ c, c ≠ "@"%char) (String.list_ascii_of_string d1) →
  Forall (λ c, c ≠ "@"%char) (String.list_ascii_of_string d2) →
  w1 +:+ "@" +:+ d1 = w2 +:+ "@" +:+ d2 → w1 = w2 ∧ d1 = d2.
Proof.
  intros H1 H2.
  assert (∀ w d d', Forall (λ c, c ≠ "@"%char) (String.list_ascii_of_string d') →
                    d' ≠ w +:+ "@" +:+ d) as Hno.
  { intros w d d' Hd' ->. rewrite list_ascii_of_string_app in Hd'.
    apply Forall_app in Hd' as [_ Hd']. simpl in Hd'.
    by apply Forall_cons in Hd' as [? _]. }
  revert w2. induction w1 as [|c w1 IH]; intros [|c2 w2];
    repeat (rewrite string_app_nil_l || rewrite string_app_cons).
  - by intros [= ->].
  - intros [= <- Hd]. by apply Hno in Hd.
  - intros [= -> Hd]. symmetry in Hd. by apply Hno in Hd.
  - intros [= -> Hd]. destruct (IH _ Hd) as [-> ->]. done.
Qed.

Lemma nodeKey_inj (w1 w2 : string) (c1 c2 : nat) :
  nodeKey w1 c1 = nodeKey w2 c2 → w1 = w2 ∧ c1 = c2.
Proof.
  unfold nodeKey. intros [-> Hc]%at_split_inj; [|apply pretty_nat_no_at..].
  split; [done|]. by apply (inj pretty).
Qed.

Lemma nodeKey_not_inherited (w : string) (ci : nat) : ¬ inheritedName (nodeKey w ci).
Proof.
  unfold inheritedName. intros Hin%bool_decide_unpack.
  assert (∀ s, Forall (λ c, c ≠ "@"%char) (String.list_ascii_of_string s) → s ≠ nodeKey w ci)
    as Hno.
  { intros s Hs ->. unfold nodeKey in Hs. rewrite list_ascii_of_string_app in Hs.
    apply Forall_app in Hs as [_ Hs]. simpl in Hs. by apply Forall_cons in Hs as [? _]. }
  unfold inheritedNames in Hin.
  repeat (apply elem_of_cons in Hin as [Hin|Hin];
          [symmetry in Hin; revert Hin; apply Hno; simpl; repeat constructor; done|]).
  by apply elem_of_nil in Hin.
Qed.

Lemma placeRows_lookup (X baseY : Z) (ci : nat) (rows : list string)
    (pos : gmap string Layout.Point) k p :
  NoDup rows →
  foldl (λ pos '(ri, w),
           <[nodeKey w ci := Layout.mkPoint X (baseY + Z.of_nat ri * Layout.spacingY)]> pos)
        pos (imap pair rows) !! k = Some p
  ↔ (∃ ri w, rows !! ri = Some w ∧ k = nodeKey w ci
             ∧ p = Layout.mkPoint X (baseY + Z.of_nat ri * Layout.spacingY))
    ∨ ((∀ w, w ∈ rows → k ≠ nodeKey w ci) ∧ pos !! k = Some p).
Proof.
  induction rows as [|w rows IH] using rev_ind; intros Hnd.
  { simpl. split; [intros ?; right; split; [by intros w ?%elem_of_nil|done]|].
    intros [(ri & w & Hw & _)|[_ ?]]; [by rewrite lookup_nil in Hw|done]. }
  apply NoDup_app in Hnd as (Hnd & Hfresh & _).
  assert (w ∉ rows) as Hw.
  { intros Hin. apply (Hfresh w Hin). left. }
  rewrite imap_app, foldl_app. simpl. rewrite Nat.add_0_r.
  destruct (decide (k = nodeKey w ci)) as [->|Hk].
  - rewrite lookup_insert_eq. split.
    + intros [= <-]. left. exists (length rows), w. split_and!; [|done..].
      by rewrite lookup_app_r, Nat.sub_diag by lia.
    + intros [(ri & w' & Hri & [<- _]%nodeKey_inj & ->)|[Hno _]].
      * destruct (decide (ri < length rows)) as [Hlt|Hge].
        { rewrite lookup_app_l in Hri by done. apply list_elem_of_lookup_2 in Hri. done. }
        apply lookup_lt_Some in Hri as Hlt. rewrite length_app in Hlt. simpl in Hlt.
        by replace ri with (length rows) by lia.
      * exfalso. apply (Hno w); [|done]. apply elem_of_app. right. left.
  - rewrite lookup_insert_ne by done. rewrite (IH Hnd). split.
    + intros [(ri & w' & Hri & -> & ->)|[Hno Hp]].
      * left. exists ri, w'. split_and!; [|done..].
        by apply lookup_app_l_Some.
      * right. split; [|done]. intros w' [?|Hw']%elem_of_app; [by apply Hno|].
        by apply list_elem_of_singleton in Hw' as ->.
    + intros [(ri & w' & Hri & -> & ->)|[Hno Hp]].
      * left. exists ri, w'. split_and!; [|done..].
        apply lookup_app_Some in Hri as [?|[_ Hri]]; [done|].
        apply list_lookup_singleton_Some in Hri as [_ ->]. done.
      * right. split; [|done]. intros w' Hw'. apply Hno, elem_of_app. by left.
Qed.

Lemma positions_snoc (cols : list (list string)) (col : list string) :
  positions (cols ++ [col]) = placeColumn (length cols) col (positions cols).
Proof. unfold positions. rewrite imap_app, foldl_app. simpl. by rewrite Nat.add_0_r. Qed.

Lemma half_height (n : Z) : ((n * Layout.spacingY) / 2 = 28 * n)%Z.
Proof.
  unfold Layout.spacingY. replace (n * 56)%Z with ((28 * n) * 2)%Z by lia.
  by rewrite Z.div_mul.
Qed.

Lemma elem_of_positions (cols : list (list string)) k p :
  Forall NoDup cols →
  positions cols !! k = Some p
  ↔ ∃ ci col ri w,
      cols !! ci = Some col ∧ col !! ri = Some w ∧ k = nodeKey w ci
      ∧ p = Layout.mkPoint (120 + 200 * Z.of_nat ci)
              (100 - 28 * (Z.of_nat (length col) - 1) + 56 * Z.of_nat ri).
Proof.
  induction cols as [|col cols IH] using rev_ind; intros Hnd.
  { unfold positions. simpl. rewrite lookup_empty. split; [done|].
    intros (ci & col & ri & w & Hci & _). by rewrite lookup_nil in Hci. }
  apply Forall_app in Hnd as [Hnd [Hcol _]%Forall_cons].
  rewrite positions_snoc. unfold placeColumn. cbv zeta.
  rewrite (placeRows_lookup _ _ _ _ _ _ _ Hcol), (IH Hnd), half_height.
  unfold Layout.startX, Layout.startY, Layout.spacingX, Layout.spacingY. split.
  - intros [(ri & w & Hri & -> & ->)|[Hno (ci & col' & ri & w & Hci & Hri & -> & ->)]].
    + exists (length cols), col, ri, w. split_and!; [|done|done|f_equal; lia].
      by rewrite lookup_app_r, Nat.sub_diag by lia.
    + exists ci, col', ri, w. split_and!; [|done..]. by apply lookup_app_l_Some.
  - intros (ci & col' & ri & w & Hci & Hri & -> & ->).
    apply lookup_app_Some in Hci as [Hci|[Hge Hci]].
    + right. split.
      * intros w' _ [_ ->]%nodeKey_inj. apply lookup_lt_Some in Hci. lia.
      * exists ci, col', ri, w. done.
    + apply list_lookup_singleton_Some in Hci as [Hci ->].
      assert (ci = length cols) as -> by lia.
      left. exists ri, w. split_and!; [done..|f_equal; lia].
Qed.

(** X18.  The positions form a grid.  Where no column lists a word twice, the
    object [pos] has exactly one entry for each word of each column, under
    the key of the word and the number of the column; columns are 200 apart
    from 120 on, the words of a column 56 apart and centred on 100.  Keys of
    different nodes differ, and so do their points. *)
Theorem positions_grid (cols : list (list string)) :
  Forall NoDup cols →
  (∀ k p, positions cols !! k = Some p
          ↔ ∃ ci col ri w,
              cols !! ci = Some col ∧ col !! ri = Some w ∧ k = nodeKey w ci
              ∧ p = Layout.mkPoint (120 + 200 * Z.of_nat ci)
                      (100 - 28 * (Z.of_nat (length col) - 1) + 56 * Z.of_nat ri))
  ∧ (∀ w1 c1 w2 c2, nodeKey w1 c1 = nodeKey w2 c2 → w1 = w2 ∧ c1 = c2)
  ∧ (∀ k1 k2 p, positions cols !! k1 = Some p → positions cols !! k2 = Some p → k1 = k2).
Proof.
  intros Hnd. split_and!.
  - intros k p. by apply elem_of_positions.
  - intros w1 c1 w2 c2. apply nodeKey_inj.
  - intros k1 k2 p.
    rewrite !elem_of_positions by done.
    intros (c1 & col1 & r1 & w1 & Hc1 & Hr1 & -> & ->)
           (c2 & col2 & r2 & w2 & Hc2 & Hr2 & -> & [= Hx Hy]).
    assert (c1 = c2) as <- by lia. rewrite Hc1 in Hc2. injection Hc2 as <-.
    assert (r1 = r2) as <- by lia. rewrite Hr1 in Hr2. by injection Hr2 as <-.
Qed.

Lemma positions_grid_witness :
  Forall NoDup [["hit"]; ["hot"]; ["dot"; "lot"]]
  ∧ positions [["hit"]; ["hot"]; ["dot"; "lot"]] !! nodeKey "lot" 2
    = Some (Layout.mkPoint 520 128).
Proof.
  split; [by_evaluation|].
  apply (proj1 (positions_grid [["hit"]; ["hot"]; ["dot"; "lot"]] ltac:(by_evaluation))).
  exists 2, ["dot"; "lot"], 1, "lot". done.
Defined.

(** ** The canvas *)

Lemma canvas_fold (vs : list Layout.Point) (a b : Z) :
  let r := foldl (λ '(maxX, maxY) p, (Z.max maxX (Layout.x p), Z.max maxY (Layout.y p)))
                 (a, b) vs in
  (a ≤ r.1)%Z ∧ (b ≤ r.2)%Z
  ∧ (∀ p, p ∈ vs → (Layout.x p ≤ r.1)%Z ∧ (Layout.y p ≤ r.2)%Z)
  ∧ (r.1 = a ∨ ∃ p, p ∈ vs ∧ r.1 = Layout.x p)
  ∧ (r.2 = b ∨ ∃ p, p ∈ vs ∧ r.2 = Layout.y p).
Proof.
  revert a b. induction vs as [|q vs IH]; intros a b; simpl.
  { split_and!; [lia|lia| |by left|by left]. by intros p ?%elem_of_nil. }
  destruct (IH (Z.max a (Layout.x q)) (Z.max b (Layout.y q)))
    as (Ha & Hb & Hall & Hx & Hy).
  split_and!; [lia|lia| | |].
  - intros p [->|Hp]%elem_of_cons; [lia|by apply Hall].
  - destruct Hx as [Hx|(p & Hp & Hx)].
    + destruct (Z.max_spec a (Layout.x q)) as [[_ Hm]|[_ Hm]].
      * right. exists q. split; [left|]. by rewrite Hx.
      * left. by rewrite Hx.
    + right. exists p. split; [by right|done].
  - destruct Hy as [Hy|(p & Hp & Hy)].
    + destruct (Z.max_spec b (Layout.y q)) as [[_ Hm]|[_ Hm]].
      * right. exists q. split; [left|]. by rewrite Hy.
      * left. by rewrite Hy.
    + right. exists p. split; [by right|done].
Qed.

Lemma canvasOf_spec (vs : list Layout.Point) :
  (∀ p, p ∈ vs → (Layout.x p + 160 ≤ (canvasOf vs).1)%Z
                 ∧ (Layout.y p + 80 ≤ (canvasOf vs).2)%Z)
  ∧ ((canvasOf vs).1 = 160%Z ∨ ∃ p, p ∈ vs ∧ (canvasOf vs).1 = (Layout.x p + 160)%Z)
  ∧ ((canvasOf vs).2 = 300%Z ∨ ∃ p, p ∈ vs ∧ (canvasOf vs).2 = (Layout.y p + 80)%Z)
  ∧ (160 ≤ (canvasOf vs).1)%Z ∧ (300 ≤ (canvasOf vs).2)%Z.
Proof.
  unfold canvasOf. pose proof (canvas_fold vs 0 0) as H. cbv zeta in H.
  destruct (foldl _ _ vs) as [mx my]. simpl in *.
  destruct H as (Ha & Hb & Hall & Hx & Hy). split_and!; [| | |lia|lia].
  - intros p [? ?]%Hall. lia.
  - destruct Hx as [->|(p & Hp & ->)]; [by left|right; eauto].
  - destruct Hy as [->|(p & Hp & ->)].
    + left. lia.
    + destruct (Z.max_spec 300 (Layout.y p + 80)) as [[_ Hm]|[_ Hm]]; rewrite Hm.
      * right. eauto.
      * by left.
Qed.

Lemma elem_of_values (pos : gmap string Layout.Point) p :
  p ∈ (map_to_list pos).*2 ↔ ∃ k, pos !! k = Some p.
Proof.
  rewrite list_elem_of_fmap. split.
  - intros ([k p'] & -> & Hkp%elem_of_map_to_list). eauto.
  - intros (k & Hk). exists (k, p). split; [done|]. by apply elem_of_map_to_list.
Qed.

Lemma canvas_spec (pos : gmap string Layout.Point) :
  (∀ k p, pos !! k = Some p →
          (Layout.x p + 160 ≤ (canvas pos).1)%Z ∧ (Layout.y p + 80 ≤ (canvas pos).2)%Z)
  ∧ ((canvas pos).1 = 160%Z
     ∨ ∃ k p, pos !! k = Some p ∧ (canvas pos).1 = (Layout.x p + 160)%Z)
  ∧ ((canvas pos).2 = 300%Z
     ∨ ∃ k p, pos !! k = Some p ∧ (canvas pos).2 = (Layout.y p + 80)%Z).
Proof.
  unfold canvas.
  destruct (canvasOf_spec (map_to_list pos).*2) as (Hall & Hx & Hy & _).
  split_and!.
  - intros k p Hk. apply Hall, elem_of_values. eauto.
  - destruct Hx as [?|(p & (k & Hk)%elem_of_values & ?)]; [by left|right; eauto].
  - destruct Hy as [?|(p & (k & Hk)%elem_of_values & ?)]; [by left|right; eauto].
Qed.

(** X19.  The canvas holds every node, with 160 to spare on the right and 80
    below, and is at least 160 wide and 300 high; it is no larger than that
    asks for (its width is 160 or that of some node plus 160, its height 300
    or that of some node plus 80), and its size does not depend on the order
    in which [Object.values] lists the positions. *)
Theorem canvas_bounds (pos : gmap string Layout.Point) :
  (∀ k p, pos !! k = Some p →
          (Layout.x p + 160 ≤ (canvas pos).1)%Z ∧ (Layout.y p + 80 ≤ (canvas pos).2)%Z)
  ∧ ((canvas pos).1 = 160%Z
     ∨ ∃ k p, pos !! k = Some p ∧ (canvas pos).1 = (Layout.x p + 160)%Z)
  ∧ ((canvas pos).2 = 300%Z
     ∨ ∃ k p, pos !! k = Some p ∧ (canvas pos).2 = (Layout.y p + 80)%Z)
  ∧ (160 ≤ (canvas pos).1)%Z ∧ (300 ≤ (canvas pos).2)%Z
  ∧ (∀ values, values ≡ₚ (map_to_list pos).*2 → canvasOf values = canvas pos).
Proof.
  destruct (canvas_spec pos) as (Hbound & Hw & Hh).
  destruct (canvasOf_spec (map_to_list pos).*2) as (_ & _ & _ & Hfw & Hfh).
  split_and!; [done..|].
  intros values Hperm. unfold canvas.
  destruct (canvasOf_spec values) as (Hall' & Hx' & Hy' & Hw' & Hh').
  destruct (canvasOf_spec (map_to_list pos).*2) as (Hall & Hx & Hy & Hw0 & Hh0).
  destruct (canvasOf values) as [w' h'], (canvasOf (map_to_list pos).*2) as [w h].
  simpl in *. f_equal.
  - apply Z.le_antisymm.
    + destruct Hx' as [->|(p & Hp & ->)]; [lia|]. rewrite Hperm in Hp.
      by apply Hall in Hp as [? _].
    + destruct Hx as [->|(p & Hp & ->)]; [lia|]. rewrite <-Hperm in Hp.
      by apply Hall' in Hp as [? _].
  - apply Z.le_antisymm.
    + destruct Hy' as [->|(p & Hp & ->)]; [lia|]. rewrite Hperm in Hp.
      by apply Hall in Hp as [_ ?].
    + destruct Hy as [->|(p & Hp & ->)]; [lia|]. rewrite <-Hperm in Hp.
      by apply Hall' in Hp as [_ ?].
Qed.

(** X20.  For columns without repetitions, none of them empty, the canvas is 80
    wider than 200 times the number of columns.  The first word of a column
    of five words or more lies above the top of the canvas. *)
Theorem canvas_of_columns (cols : list (list string)) :
  Forall NoDup cols → Forall (λ col, col ≠ []) cols → cols ≠ [] →
  (canvas (positions cols)).1 = (80 + 200 * Z.of_nat (length cols))%Z
  ∧ ∀ ci col w, cols !! ci = Some col → col !! 0 = Some w → 5 ≤ length col →
      ∃ p, positions cols !! nodeKey w ci = Some p ∧ (Layout.y p < 0)%Z.
Proof.
  intros Hnd Hne Hcols. split.
  - destruct (canvas_spec (positions cols)) as (Hall & Hx & _).
    destruct (last cols) as [col|] eqn:Hlast; [|by apply last_None in Hlast].
    rewrite last_lookup in Hlast.
    assert (col ≠ []) as Hcol.
    { rewrite Forall_forall in Hne. apply Hne. by eapply list_elem_of_lookup_2. }
    destruct col as [|w col]; [done|].
    assert (positions cols !! nodeKey w (pred (length cols))
            = Some (Layout.mkPoint (120 + 200 * Z.of_nat (pred (length cols)))
                      (100 - 28 * (Z.of_nat (length (w :: col)) - 1) + 56 * Z.of_nat 0)))
      as Hw.
    { apply elem_of_positions; [done|]. exists (pred (length cols)), (w :: col), 0, w. done. }
    apply Hall in Hw as [Hw _]. simpl in Hw.
    assert (length cols ≠ 0) by (by destruct cols).
    apply Z.le_antisymm; [|lia].
    destruct Hx as [->|(k & p & Hk & ->)]; [lia|].
    apply elem_of_positions in Hk as (ci & col' & ri & w' & Hci & _ & _ & ->); [|done].
    apply lookup_lt_Some in Hci. simpl. lia.
  - intros ci col w Hci Hw Hlen. eexists. split.
    + apply elem_of_positions; [done|]. exists ci, col, 0, w. done.
    + simpl. lia.
Qed.

Lemma canvas_of_columns_witness :
  (canvas (positions [["hit"]; ["hot"]; ["dot"; "lot"]])).1
  = (80 + 200 * Z.of_nat (length [["hit"]; ["hot"]; ["dot"; "lot"]]))%Z.
Proof.
  apply (canvas_of_columns [["hit"]; ["hot"]; ["dot"; "lot"]]); by_evaluation.
Defined.

(** ** The edges of the graph *)

Lemma forEach_app {A S} (body : S → A → outcome S) (st : S) (l1 l2 : list A) :
  forEach body st (l1 ++ l2) = forEach body st l1 ≫= λ st', forEach body st' l2.
Proof.
  revert st. induction l1 as [|a l1 IH]; intros st; [done|].
  rewrite <-app_comm_cons, !forEach_cons. destruct (body st a); [|done..].
  rewrite !bind_Returned. apply IH.
Qed.

Lemma filter_ext_elem {A} (P1 P2 : A → Prop)
    `{!∀ x, Decision (P1 x), !∀ x, Decision (P2 x)} (l : list A) :
  (∀ x, x ∈ l → P1 x ↔ P2 x) → filter P1 l = filter P2 l.
Proof.
  induction l as [|a l IH]; intros Hext; [done|].
  rewrite !filter_cons, IH by (intros x Hx; apply Hext; by right).
  destruct (decide (P1 a)) as [H1|H1], (decide (P2 a)) as [H2|H2]; try done.
  - destruct H2. apply Hext; [left|done].
  - destruct H1. apply Hext; [left|done].
Qed.

Lemma getSlot_own {A} (o : gmap string A) k a : o !! k = Some a → getSlot o k = OwnValue a.
Proof. unfold getSlot. by intros ->. Qed.

Lemma getSlot_none {A} (o : gmap string A) k :
  o !! k = None → getSlot o k = if inheritedName k then InheritedValue else NoValue.
Proof. unfold getSlot. by intros ->. Qed.

(** One push: the column index goes behind what the word has. *)
Lemma wordColsPush_spec (ci : nat) (wc : gmap string (list nat)) (w : string) :
  (∀ k, is_Some (wc !! k) → ¬ inheritedName k) →
  match wordColsPush ci wc w with
  | Returned wc' =>
      ¬ inheritedName w
      ∧ (∀ k, is_Some (wc' !! k) → ¬ inheritedName k)
      ∧ ∀ v, default [] (wc' !! v)
             = default [] (wc !! v) ++ (if decide (v = w) then [ci] else [])
  | Thrown => inheritedName w
  | OutOfFuel => False
  end.
Proof.
  intros Hclean. unfold wordColsPush.
  destruct (wc !! w) as [cs|] eqn:Hw.
  - rewrite (getSlot_own _ _ _ Hw). split_and!.
    + apply Hclean. by eexists.
    + intros k. destruct (decide (k = w)) as [->|Hk].
      * intros _. apply Hclean. by eexists.
      * rewrite lookup_insert_ne by done. apply Hclean.
    + intros v. destruct (decide (v = w)) as [->|Hv].
      * by rewrite lookup_insert_eq, Hw.
      * by rewrite lookup_insert_ne, app_nil_r by done.
  - rewrite (getSlot_none _ _ Hw). destruct (inheritedName w) eqn:Hin; [done|].
    split_and!.
    + by intros ?.
    + intros k. destruct (decide (k = w)) as [->|Hk].
      * intros _. rewrite Hin. intros [].
      * rewrite lookup_insert_ne by done. apply Hclean.
    + intros v. destruct (decide (v = w)) as [->|Hv].
      * by rewrite lookup_insert_eq, Hw.
      * by rewrite lookup_insert_ne, app_nil_r by done.
Qed.

Lemma wordColsColumn_spec (ci : nat) (col : list string) (wc : gmap string (list nat)) :
  (∀ k, is_Some (wc !! k) → ¬ inheritedName k) →
  match forEach (wordColsPush ci) wc col with
  | Returned wc' =>
      (∀ w, w ∈ col → ¬ inheritedName w)
      ∧ (∀ k, is_Some (wc' !! k) → ¬ inheritedName k)
      ∧ (NoDup col →
         ∀ v, default [] (wc' !! v)
              = default [] (wc !! v) ++ (if decide (v ∈ col) then [ci] else []))
  | Thrown => ∃ w, w ∈ col ∧ inheritedName w
  | OutOfFuel => False
  end.
Proof.
  revert wc. induction col as [|w col IH]; intros wc Hclean.
  { cbn [forEach]. split_and!; [by intros w ?%elem_of_nil|done|].
    intros _ v. rewrite decide_False by apply not_elem_of_nil. by rewrite app_nil_r. }
  rewrite forEach_cons. pose proof (wordColsPush_spec ci wc w Hclean) as Hpush.
  destruct (wordColsPush ci wc w) as [wc1| |]; [|by exists w; split; [left|]|done].
  destruct Hpush as (Hw & Hclean1 & Hwc1). rewrite bind_Returned.
  specialize (IH wc1 Hclean1).
  destruct (forEach (wordColsPush ci) wc1 col) as [wc'| |]; [| |done].
  - destruct IH as (Hcol & Hclean' & Hwc'). split_and!; [|done|].
    + intros v [->|?]%elem_of_cons; auto.
    + intros [Hfresh Hnd]%NoDup_cons v. rewrite (Hwc' Hnd), Hwc1, <-app_assoc. f_equal.
      destruct (decide (v = w)) as [->|Hv].
      * rewrite decide_False by done. rewrite decide_True by left. done.
      * destruct (decide (v ∈ col)).
        -- rewrite decide_True by (by right). done.
        -- rewrite decide_False; [done|]. by intros [?|?]%elem_of_cons.
  - destruct IH as (v & Hv & Hin). exists v. split; [by right|done].
Qed.

Lemma wordColsOf_snoc (cols : list (list string)) (col : list string) :
  wordColsOf (cols ++ [col])
  = wordColsOf cols ≫= λ wc, forEach (wordColsPush (length cols)) wc col.
Proof.
  unfold wordColsOf. rewrite imap_app, forEach_app. simpl.
  destruct (forEach _ ∅ (imap pair cols)) as [wc| |]; [|done..].
  rewrite !bind_Returned, Nat.add_0_r.
  by destruct (forEach (wordColsPush (length cols)) wc col).
Qed.

(** The map [wordCols]: building it throws on a word with an inherited name;
    else a word is mapped to the indices of the columns that hold it, in
    rising order. *)
Lemma wordColsOf_spec (cols : list (list string)) :
  match wordColsOf cols with
  | Returned wc =>
      (∀ col w, col ∈ cols → w ∈ col → ¬ inheritedName w)
      ∧ (∀ k, is_Some (wc !! k) → ¬ inheritedName k)
      ∧ (Forall NoDup cols →
         ∀ v, default [] (wc !! v)
              = filter (λ c, v ∈ default [] (cols !! c)) (seq 0 (length cols)))
  | Thrown => ∃ col w, col ∈ cols ∧ w ∈ col ∧ inheritedName w
  | OutOfFuel => False
  end.
Proof.
  induction cols as [|col cols IH] using rev_ind.
  { simpl. split_and!; [by intros col w ?%elem_of_nil| |done].
    intros k [x Hx]. by rewrite lookup_empty in Hx. }
  rewrite wordColsOf_snoc. destruct (wordColsOf cols) as [wc| |]; [| |done].
  - destruct IH as (Hcols & Hclean & Hwc). rewrite bind_Returned.
    pose proof (wordColsColumn_spec (length cols) col wc Hclean) as Hcol.
    destruct (forEach (wordColsPush (length cols)) wc col) as [wc'| |]; [| |done].
    + destruct Hcol as (Hcol & Hclean' & Hwc'). split_and!; [|done|].
      * intros col' w [?|Hc]%elem_of_app; [by eapply Hcols|].
        apply list_elem_of_singleton in Hc as ->. apply Hcol.
      * intros [Hnd [Hndc _]%Forall_cons]%Forall_app v.
        rewrite (Hwc' Hndc), (Hwc Hnd), length_app. cbn [length].
        replace (length cols + 1) with (S (length cols)) by lia.
        rewrite seq_S, filter_app. cbn [Nat.add]. f_equal.
        -- apply filter_ext_elem. intros c Hc%elem_of_seq.
           by rewrite lookup_app_l by lia.
        -- rewrite filter_cons, filter_nil, lookup_app_r, Nat.sub_diag by lia.
           cbn [lookup list_lookup default from_option]. unfold id.
           by destruct (decide (v ∈ col)).
    + destruct Hcol as (w & Hw & Hin). exists col, w. split_and!; [|done..].
      apply elem_of_app. right. left.
  - destruct IH as (col' & w & Hc & Hw & Hin). simpl. exists col', w.
    split_and!; [|done..]. apply elem_of_app. by left.
Qed.

Lemma edgeTurn_drawn (pos : gmap string Layout.Point) (wc : gmap string (list nat))
    child j l p :
  wc !! p = Some [j] → is_Some (pos !! nodeKey p j) →
  is_Some (pos !! nodeKey child (S j)) →
  edgeTurn pos wc child (S j) l p = Returned (l ++ [drawn pos p child j]).
Proof.
  intros Hp [pf Hpf] [pt Hpt]. unfold edgeTurn, parentColumn.
  rewrite (getSlot_own _ _ _ Hp), bind_Returned.
  rewrite filter_cons, decide_True, filter_nil by lia. cbn [last].
  cbv zeta. unfold drawn. by rewrite Hpf, Hpt.
Qed.

Lemma edgeTurns_drawn (pos : gmap string Layout.Point) (wc : gmap string (list nat))
    child j (ps : list string) l :
  (∀ p, p ∈ ps → wc !! p = Some [j] ∧ is_Some (pos !! nodeKey p j)) →
  is_Some (pos !! nodeKey child (S j)) →
  forEach (edgeTurn pos wc child (S j)) l ps
  = Returned (l ++ ((λ p, drawn pos p child j) <$> ps)).
Proof.
  intros Hps Hc. revert l. induction ps as [|p ps IH]; intros l.
  { cbn [forEach]. by rewrite fmap_nil, app_nil_r. }
  destruct (Hps p ltac:(left)) as [Hp Hpos].
  rewrite forEach_cons, (edgeTurn_drawn _ _ _ _ _ _ Hp Hpos Hc), bind_Returned.
  rewrite IH by (intros p' Hp'; apply Hps; by right).
  by rewrite fmap_cons, <-app_assoc.
Qed.

Lemma edgesOfChild_drawn (pos : gmap string Layout.Point) (wc : gmap string (list nat))
    l child (ps : list string) j :
  wc !! child = Some [S j] →
  (∀ p, p ∈ ps → wc !! p = Some [j] ∧ is_Some (pos !! nodeKey p j)) →
  is_Some (pos !! nodeKey child (S j)) →
  edgesOfChild pos wc l (child, ps)
  = Returned (l ++ ((λ p, drawn pos p child j) <$> ps)).
Proof.
  intros Hc Hps Hpos. unfold edgesOfChild. rewrite (getSlot_own _ _ _ Hc).
  rewrite forEach_cons, (edgeTurns_drawn _ _ _ _ _ _ Hps Hpos), bind_Returned. done.
Qed.

Lemma edges_fold (pos : gmap string Layout.Point) (wc : gmap string (list nat))
    (lvl : string → nat) (entries : list (string * list string)) l :
  (∀ child ps, (child, ps) ∈ entries →
     wc !! child = Some [S (lvl child)]
     ∧ is_Some (pos !! nodeKey child (S (lvl child)))
     ∧ ∀ p, p ∈ ps → wc !! p = Some [lvl child] ∧ is_Some (pos !! nodeKey p (lvl child))) →
  forEach (edgesOfChild pos wc) l entries
  = Returned (l ++ (entries ≫= λ '(child, ps),
                                 (λ p, drawn pos p child (lvl child)) <$> ps)).
Proof.
  revert l. induction entries as [|[child ps] entries IH]; intros l Hall.
  { cbn [forEach]. by rewrite app_nil_r. }
  destruct (Hall child ps ltac:(left)) as (Hc & Hpos & Hps).
  rewrite forEach_cons, (edgesOfChild_drawn _ _ _ _ _ _ Hc Hps Hpos), bind_Returned.
  rewrite IH by (intros c' ps' Hin; apply Hall; by right).
  by rewrite <-app_assoc.
Qed.

Lemma drawn_inj (pos : gmap string Layout.Point) p1 c1 j1 p2 c2 j2 :
  drawn pos p1 c1 j1 = drawn pos p2 c2 j2 → p1 = p2 ∧ c1 = c2 ∧ j1 = j2.
Proof.
  unfold drawn. intros [= [-> ->]%nodeKey_inj _ [-> _]%nodeKey_inj _]. done.
Qed.

(** Building [wordCols] throws on a column word with an inherited name, and so
    does the [edges] memo. *)
Lemma edges_inherited (cols : list (list string)) (pos : gmap string Layout.Point)
    (entries : list (string * list string)) col w :
  col ∈ cols → w ∈ col → inheritedName w → edges cols pos entries = Thrown.
Proof.
  intros Hcol Hw Hin. unfold edges. destruct cols as [|c0 cols]; [by apply elem_of_nil in Hcol|].
  pose proof (wordColsOf_spec (c0 :: cols)) as Hspec.
  destruct (wordColsOf (c0 :: cols)) as [wc| |]; [|done..].
  destruct Hspec as (Hclean & _). by destruct (Hclean col w).
Qed.

Lemma edges_of_frames beginWord endWord (ws : list string) fs (step : nat) f cols
    (entries : list (string * list string)) :
  frames beginWord endWord ws = Returned fs → fs !! step = Some f →
  ¬ inheritedName (toLowerCase beginWord) →
  columns fs (Z.of_nat step) beginWord = Returned cols →
  shownEntries fs (Z.of_nat step) entries →
  ∃ es,
    edges cols (positions cols) entries = Returned es
    ∧ NoDup es
    ∧ (∀ e, e ∈ es
            ↔ ∃ j fj child parent,
                j ≤ step ∧ fs !! j = Some fj
                ∧ child ∈ nextFrontier fj ∧ parent ∈ frontier fj
                ∧ child ∈ getNeighbors ws beginWord parent
                ∧ e = drawn (positions cols) parent child j)
    ∧ ∀ e, e ∈ es →
        positions cols !! Layout.key (Layout.from e) = Some (Layout.point (Layout.from e))
        ∧ positions cols !! Layout.key (Layout.to e) = Some (Layout.point (Layout.to e))
        ∧ Layout.x (Layout.point (Layout.to e))
          = (Layout.x (Layout.point (Layout.from e)) + 200)%Z.
Proof.
  intros Hret Hf Hsrc Hcols Hentries.
  pose proof (lookup_lt_Some _ _ _ Hf) as Hlt.
  destruct (columns_of_frames _ _ _ _ _ _ Hret Hf) as (cols' & Hcols' & Hlen & Hcol).
  rewrite Hcols in Hcols'. injection Hcols' as <-.
  assert (String.length (toLowerCase beginWord) = String.length (toLowerCase endWord))
    as Hlen'.
  { destruct (decide (String.length (toLowerCase beginWord)
                      = String.length (toLowerCase endWord))) as [|Hn]; [done|].
    rewrite (frames_mismatch _ _ _ Hn) in Hret. by injection Hret as <-. }
  destruct (frames_Returned _ _ _ fs Hlen' Hret) as (_ & _ & Hclean & Hall).
  pose proof (frames_frameOk _ _ _ _ Hret _ _ Hf)
    as (_ & _ & [HNf _] & _ & (HP1 & HP2 & HPd) & _).
  set (nbrs := getNeighbors ws beginWord) in *.
  set (src := toLowerCase beginWord) in *.
  assert (Forall NoDup cols) as Hnd.
  { apply Forall_forall. intros col [c Hc]%list_elem_of_lookup.
    by destruct (Hcol c col Hc) as (_ & ? & _). }
  (* a word of level [c], up to the level on show, is in column [c] *)
  assert (∀ c v, lev nbrs src c v → c ≤ S step →
                 ∃ col, cols !! c = Some col ∧ v ∈ col) as Hincol.
  { intros c v Hv Hc.
    assert (c < length cols) as Hc'.
    { destruct (decide (c = S step)) as [->|]; [|destruct (decide (nextFrontier f = [])); lia].
      apply HNf in Hv. destruct (decide (nextFrontier f = [])) as [Hnil|]; [|lia].
      rewrite Hnil in Hv. by apply elem_of_nil in Hv. }
    destruct (lookup_lt_is_Some_2 cols c Hc') as [col Hc''].
    exists col. split; [done|]. by apply (Hcol c col Hc''). }
  assert (∀ c col v, cols !! c = Some col → v ∈ col → lev nbrs src c v) as Hlevcol.
  { intros c col v Hc Hv. by apply (Hcol c col Hc). }
  (* [wordCols] *)
  unfold edges. destruct cols as [|c0 cols'] eqn:Ecols.
  { destruct (decide (nextFrontier f = [])); simpl in Hlen; lia. }
  rewrite <-Ecols in *. clear Ecols c0 cols'.
  pose proof (wordColsOf_spec cols) as Hspec.
  destruct (wordColsOf cols) as [wc| |]; [| |done].
  2:{ exfalso. destruct Hspec as (col & w & [c Hc]%list_elem_of_lookup & Hw & Hin).
      pose proof (Hlevcol c col w Hc Hw) as Hlev.
      destruct c as [|c].
      - apply lev_0 in Hlev as ->. done.
      - apply (Hclean (S c) w); [|done..]. apply lookup_lt_Some in Hc.
        destruct (decide (nextFrontier f = [])); lia. }
  destruct Hspec as (_ & _ & Hwc). specialize (Hwc Hnd). rewrite bind_Returned.
  assert (∀ c v, lev nbrs src c v → c ≤ S step → wc !! v = Some [c]) as Hwcv.
  { intros c v Hv Hc. destruct (Hincol c v Hv Hc) as (col & Hcc & Hvc).
    assert (default [] (wc !! v) = [c]) as Hd.
    { rewrite Hwc. apply NoDup_one; [apply NoDup_filter, NoDup_seq|].
      intros c'. rewrite list_elem_of_filter, elem_of_seq. split.
      - intros [Hv' Hc']. destruct (cols !! c') as [col'|] eqn:Hcol'; [|by apply elem_of_nil in Hv'].
        simpl in Hv'. eapply lev_unique; [by eapply Hlevcol|done].
      - intros ->. rewrite Hcc. simpl. split; [done|].
        apply lookup_lt_Some in Hcc. lia. }
    destruct (wc !! v) as [cs|]; [by simpl in Hd; subst|done]. }
  assert (∀ c v, lev nbrs src c v → c ≤ S step → is_Some (positions cols !! nodeKey v c))
    as Hposv.
  { intros c v Hv Hc. destruct (Hincol c v Hv Hc) as (col & Hcc & [ri Hri]%list_elem_of_lookup).
    eexists. apply elem_of_positions; [done|]. exists c, col, ri, v. done. }
  (* the entries *)
  assert (∀ child ps, (child, ps) ∈ entries ↔ parentsSnapshot f !! child = Some ps)
    as Hent.
  { intros child ps. unfold shownEntries, current in Hentries.
    destruct (Z.ltb_spec (Z.of_nat step) 0) as [|_]; [lia|].
    rewrite Nat2Z.id, Hf in Hentries. simpl in Hentries.
    rewrite Hentries. apply elem_of_map_to_list. }
  assert (∀ child ps p, parentsSnapshot f !! child = Some ps → p ∈ ps →
            ∃ j, j ≤ step ∧ lev nbrs src j p ∧ lev nbrs src (S j) child ∧ child ∈ nbrs p)
    as Hpar.
  { intros child ps p Hc Hp. specialize (HP1 child p). rewrite Hc in HP1.
    apply HP1 in Hp as (j & Hj & ? & ? & ?). exists j. split_and!; [lia|done..]. }
  set (lvl := λ child : string, pred (default 0 (head (default [] (wc !! child))))).
  assert (∀ j child, lev nbrs src (S j) child → j ≤ step → lvl child = j) as Hlvl.
  { intros j child Hc Hj. unfold lvl. rewrite (Hwcv (S j) child Hc) by lia. done. }
  assert (NoDup entries) as Hnde.
  { unfold shownEntries in Hentries. rewrite Hentries. apply NoDup_map_to_list. }
  rewrite (edges_fold _ _ lvl).
  2:{ intros child ps Hps%Hent.
      assert (is_Some (parentsSnapshot f !! child)) as (j & Hj & Hl)%HP2 by (by eexists).
      destruct j as [|j]; [lia|]. rewrite (Hlvl j child Hl) by lia.
      split_and!; [apply Hwcv; [done|lia]|apply Hposv; [done|lia]|].
      intros p Hp. destruct (Hpar child ps p Hps Hp) as (j' & Hj' & Hp' & Hc' & _).
      assert (S j' = S j) as [= ->] by (by eapply lev_unique).
      split; [apply Hwcv; [done|lia]|apply Hposv; [done|lia]]. }
  rewrite app_nil_l. eexists. split; [done|].
  assert (∀ e, e ∈ entries ≫= (λ '(child, ps),
                                 (λ p, drawn (positions cols) p child (lvl child)) <$> ps)
               ↔ ∃ j child parent,
                   j ≤ step ∧ lev nbrs src j parent ∧ lev nbrs src (S j) child
                   ∧ child ∈ nbrs parent ∧ e = drawn (positions cols) parent child j)
    as Hmem.
  { intros e. rewrite list_elem_of_bind. split.
    - intros ([child ps] & (p & -> & Hp)%list_elem_of_fmap & Hps%Hent).
      destruct (Hpar child ps p Hps Hp) as (j & Hj & Hp' & Hc' & Hnb).
      exists j, child, p. rewrite (Hlvl j child Hc' Hj). done.
    - intros (j & child & parent & Hj & Hp & Hc & Hnb & ->).
      assert (parent ∈ default [] (parentsSnapshot f !! child)) as Hin.
      { apply HP1. exists j. split_and!; [lia|done..]. }
      destruct (parentsSnapshot f !! child) as [ps|] eqn:Hps; [|by apply elem_of_nil in Hin].
      exists (child, ps). split; [|by apply Hent].
      apply list_elem_of_fmap. exists parent. by rewrite (Hlvl j child Hc Hj). }
  split_and!.
  - apply NoDup_bind; [| |done].
    + intros [c1 ps1] [c2 ps2] y Hin1%Hent Hin2%Hent
             (p1 & -> & _)%list_elem_of_fmap (p2 & Heq & _)%list_elem_of_fmap.
      apply drawn_inj in Heq as (_ & -> & _). congruence.
    + intros [child ps] Hin%Hent. apply NoDup_fmap_2_strong; [|by eapply HPd].
      by intros p1 p2 _ _ (? & _)%drawn_inj.
  - intros e. rewrite Hmem. split.
    + intros (j & child & parent & Hj & Hp & Hc & Hnb & ->).
      destruct (lookup_lt_is_Some_2 fs j) as [fj Hfj]; [lia|].
      pose proof (frames_frameOk _ _ _ _ Hret _ _ Hfj) as (_ & [HF _] & [HN _] & _).
      exists j, fj, child, parent. split_and!; [done|done|by apply HN|by apply HF|done..].
    + intros (j & fj & child & parent & Hj & Hfj & Hc & Hp & Hnb & ->).
      pose proof (frames_frameOk _ _ _ _ Hret _ _ Hfj) as (_ & [HF _] & [HN _] & _).
      exists j, child, parent. split_and!; [done|by apply HF|by apply HN|done..].
  - intros e (j & child & parent & Hj & Hp & Hc & _ & ->)%Hmem.
    destruct (Hposv j parent Hp ltac:(lia)) as [pf Hpf].
    destruct (Hposv (S j) child Hc ltac:(lia)) as [pt Hpt].
    unfold drawn. cbn [Layout.from Layout.to Layout.key Layout.point].
    rewrite Hpf, Hpt. cbn [default from_option]. split_and!; [done..|].
    apply elem_of_positions in Hpf as (c1 & col1 & r1 & w1 & _ & _ & [_ <-]%nodeKey_inj & ->);
      [|done].
    apply elem_of_positions in Hpt as (c2 & col2 & r2 & w2 & _ & _ & [_ <-]%nodeKey_inj & ->);
      [|done].
    simpl. lia.
Qed.

(** X21.  The picture is the parent map.  On the frames of the search, for the
    frame on show, and a begin word without an inherited name, the [edges]
    memo returns one edge for every pair of a word discovered by a frame up
    to the one on show and a word of that frame's frontier that has it among
    its neighbors, and no other edge; the edge leads from the parent, in the
    column of that frame, to the child, in the next column, both where
    [positions] has them, 200 apart. *)
Theorem edges_levels beginWord endWord (ws : list string) fs (step : nat) f cols
    (entries : list (string * list string)) :
  frames beginWord endWord ws = Returned fs → fs !! step = Some f →
  ¬ inheritedName (toLowerCase beginWord) →
  columns fs (Z.of_nat step) beginWord = Returned cols →
  shownEntries fs (Z.of_nat step) entries →
  ∃ es,
    edges cols (positions cols) entries = Returned es
    ∧ NoDup es
    ∧ (∀ e, e ∈ es
            ↔ ∃ j fj child parent,
                j ≤ step ∧ fs !! j = Some fj
                ∧ child ∈ nextFrontier fj ∧ parent ∈ frontier fj
                ∧ child ∈ getNeighbors ws beginWord parent
                ∧ e = drawn (positions cols) parent child j)
    ∧ ∀ e, e ∈ es →
        positions cols !! Layout.key (Layout.from e) = Some (Layout.point (Layout.from e))
        ∧ positions cols !! Layout.key (Layout.to e) = Some (Layout.point (Layout.to e))
        ∧ Layout.x (Layout.point (Layout.to e))
          = (Layout.x (Layout.point (Layout.from e)) + 200)%Z.
Proof. apply edges_of_frames. Qed.

Lemma edges_levels_witness :
  ∃ fs f cols,
    frames "hit" "cog" ["hot"; "dot"; "dog"; "lot"; "log"; "cog"] = Returned fs
    ∧ fs !! 1 = Some f
    ∧ columns fs (Z.of_nat 1) "hit" = Returned cols
    ∧ ∃ es,
        edges cols (positions cols) (map_to_list (parentsSnapshot f)) = Returned es
        ∧ NoDup es
        ∧ (∀ e, e ∈ es
                ↔ ∃ j fj child parent,
                    j ≤ 1 ∧ fs !! j = Some fj
                    ∧ child ∈ nextFrontier fj ∧ parent ∈ frontier fj
                    ∧ child ∈ getNeighbors ["hot"; "dot"; "dog"; "lot"; "log"; "cog"]
                               "hit" parent
                    ∧ e = drawn (positions cols) parent child j)
        ∧ ∀ e, e ∈ es →
            positions cols !! Layout.key (Layout.from e)
            = Some (Layout.point (Layout.from e))
            ∧ positions cols !! Layout.key (Layout.to e) = Some (Layout.point (Layout.to e))
            ∧ Layout.x (Layout.point (Layout.to e))
              = (Layout.x (Layout.point (Layout.from e)) + 200)%Z.
Proof.
  eexists _, _, _. split; [vm_compute; reflexivity|]. split; [vm_compute; reflexivity|].
  split; [vm_compute; reflexivity|].
  eapply (edges_levels "hit" "cog" ["hot"; "dot"; "dog"; "lot"; "log"; "cog"] _ 1);
    [vm_compute; reflexivity|vm_compute; reflexivity|by_evaluation
    |vm_compute; reflexivity|].
  unfold shownEntries. reflexivity.
Defined.

(** X22.  Where the begin word goes by a name that plain objects inherit, and there
    are frames, the [edges] memo throws, whatever the frame on show: the
    begin word is in the first column, and [wordCols] has no array for it. *)
Theorem edges_throws beginWord (fs : list BFSFrame) (step : Z) cols
    (pos : gmap string Layout.Point) (entries : list (string * list string)) :
  fs ≠ [] → columns fs step beginWord = Returned cols →
  inheritedName (toLowerCase beginWord) →
  edges cols pos entries = Thrown.
Proof.
  intros Hne Hcols Hin.
  destruct (decide (step < Z.of_nat (length fs))%Z) as [Hlt|Hge].
  - rewrite (columns_in_range _ _ _ Hne Hlt) in Hcols. injection Hcols as <-.
    eapply edges_inherited; [left| |done]. left.
  - rewrite columns_beyond in Hcols by (done || lia). done.
Qed.

Lemma edges_throws_witness :
  edges [["constructor"]] ∅ [] = Thrown.
Proof.
  apply (edges_throws "constructor"
           [mkFrame 0 ["constructor"] [] ["constructor"] ∅ false] 0);
    [done|vm_compute; reflexivity|by_evaluation].
Defined.

(** ** What the panel shows of the paths *)

(** X12.  Where a render gets as far as the list of paths, the panel lists
    paths exactly when the last frame has [found], and then it lists the
    whole path list, each path with one word more than there are frames; for
    a begin word that is the end word it lists nothing; and if there are
    frames, [step] is the index of one of them and the begin word does not go
    by an inherited name, or the render would have thrown before.  The render
    does get that far, for the frames of the search and the index of a frame,
    if neither the begin word nor an end word other than it goes by an
    inherited name. *)
Theorem visiblePaths_solved beginWord endWord (ws : list string) (step : Z)
    (entries : list (string * list string)) :
  (∀ l, visiblePaths beginWord endWord ws step entries = Returned l →
     ∃ fs, frames beginWord endWord ws = Returned fs
           ∧ (l ≠ [] ↔ solved fs = true)
           ∧ (solved fs = true → pathList beginWord endWord ws = Returned l)
           ∧ (∀ q, q ∈ l → length q = S (length fs))
           ∧ (toLowerCase beginWord = toLowerCase endWord → l = [])
           ∧ (fs ≠ [] →
              (step < Z.of_nat (length fs))%Z
              ∧ ¬ inheritedName (toLowerCase beginWord)))
  ∧ (∀ fs f,
       frames beginWord endWord ws = Returned fs →
       (0 ≤ step)%Z → fs !! Z.to_nat step = Some f →
       ¬ inheritedName (toLowerCase beginWord) →
       ¬ (inheritedName (toLowerCase endWord)
          ∧ toLowerCase endWord ≠ toLowerCase beginWord) →
       shownEntries fs step entries →
       ∃ l, visiblePaths beginWord endWord ws step entries = Returned l).
Proof.
  split.
  - unfold visiblePaths. intros l Hv.
    destruct (frames beginWord endWord ws) as [fs| |] eqn:Hfs; [|done..].
    rewrite bind_Returned in Hv.
    destruct (allPaths (finalParents fs) beginWord endWord) as [l0| |] eqn:Hl0;
      [|done..].
    rewrite bind_Returned in Hv.
    destruct (columns fs step beginWord) as [cols| |] eqn:Hcols; [|done..].
    rewrite bind_Returned in Hv.
    destruct (edges cols (positions cols) entries) as [es| |] eqn:Hes; [|done..].
    rewrite bind_Returned in Hv. injection Hv as <-. exists fs. split; [done|].
    assert (pathList beginWord endWord ws = Returned l0) as Hpl.
    { by rewrite (pathList_allPaths _ _ _ _ Hfs). }
    assert (solved fs = true → l0 ≠ [] ∧ ∀ q, q ∈ l0 → length q = S (length fs))
      as Hsolved.
    { unfold solved. destruct (last fs) as [f|] eqn:Hlast; [|done]. intros Hfound.
      rewrite last_lookup in Hlast.
      pose proof (frames_frameOk _ _ _ _ Hfs _ _ Hlast)
        as (_ & _ & [HN _] & _ & _ & Hf).
      rewrite Hfound in Hf. symmetry in Hf. apply bool_decide_eq_true, HN in Hf.
      split.
      - destruct (lev_descent _ _ _ _ Hf) as (c & Hc).
        assert (reverse (toLowerCase endWord :: c) ∈ l0) as Hin.
        { apply (elem_of_pathList _ _ _ l0 _ Hpl). left. eauto. }
        intros ->. by apply elem_of_nil in Hin.
      - intros q Hq.
        destruct (pathList_found _ _ _ l0 q Hpl Hq)
          as [(_ & Heq & _)|(fs' & k & f' & Hfs' & Hlen & _ & _ & _ & Hq' & _)].
        + rewrite Heq in Hf. by apply lev_src in Hf.
        + rewrite Hfs in Hfs'. injection Hfs' as <-. lia. }
    assert (fs ≠ [] →
            (step < Z.of_nat (length fs))%Z ∧ ¬ inheritedName (toLowerCase beginWord))
      as Hrender.
    { intros Hne.
      destruct (decide (step < Z.of_nat (length fs))%Z) as [Hlt|Hge].
      - split; [done|]. intros Hin.
        rewrite (columns_in_range _ _ _ Hne Hlt) in Hcols. injection Hcols as <-.
        rewrite (edges_inherited _ _ _ [toLowerCase beginWord] (toLowerCase beginWord))
          in Hes; [done|left|left|done].
      - rewrite columns_beyond in Hcols by (done || lia). done. }
    destruct (solved fs) eqn:Hs.
    + destruct (Hsolved eq_refl) as [Hne Hlen]. split_and!; [done|done|done| |done].
      intros Heq. exfalso. revert Hs. unfold solved.
      destruct (last fs) as [f|] eqn:Hlast; [|done].
      apply last_Some_elem_of in Hlast.
      by rewrite (proj1 (begin_equals_end_clean beginWord endWord ws Heq) fs f Hfs Hlast).
    + split_and!; [|done|by intros q ?%elem_of_nil|done|done]. split; done.
  - intros fs f Hfs Hstep Hf Hsrc Htgt Hentries. unfold visiblePaths.
    rewrite Hfs, bind_Returned.
    destruct (allPaths (finalParents fs) beginWord endWord) as [l0| |] eqn:Hl0.
    + rewrite bind_Returned.
      assert (∃ n, step = Z.of_nat n) as [n ->] by (exists (Z.to_nat step); lia).
      rewrite Nat2Z.id in Hf.
      destruct (columns_of_frames _ _ _ _ _ _ Hfs Hf) as (cols & Hcols & _).
      rewrite Hcols, bind_Returned.
      destruct (edges_of_frames _ _ _ _ _ _ _ _ Hfs Hf Hsrc Hcols Hentries)
        as (es & -> & _).
      rewrite bind_Returned. by eexists.
    + exfalso. destruct (finalParents_ok _ _ _ _ Hfs) as (_ & Hclosed & _).
      apply allPaths_Thrown in Hl0 as (_ & ? & ?); [|done]. by apply Htgt.
    + exfalso. revert Hl0.
      apply (allPathsFuel_allPaths (finalParents fs) beginWord endWord
               (S (length (parentWords (finalParents fs))))). lia.
Qed.

Lemma visiblePaths_solved_witness :
  ∃ fs, frames "hit" "cog" ["hot"; "dot"; "dog"; "lot"; "log"; "cog"] = Returned fs
        ∧ ([["hit"; "hot"; "dot"; "dog"; "cog"]; ["hit"; "hot"; "lot"; "log"; "cog"]] ≠ []
           ↔ solved fs = true)
        ∧ (solved fs = true →
           pathList "hit" "cog" ["hot"; "dot"; "dog"; "lot"; "log"; "cog"]
           = Returned [["hit"; "hot"; "dot"; "dog"; "cog"];
                       ["hit"; "hot"; "lot"; "log"; "cog"]])
        ∧ (∀ q, q ∈ [["hit"; "hot"; "dot"; "dog"; "cog"];
                     ["hit"; "hot"; "lot"; "log"; "cog"]] →
                length q = S (length fs))
        ∧ (toLowerCase "hit" = toLowerCase "cog" →
           [["hit"; "hot"; "dot"; "dog"; "cog"]; ["hit"; "hot"; "lot"; "log"; "cog"]] = [])
        ∧ (fs ≠ [] →
           (3 < Z.of_nat (length fs))%Z ∧ ¬ inheritedName (toLowerCase "hit")).
Proof.
  apply (proj1 (visiblePaths_solved "hit" "cog" ["hot"; "dot"; "dog"; "lot"; "log"; "cog"] 3
                  (match frames "hit" "cog" ["hot"; "dot"; "dog"; "lot"; "log"; "cog"] with
                   | Returned fs =>
                       map_to_list (from_option parentsSnapshot ∅ (current fs 3))
                   | _ => []
                   end))).
  vm_compute. reflexivity.
Defined.
